(** * BitForge: the build orchestration core of [compile_bitcoind_gui.py]

    A shallow embedding of the version catalogue, the build-system
    selection, the environment composer, the integrity gate, the artefact
    collector and the two build pipelines of [compile_bitcoind_gui.py],
    with the properties the design document states about them.

    Conventions.  A Python [str] is a [string]; tags, paths and commands
    are ASCII, so a character is an [ascii] and [\d] is [0-9].  A Python
    [int] that the program only ever builds from digits is an [N].  A
    Python [dict] that is iterated is an association list in insertion
    order; a [dict] that is only read and written by key is a [gmap].
    The file system is a map from paths to nodes; a path is the string
    the program writes, so two spellings of one path are two paths.  What
    a child process prints is the text before the text layer of its pipe
    has read the line ends; that layer is part of the model. *)

From Stdlib Require Import Ascii String NArith List Bool.
From Stdlib Require Import DecimalString DecimalN DecimalPos.
From stdpp Require Import base gmap strings list.

Set Warnings "-clear-no-such-hyp".

Local Open Scope string_scope.
Local Open Scope N_scope.

(** ** Strings *)

Module Str.

(** [c in "0123456789"], the ASCII reading of [\d]. *)
Definition is_digit (c : ascii) : bool :=
  (48 <=? N_of_ascii c) && (N_of_ascii c <=? 57).

Fixpoint all_digits (s : string) : bool :=
  match s with
  | EmptyString => true
  | String c s' => is_digit c && all_digits s'
  end.

(** The longest prefix of digits, and what follows it: what the greedy
    [\d+] and [\d*] consume. *)
Fixpoint span_digits (s : string) : string * string :=
  match s with
  | String c s' =>
      if is_digit c
      then let '(d, r) := span_digits s' in (String c d, r)
      else (EmptyString, s)
  | EmptyString => (EmptyString, EmptyString)
  end.

(** [int(s)] on a string of ASCII digits. *)
Definition int_of_digits (s : string) : N :=
  match NilEmpty.uint_of_string s with
  | Some u => N.of_uint u
  | None => 0
  end.

(** [str(n)], as [f"{n}"] formats a non-negative [int]. *)
Definition str_of_int (n : N) : string :=
  NilEmpty.string_of_uint (N.to_uint n).

(** [s.lstrip(c)] for a one-character set. *)
Fixpoint lstrip (c : ascii) (s : string) : string :=
  match s with
  | String a s' => if Ascii.eqb a c then lstrip c s' else s
  | EmptyString => EmptyString
  end.

(** [s.lower()] on ASCII. *)
Definition lower_char (c : ascii) : ascii :=
  let n := N_of_ascii c in
  if (65 <=? n) && (n <=? 90) then ascii_of_N (n + 32) else c.

Fixpoint lower (s : string) : string :=
  match s with
  | EmptyString => EmptyString
  | String c s' => String (lower_char c) (lower s')
  end.

(** [s.startswith(p)]. *)
Fixpoint startswith (p s : string) : bool :=
  match p, s with
  | EmptyString, _ => true
  | String a p', String b s' => Ascii.eqb a b && startswith p' s'
  | String _ _, EmptyString => false
  end.

(** [needle in s]. *)
Fixpoint contains (needle s : string) : bool :=
  startswith needle s ||
  match s with
  | EmptyString => false
  | String _ s' => contains needle s'
  end.

(** [s.split(sep)] for a one-character separator: never the empty list. *)
Fixpoint split (sep : ascii) (s : string) : list string :=
  match s with
  | EmptyString => [EmptyString]
  | String c s' =>
      if Ascii.eqb c sep then EmptyString :: split sep s'
      else match split sep s' with
           | w :: ws => String c w :: ws
           | [] => [String c EmptyString]
           end
  end.

(** [sep.join(l)]. *)
Fixpoint join (sep : string) (l : list string) : string :=
  match l with
  | [] => EmptyString
  | [x] => x
  | x :: l' => x +:+ sep +:+ join sep l'
  end.

(** [s.endswith(c)] for one character. *)
Fixpoint endswith_char (c : ascii) (s : string) : bool :=
  match s with
  | EmptyString => false
  | String a EmptyString => Ascii.eqb a c
  | String _ s' => endswith_char c s'
  end.

(** [c.isspace()] on ASCII. *)
Definition is_space (c : ascii) : bool :=
  let n := N_of_ascii c in
  ((9 <=? n) && (n <=? 13)) || ((28 <=? n) && (n <=? 32)).

Fixpoint lstrip_space (s : string) : string :=
  match s with
  | String c s' => if is_space c then lstrip_space s' else s
  | EmptyString => EmptyString
  end.

Fixpoint rstrip_space (s : string) : string :=
  match s with
  | EmptyString => EmptyString
  | String c s' =>
      match rstrip_space s' with
      | EmptyString => if is_space c then EmptyString else String c EmptyString
      | r => String c r
      end
  end.

(** [s.strip()]. *)
Definition strip (s : string) : string := rstrip_space (lstrip_space s).

(** The lines of a stream, each with its line end, as iterating a text
    file yields them. *)
Fixpoint lines_from (cur s : string) : list string :=
  match s with
  | EmptyString => match cur with EmptyString => [] | _ => [cur] end
  | String c s' =>
      if Ascii.eqb c "010" then (cur +:+ String c EmptyString) :: lines_from EmptyString s'
      else lines_from (cur +:+ String c EmptyString) s'
  end.

Definition lines (s : string) : list string := lines_from EmptyString s.

(** What the text layer of a pipe opened with [text=True] makes of the
    line ends: a carriage return followed by a line feed, and a carriage
    return alone, are read as one line feed. *)
Fixpoint universal_newlines (s : string) : string :=
  match s with
  | EmptyString => EmptyString
  | String c s' =>
      if Ascii.eqb c "013" then
        match s' with
        | String "010" _ => universal_newlines s'
        | _ => String "010" (universal_newlines s')
        end
      else String c (universal_newlines s')
  end.

(** The lines of a stream that are ended by a line feed. *)
Definition full_lines (s : string) : list string :=
  filter (λ line, endswith_char "010" line = true) (lines s).

(** [s[:n]]. *)
Definition take (n : nat) (s : string) : string := String.substring 0 n s.

End Str.

(** [c * k], the string of [k] copies of a character. *)
Fixpoint replicate_char (k : nat) (c : ascii) : string :=
  match k with
  | O => EmptyString
  | S k' => String c (replicate_char k' c)
  end.

(** ** Exceptions, the outside world and the effect monad *)

(** The Python exceptions the modelled code can meet; all of them are
    subclasses of [Exception], so [except Exception] catches each one. *)
Inductive exn : Type :=
| RuntimeError (msg : string)
| FileNotFoundError (what : string)
| PermissionError (what : string)
| IsADirectoryError (what : string)
| FileExistsError (what : string)
| NotADirectoryError (what : string)
| SameFileError (what : string)
| RequestException (msg : string)
| HTTPError (status : N)
| JSONDecodeError
| TypeError (msg : string)
| KeyError (key : string)
| AttributeError (msg : string)
| ValueError (msg : string)
| IndexError
| UnicodeDecodeError (reason : string).

(** [str(e)], as the log messages print it. *)
Definition exn_str (e : exn) : string :=
  match e with
  | RuntimeError msg => msg
  | FileNotFoundError what => "[Errno 2] No such file or directory: '" +:+ what +:+ "'"
  | PermissionError what => "[Errno 13] Permission denied: '" +:+ what +:+ "'"
  | IsADirectoryError what => "[Errno 21] Is a directory: '" +:+ what +:+ "'"
  | FileExistsError what => "[Errno 17] File exists: '" +:+ what +:+ "'"
  | NotADirectoryError what => "[Errno 20] Not a directory: '" +:+ what +:+ "'"
  | SameFileError what => "'" +:+ what +:+ "' and '" +:+ what +:+ "' are the same file"
  | RequestException msg => msg
  | HTTPError status => Str.str_of_int status +:+ " Error"
  | JSONDecodeError => "Expecting value: line 1 column 1 (char 0)"
  | TypeError msg => msg
  | KeyError key => "'" +:+ key +:+ "'"
  | AttributeError msg => msg
  | ValueError msg => msg
  | IndexError => "list index out of range"
  | UnicodeDecodeError reason => reason
  end.

Inductive result (A : Type) : Type :=
| Ok (a : A)
| Raise (e : exn).
Arguments Ok {A} a.
Arguments Raise {A} e.

(** A decoded JSON document, as [r.json()] returns it. *)
#[warnings="-register-all"]
Inductive json : Type :=
| JNull
| JBool (b : bool)
| JNum (n : Z)
| JStr (s : string)
| JArr (items : list json)
| JObj (fields : list (string * json)).

(** What [requests.get] can do: raise, or return a response with a status
    code and a body that [r.json()] decodes or fails to decode. *)
Inductive http_result : Type :=
| HttpRaises (e : exn)
| HttpResponse (status : N) (body : option json).

(** What [subprocess.run] can do with [text=True]: raise (the executable
    is not found on the search path of the environment it is given, the
    working directory is missing, or the child ran and what it printed is
    not text in the encoding of the locale, a [UnicodeDecodeError]), or
    hand over the exit status of the child and what it printed, decoded,
    with the line ends as the child wrote them. *)
Inductive proc_result : Type :=
| LaunchError (e : exn)
| Exited (returncode : Z) (stdout : string).

(** What a command run through the shell by [subprocess.Popen] with
    [text=True] can do, as the loop over [process.stdout] meets it:
    [Popen] raises; the output is read to its end and the child exits; or
    some of the output is read and then the text layer meets bytes that
    are not text in the encoding of the locale. *)
Inductive shell_result : Type :=
| PopenError (e : exn)
| Completed (returncode : Z) (stdout : string)
| Undecodable (read : string) (reason : string).

(** The changes the program asks of the file system on its own. *)
Inductive fs_op : Type :=
| Mkdir (p : string)
| Write (p : string)
| Chmod (p : string).

(** A file-system node: a regular file with its content and permission
    bits, or a directory. *)
Inductive node : Type :=
| File (content : string) (mode : N)
| Dir.

Abbreviation fs := (gmap string node).
Abbreviation environment := (gmap string string).

(** Dictionaries live in a store and are handled by reference, as Python
    objects are; [os.environ] is the object at [environ_ref]. *)
Abbreviation ref := positive.
Definition environ_ref : ref := 1%positive.

(** Everything the program does to the outside, in order; a shell command
    and a question are recorded with what came back. *)
Inductive event : Type :=
| EvLog (msg : string)
| EvHttpGet (url : string)
| EvSpawn (argv : list string) (cwd : option string) (env : environment)
| EvShell (cmd : string) (cwd : option string) (env : environment)
    (answer : shell_result)
| EvAskYesNo (title : string) (answer : bool)
| EvShowError (title msg : string).

(** The behaviour of the outside: each answer may depend on everything
    that happened before and on the file system as it is.  [o_refuses] is
    the refusal of the operating system to make a change that the file
    system of the model would allow (a directory that may not be written
    to, a volume that is full or read-only), with the error it gives. *)
Record outside : Type := {
  o_http : list event -> string -> http_result;
  o_spawn : list event -> fs -> list string -> option string ->
            environment -> proc_result * fs;
  o_shell : list event -> fs -> string -> option string ->
            environment -> shell_result * fs;
  o_askyesno : list event -> string -> bool;
  o_refuses : list event -> fs -> fs_op -> option exn;
}.

Record world : Type := {
  w_fs : fs;
  w_store : gmap ref environment;
  w_gui : bool;                (* the log widget exists *)
  w_trace : list event;        (* oldest first *)
  w_out : outside;
}.

Definition M (A : Type) : Type := world -> result A * world.

Definition raise {A} (e : exn) : M A := fun w => (Raise e, w).

#[global] Instance M_ret : MRet M := fun A a w => (Ok a, w).
#[global] Instance M_bind : MBind M := fun A B k m w =>
  match m w with
  | (Ok a, w') => k a w'
  | (Raise e, w') => (Raise e, w')
  end.

(** [try: m except Exception as e: h e]. *)
Definition try_except {A} (m : M A) (h : exn -> M A) : M A :=
  fun w => match m w with
           | (Ok a, w') => (Ok a, w')
           | (Raise e, w') => h e w'
           end.
Definition lift {A} (r : result A) : M A := fun w => (r, w).

Definition emit (e : event) : M unit :=
  fun w => (Ok tt, {| w_fs := w_fs w; w_store := w_store w; w_gui := w_gui w;
                      w_trace := (w_trace w ++ [e])%list; w_out := w_out w |}).

Definition set_fs (f : fs) : M unit :=
  fun w => (Ok tt, {| w_fs := f; w_store := w_store w; w_gui := w_gui w;
                      w_trace := w_trace w; w_out := w_out w |}).

Definition set_store (s : gmap ref environment) : M unit :=
  fun w => (Ok tt, {| w_fs := w_fs w; w_store := s; w_gui := w_gui w;
                      w_trace := w_trace w; w_out := w_out w |}).

Definition get_world : M world := fun w => (Ok w, w).

(** [log(msg)]: appends to the log widget when it exists; the body is
    wrapped in a bare [except: pass], so it never raises. *)
Definition log (msg : string) : M unit :=
  fun w => if w_gui w then emit (EvLog msg) w else (Ok tt, w).
Arguments log : simpl never.

(** ** Version logic *)

Definition BITCOIN_API : string :=
  "https://api.github.com/repos/bitcoin/bitcoin/releases".
Definition ELECTRS_API : string :=
  "https://api.github.com/repos/romanz/electrs/releases".

(** [re.match(r"(\d+)\.(\d+)", s)]: the two captured groups.  A digit is
    never a dot, so the greedy [\d+] never gives a character back and the
    match is decided by the longest digit prefixes. *)
Definition re_match_version (s : string) : option (string * string) :=
  let '(g1, r1) := Str.span_digits s in
  match g1, r1 with
  | String _ _, String "." r2 =>
      let '(g2, _) := Str.span_digits r2 in
      match g2 with
      | String _ _ => Some (g1, g2)
      | EmptyString => None
      end
  | _, _ => None
  end.

Definition parse_version (tag : string) : N * N :=
  let tag := Str.lstrip "v" tag in
  match re_match_version tag with
  | Some (g1, g2) => (Str.int_of_digits g1, Str.int_of_digits g2)
  | None => (0, 0)
  end.

Definition use_cmake (version : string) : bool :=
  let '(major, _) := parse_version version in
  25 <=? major.

(** The two build systems of the node daemon, as [compile_bitcoin_source]
    branches on [use_cmake]. *)
Inductive build_system : Type := CMake | Autotools.

Definition select_build_system (version : string) : build_system :=
  if use_cmake version then CMake else Autotools.

(** [for rel in r.json()]: the items the loop visits, or the [TypeError]
    of a value that is not iterable.  A dict yields its keys, a string its
    characters. *)
Definition json_iter (j : json) : result (list json) :=
  match j with
  | JArr items => Ok items
  | JObj fields => Ok (map (fun kv => JStr (fst kv)) fields)
  | JStr s => Ok (map (fun c => JStr (String c EmptyString)) (list_ascii_of_string s))
  | JNull => Raise (TypeError "'NoneType' object is not iterable")
  | JBool _ => Raise (TypeError "'bool' object is not iterable")
  | JNum _ => Raise (TypeError "'int' object is not iterable")
  end.

(** The value of a key in a decoded object: the last occurrence wins. *)
Fixpoint fields_lookup (key : string) (fields : list (string * json)) : option json :=
  match fields with
  | [] => None
  | (k, v) :: rest =>
      match fields_lookup key rest with
      | Some v' => Some v'
      | None => if String.eqb k key then Some v else None
      end
  end.

(** [rel["tag_name"]]. *)
Definition json_getitem (rel : json) (key : string) : result json :=
  match rel with
  | JObj fields =>
      match fields_lookup key fields with
      | Some v => Ok v
      | None => Raise (KeyError key)
      end
  | JArr _ => Raise (TypeError "list indices must be integers or slices, not str")
  | JStr _ => Raise (TypeError "string indices must be integers, not 'str'")
  | JNull => Raise (TypeError "'NoneType' object is not subscriptable")
  | JBool _ => Raise (TypeError "'bool' object is not subscriptable")
  | JNum _ => Raise (TypeError "'int' object is not subscriptable")
  end.

(** [tag.lower()]: only a string has the method. *)
Definition json_lower (tag : json) : result string :=
  match tag with
  | JStr s => Ok (Str.lower s)
  | _ => Raise (AttributeError "object has no attribute 'lower'")
  end.

(** The tag as a string, once [tag.lower()] has succeeded on it. *)
Definition json_str (tag : json) : string :=
  match tag with
  | JStr s => s
  | _ => EmptyString
  end.

(** The loop that collects the tags that are not release candidates and
    stops once [cap] of them are collected:
<<
    for rel in r.json():
        tag = rel["tag_name"]
        if "rc" in tag.lower(): continue
        versions.append(tag)
        if len(versions) == cap: break
>> *)
Fixpoint collect_tags (cap : nat) (rels : list json) (versions : list string)
  : result (list string) :=
  match rels with
  | [] => Ok versions
  | rel :: rest =>
      match json_getitem rel "tag_name" with
      | Raise e => Raise e
      | Ok tag =>
          match json_lower tag with
          | Raise e => Raise e
          | Ok low =>
              if Str.contains "rc" low then collect_tags cap rest versions
              else
                let versions := (versions ++ [json_str tag])%list in
                if Nat.eqb (length versions) cap then Ok versions
                else collect_tags cap rest versions
          end
      end
  end.

(** [requests.get(url, timeout=10)], [r.raise_for_status()], [r.json()]. *)
Definition fetch_json (url : string) : M json :=
  w ← get_world;
  emit (EvHttpGet url);;
  match o_http (w_out w) (w_trace w) url with
  | HttpRaises e => raise e
  | HttpResponse status body =>
      if (400 <=? status) && (status <? 600) then raise (HTTPError status)
      else match body with
           | Some j => mret j
           | None => raise JSONDecodeError
           end
  end.

(** *** The node-daemon catalogue *)

(** [version_groups]: a dict from the key [f"{major}.{minor}"] to the list
    of its tags, in insertion order. *)
Abbreviation groups := (list (string * list string)).

Definition group_key (major minor : N) : string :=
  Str.str_of_int major +:+ "." +:+ Str.str_of_int minor.

(** [key in d]. *)
Fixpoint dict_mem (key : string) (d : groups) : bool :=
  match d with
  | [] => false
  | (k, _) :: d' => String.eqb k key || dict_mem key d'
  end.

(** [d[key]]. *)
Fixpoint dict_get (key : string) (d : groups) : result (list string) :=
  match d with
  | [] => Raise (KeyError key)
  | (k, v) :: d' => if String.eqb k key then Ok v else dict_get key d'
  end.

(** [d[key].append(tag)] on a key that is present. *)
Fixpoint dict_append (key tag : string) (d : groups) : groups :=
  match d with
  | [] => []
  | (k, v) :: d' =>
      if String.eqb k key then (k, (v ++ [tag])%list) :: d'
      else (k, v) :: dict_append key tag d'
  end.

(** One round of the grouping loop:
<<
    major, minor = parse_version(tag)
    key = f"{major}.{minor}"
    if key not in version_groups: version_groups[key] = []
    version_groups[key].append(tag)
>> *)
Definition group_step (d : groups) (tag : string) : groups :=
  let '(major, minor) := parse_version tag in
  let key := group_key major minor in
  let d := if dict_mem key d then d else (d ++ [(key, [])])%list in
  dict_append key tag d.

Definition group_tags (all_versions : list string) : groups :=
  fold_left group_step all_versions [].

(** [int(x)] on the pieces of a key: a string of ASCII digits. *)
Definition int_py (x : string) : result N :=
  match x with
  | EmptyString => Raise (ValueError "invalid literal for int() with base 10")
  | _ => if Str.all_digits x then Ok (Str.int_of_digits x)
         else Raise (ValueError "invalid literal for int() with base 10")
  end.

Fixpoint map_result {A B} (f : A -> result B) (l : list A) : result (list B) :=
  match l with
  | [] => Ok []
  | a :: l' =>
      match f a with
      | Raise e => Raise e
      | Ok b => match map_result f l' with
                | Raise e => Raise e
                | Ok bs => Ok (b :: bs)
                end
      end
  end.

(** [tuple(map(int, x.split('.')))]. *)
Definition key_tuple (x : string) : result (list N) :=
  map_result int_py (Str.split "." x).

(** The order of Python tuples of integers: lexicographic, a proper prefix
    before its extensions. *)
Fixpoint tuple_leb (a b : list N) : bool :=
  match a, b with
  | [], _ => true
  | _ :: _, [] => false
  | x :: a', y :: b' => (x <? y) || ((x =? y) && tuple_leb a' b')
  end.

(** [sorted(l, key=..., reverse=True)] on elements already paired with
    their keys: descending, and stable (elements with equal keys keep
    the order they came in). *)
Fixpoint insert_desc {A} (x : list N * A) (l : list (list N * A)) : list (list N * A) :=
  match l with
  | [] => [x]
  | y :: l' =>
      if tuple_leb (fst y) (fst x) then x :: l
      else y :: insert_desc x l'
  end.

Definition sorted_desc {A} (l : list (list N * A)) : list A :=
  map snd (fold_right insert_desc [] l).

(** The key of a tag in the inner sort: [parse_version(v)], a 2-tuple. *)
Definition version_tuple (v : string) : list N :=
  let '(major, minor) := parse_version v in [major; minor].

(** The selection loop:
<<
    for key in sorted(keys, key=..., reverse=True):
        group = sorted(version_groups[key], key=lambda v: parse_version(v), reverse=True)
        filtered_versions.append(group[0])
        if len(filtered_versions) == 5: break
>> *)
Fixpoint select_latest (cap : nat) (d : groups) (keys : list string)
  (filtered_versions : list string) : result (list string) :=
  match keys with
  | [] => Ok filtered_versions
  | key :: rest =>
      match dict_get key d with
      | Raise e => Raise e
      | Ok tags =>
          match sorted_desc (map (fun v => (version_tuple v, v)) tags) with
          | [] => Raise IndexError
          | first :: _ =>
              let filtered_versions := (filtered_versions ++ [first])%list in
              if Nat.eqb (length filtered_versions) cap then Ok filtered_versions
              else select_latest cap d rest filtered_versions
          end
      end
  end.

(** The body of the [try] of [get_bitcoin_versions], after the fetch. *)
Definition bitcoin_versions_of (j : json) : result (list string) :=
  match json_iter j with
  | Raise e => Raise e
  | Ok rels =>
      match collect_tags 20 rels [] with
      | Raise e => Raise e
      | Ok all_versions =>
          let version_groups := group_tags all_versions in
          match map_result (fun k => match key_tuple k with
                                     | Ok t => Ok (t, k)
                                     | Raise e => Raise e
                                     end) (map fst version_groups) with
          | Raise e => Raise e
          | Ok keyed => select_latest 5 version_groups (sorted_desc keyed) []
          end
      end
  end.

Definition get_bitcoin_versions : M (list string) :=
  try_except
    (j ← fetch_json BITCOIN_API;
     filtered_versions ← lift (bitcoin_versions_of j);
     log ("Found " +:+ Str.str_of_int (N.of_nat (length filtered_versions))
          +:+ " Bitcoin versions (latest patch only)" +:+ "
");;
     mret filtered_versions)
    (fun e =>
       log ("Failed to fetch Bitcoin versions: " +:+ exn_str e +:+ "
");;
       mret []).

(** *** The indexer catalogue *)

Definition electrs_versions_of (j : json) : result (list string) :=
  match json_iter j with
  | Raise e => Raise e
  | Ok rels => collect_tags 3 rels []
  end.

Definition get_electrs_versions : M (list string) :=
  try_except
    (j ← fetch_json ELECTRS_API;
     versions ← lift (electrs_versions_of j);
     log ("Found " +:+ Str.str_of_int (N.of_nat (length versions))
          +:+ " Electrs versions" +:+ "
");;
     mret versions)
    (fun e =>
       log ("Failed to fetch Electrs versions: " +:+ exn_str e +:+ "
");;
       mret []).

(** ** The start-up constants *)

Inductive architecture : Type := apple_silicon | intel | unknown.

(** What the module computes once when it is loaded: [ARCH], [BREW_PREFIX]
    and the directory [os.path.expanduser] puts for [~]. *)
Record config : Type := {
  ARCH : architecture;
  BREW_PREFIX : option string;
  HOME : string;
}.

(** [os.path.expanduser("~/.cargo/bin")]. *)
Definition cargo_bin (cfg : config) : string := HOME cfg +:+ "/.cargo/bin".

(** ** Dictionaries in the store *)

(** [os.environ.copy()], [dict(d)]: a new object with the same items. *)
Definition dict_copy (r : ref) : M ref :=
  fun w =>
    let r' := fresh (dom (w_store w)) in
    match set_store (<[ r' := default ∅ (w_store w !! r) ]> (w_store w)) w with
    | (_, w') => (Ok r', w')
    end.

(** [d[key] = value]. *)
Definition dict_set (r : ref) (key value : string) : M unit :=
  fun w => set_store (<[ r := <[ key := value ]> (default ∅ (w_store w !! r)) ]> (w_store w)) w.

(** The items of the object, as [subprocess] reads them when it is given
    [env=d]. *)
Definition dict_items (r : ref) : M environment :=
  fun w => (Ok (default ∅ (w_store w !! r)), w).

(** [d.get(key, dflt)]. *)
Definition dict_get_default (r : ref) (key dflt : string) : M string :=
  fun w => (Ok (default dflt (default ∅ (w_store w !! r) !! key)), w).

(** [os.path.isdir(p)]. *)
Definition isdir (p : string) : M bool :=
  fun w => (Ok (match w_fs w !! p with Some Dir => true | _ => false end), w).

(** [os.path.exists(p)]. *)
Definition path_exists (p : string) : M bool :=
  fun w => (Ok (match w_fs w !! p with Some _ => true | None => false end), w).

(** The assignment the module makes to [os.environ["PATH"]] when it is
    loaded. *)
Definition module_path (cfg : config) : string :=
  "/opt/homebrew/bin:/usr/local/bin:/usr/bin:/bin:/usr/sbin:/sbin:" +:+ cargo_bin cfg.

Definition module_init (cfg : config) : M unit :=
  dict_set environ_ref "PATH" (module_path cfg).

(** ** Optimisation flags *)

Definition get_optimization_flags (cfg : config) (use_aggressive : bool)
  : list (string * string) :=
  match ARCH cfg with
  | apple_silicon =>
      let base_flags := ["-mcpu=apple-m1"; "-O2"; "-fomit-frame-pointer"; "-fno-common"] in
      if use_aggressive then
        let aggressive_flags := ["-O3"; "-flto"; "-march=armv8.5-a+fp16+crypto+dotprod"] in
        [("CFLAGS", Str.join " " (base_flags ++ aggressive_flags)%list);
         ("CXXFLAGS", Str.join " " (base_flags ++ aggressive_flags)%list);
         ("LDFLAGS", "-flto")]
      else
        [("CFLAGS", Str.join " " base_flags);
         ("CXXFLAGS", Str.join " " base_flags);
         ("LDFLAGS", "")]
  | intel =>
      let base_flags := ["-march=native"; "-O2"; "-fomit-frame-pointer"; "-fno-common"] in
      if use_aggressive then
        let aggressive_flags := ["-O3"; "-flto"; "-mtune=native"] in
        [("CFLAGS", Str.join " " (base_flags ++ aggressive_flags)%list);
         ("CXXFLAGS", Str.join " " (base_flags ++ aggressive_flags)%list);
         ("LDFLAGS", "-flto")]
      else
        [("CFLAGS", Str.join " " base_flags);
         ("CXXFLAGS", Str.join " " base_flags);
         ("LDFLAGS", "")]
  | unknown =>
      [("CFLAGS", "-O2"); ("CXXFLAGS", "-O2"); ("LDFLAGS", "")]
  end.

Definition get_rust_optimization_flags (use_aggressive : bool)
  : list (string * string) :=
  if use_aggressive then
    [("RUSTFLAGS", "-C opt-level=3 -C target-cpu=native");
     ("CARGO_PROFILE_RELEASE_LTO", "fat");
     ("CARGO_PROFILE_RELEASE_OPT_LEVEL", "3");
     ("CARGO_PROFILE_RELEASE_EMBED_BITCODE", "yes")]
  else
    [("RUSTFLAGS", "-C opt-level=2 -C target-cpu=native");
     ("CARGO_PROFILE_RELEASE_OPT_LEVEL", "2")].

(** ** The environment composer *)

(** A value is truthy: a string that is not empty. *)
Definition truthy (s : string) : bool :=
  match s with EmptyString => false | _ => true end.

(** The de-duplication loop:
<<
    seen = set(); unique_paths = []
    for p in path_components:
        if p and p not in seen:
            seen.add(p); unique_paths.append(p)
>> *)
Fixpoint unique_loop (path_components : list string) (seen : gset string)
  (unique_paths : list string) : list string :=
  match path_components with
  | [] => unique_paths
  | p :: rest =>
      if truthy p && bool_decide (p ∉ seen)
      then unique_loop rest ({[ p ]} ∪ seen) (unique_paths ++ [p])%list
      else unique_loop rest seen unique_paths
  end.

Definition unique_paths_of (path_components : list string) : list string :=
  unique_loop path_components ∅ [].

(** [for p in candidates: if p and os.path.isdir(p): acc.append(p)], with
    [None] for a candidate that is not there. *)
Fixpoint existing_dirs (f : fs) (candidates : list (option string)) : list string :=
  match candidates with
  | [] => []
  | Some p :: rest =>
      if truthy p && match f !! p with Some Dir => true | _ => false end
      then p :: existing_dirs f rest
      else existing_dirs f rest
  | None :: rest => existing_dirs f rest
  end.

(** The list [path_components] as [setup_build_environment] builds it,
    before the inherited [PATH] is appended. *)
Definition toolchain_components (cfg : config) (f : fs) : list string :=
  let brew := match BREW_PREFIX cfg with
              | Some prefix => [prefix +:+ "/bin"]
              | None => []
              end in
  let rust_paths := [Some (cargo_bin cfg);
                     (λ prefix, prefix +:+ "/bin") <$> BREW_PREFIX cfg] in
  let llvm_paths := [(λ prefix, prefix +:+ "/opt/llvm/bin") <$> BREW_PREFIX cfg;
                     Some "/opt/homebrew/opt/llvm/bin";
                     Some "/usr/local/opt/llvm/bin"] in
  (brew ++ ["/opt/homebrew/bin"; "/usr/local/bin"]
   ++ existing_dirs f rust_paths ++ existing_dirs f llvm_paths)%list.

(** [for key, value in flags.items(): if value: env[key] = value; log(...)]. *)
Fixpoint set_flags (env : ref) (flags : list (string * string)) : M unit :=
  match flags with
  | [] => mret tt
  | (key, value) :: rest =>
      (if truthy value
       then dict_set env key value;;
            log ("  " +:+ key +:+ ": " +:+ value +:+ "
")
       else mret tt);;
      set_flags env rest
  end.

Definition setup_build_environment (cfg : config) (use_aggressive_opts : bool) : M ref :=
  env ← dict_copy environ_ref;
  match BREW_PREFIX cfg with
  | Some _ => mret tt
  | None => log "⚠️  Warning: Homebrew prefix not detected, using defaults
"
  end;;
  w ← get_world;
  inherited ← dict_get_default env "PATH" "";
  let path_components := (toolchain_components cfg (w_fs w) ++ [inherited])%list in
  let unique_paths := unique_paths_of path_components in
  dict_set env "PATH" (Str.join ":" unique_paths);;
  let llvm_lib_paths := [(λ prefix, prefix +:+ "/opt/llvm") <$> BREW_PREFIX cfg;
                         Some "/opt/homebrew/opt/llvm";
                         Some "/usr/local/opt/llvm"] in
  match existing_dirs (w_fs w) llvm_lib_paths with
  | llvm_prefix :: _ =>
      dict_set env "LIBCLANG_PATH" (llvm_prefix +:+ "/lib");;
      dict_set env "DYLD_LIBRARY_PATH" (llvm_prefix +:+ "/lib")
  | [] => mret tt
  end;;
  set_flags env (get_optimization_flags cfg use_aggressive_opts);;
  mret env.

(** ** Paths and the file system *)

(** [os.path.basename(p)]: what follows the last slash. *)
Fixpoint basename (p : string) : string :=
  match p with
  | EmptyString => EmptyString
  | String c p' =>
      if Ascii.eqb c "/" then basename p'
      else if Str.contains "/" p' then basename p'
      else p
  end.

(** [os.path.join(a, b)]. *)
Definition path_join (a b : string) : string :=
  match b with
  | String "/" _ => b
  | _ => match a with
         | EmptyString => b
         | _ => if Str.endswith_char "/" a then a +:+ b else a +:+ "/" +:+ b
         end
  end.

(** The owner may read, the owner may write: bits [0o400] and [0o200]. *)
Definition owner_reads (mode : N) : bool := N.testbit mode 8.
Definition owner_writes (mode : N) : bool := N.testbit mode 7.

(** The directories above a path, the nearest to the root first: the
    prefixes of the path that end before a slash, the empty prefix aside.
    A path is taken as it is written. *)
Fixpoint parents_from (pre p : string) : list string :=
  match p with
  | EmptyString => []
  | String c p' =>
      if Ascii.eqb c "/" then
        match pre with
        | EmptyString => parents_from "/" p'
        | _ => pre :: parents_from (pre +:+ "/") p'
        end
      else parents_from (pre +:+ String c EmptyString) p'
  end.

Definition parents (p : string) : list string := parents_from "" p.

(** The directory a path is in, when the path names one. *)
Definition parent_dir (p : string) : option string := last (parents p).

(** The operating system refuses a change in a world. *)
Definition refusal (w : world) (op : fs_op) : option exn :=
  o_refuses (w_out w) (w_trace w) (w_fs w) op.
Arguments refusal : simpl never.

(** The loop of [os.makedirs] over the directories above the path and the
    path itself: a directory that is there is passed over, one that is
    missing is made, and a regular file on the way is an error, on the
    path itself [FileExistsError], above it [NotADirectoryError] for the
    directory that was to be made inside it. *)
Fixpoint make_dirs (ps : list string) : M unit :=
  match ps with
  | [] => mret tt
  | p :: rest =>
      w ← get_world;
      match w_fs w !! p with
      | Some Dir => make_dirs rest
      | Some (File _ _) =>
          raise (match rest with
                 | [] => FileExistsError p
                 | child :: _ => NotADirectoryError child
                 end)
      | None =>
          match refusal w (Mkdir p) with
          | Some e => raise e
          | None => set_fs (<[ p := Dir ]> (w_fs w));; make_dirs rest
          end
      end
  end.

(** [os.makedirs(d, exist_ok=True)]: the directory and every directory
    above it are there afterwards, or the call raises. *)
Definition makedirs (d : string) : M unit :=
  match d with
  | EmptyString => raise (FileNotFoundError d)
  | _ => make_dirs (parents d ++ [d])%list
  end.

(** The target [shutil.copy2] writes when asked to copy to [dst]: inside
    [dst] when that is a directory. *)
Definition copy_target (f : fs) (src dst : string) : string :=
  match f !! dst with
  | Some Dir => path_join dst (basename src)
  | _ => dst
  end.
Arguments copy_target : simpl never.

(** A file can be opened for writing at a path: the error when it cannot.
    A file that is there must be writable; a file that is not there needs
    the directory it is to be in. *)
Definition write_error (f : fs) (target : string) : option exn :=
  match f !! target with
  | Some Dir => Some (IsADirectoryError target)
  | Some (File _ tmode) =>
      if owner_writes tmode then None else Some (PermissionError target)
  | None =>
      match parent_dir target with
      | None => None
      | Some d =>
          match f !! d with
          | Some Dir => None
          | Some (File _ _) => Some (NotADirectoryError target)
          | None => Some (FileNotFoundError target)
          end
      end
  end.
Arguments write_error : simpl never.

(** [shutil.copy2(src, dst)]: into [dst] when it is a directory; the source
    must be a readable regular file other than the target, and the target
    must be a path a file can be written at; content and permission bits
    are copied. *)
Definition copy2 (src dst : string) : M unit :=
  w ← get_world;
  let target := copy_target (w_fs w) src dst in
  match w_fs w !! src with
  | None => raise (FileNotFoundError src)
  | Some Dir => raise (IsADirectoryError src)
  | Some (File content mode) =>
      if String.eqb src target then raise (SameFileError src)
      else if negb (owner_reads mode) then raise (PermissionError src)
      else match write_error (w_fs w) target with
           | Some e => raise e
           | None =>
               match refusal w (Write target) with
               | Some e => raise e
               | None => set_fs (<[ target := File content mode ]> (w_fs w))
               end
           end
  end.

(** [os.chmod(p, mode)]. *)
Definition chmod (p : string) (mode : N) : M unit :=
  w ← get_world;
  match w_fs w !! p with
  | None => raise (FileNotFoundError p)
  | Some node =>
      match refusal w (Chmod p) with
      | Some e => raise e
      | None =>
          match node with
          | Dir => mret tt
          | File content _ => set_fs (<[ p := File content mode ]> (w_fs w))
          end
      end
  end.

(** ** The artefact collector *)

Definition MODE_755 : N := 493.

Definition warning_none_copied : string := "❌ WARNING: No binaries were copied!
".

Definition not_found_message (binary : string) : string :=
  "⚠️  Binary not found (skipping): " +:+ binary +:+ "
".

(** Where a candidate is copied to. *)
Definition dest_of (dest_dir binary : string) : string :=
  path_join dest_dir (basename binary).

(** The body of the loop of [copy_binaries] for one candidate: the
    destination that is recorded, if one is. *)
Definition copy_one (dest_dir binary : string) : M (option string) :=
  present ← path_exists binary;
  if present : bool then
    try_except
      (let dest := dest_of dest_dir binary in
       copy2 binary dest;;
       chmod dest MODE_755;;
       log ("✓ Copied: " +:+ basename binary +:+ " → " +:+ dest +:+ "
");;
       mret (Some dest))
      (fun e =>
         log ("⚠️  Failed to copy " +:+ basename binary +:+ ": " +:+ exn_str e +:+ "
");;
         mret None)
  else
    (log (not_found_message binary);;
     mret None).

Fixpoint copy_loop (dest_dir : string) (binary_files : list string)
  (copied : list string) : M (list string) :=
  match binary_files with
  | [] => mret copied
  | binary :: rest =>
      r ← copy_one dest_dir binary;
      match r with
      | Some dest => copy_loop dest_dir rest (copied ++ [dest])%list
      | None => copy_loop dest_dir rest copied
      end
  end.

Definition copy_binaries (src_dir dest_dir : string) (binary_files : list string)
  : M (list string) :=
  makedirs dest_dir;;
  log ("Copying binaries to: " +:+ dest_dir +:+ "
");;
  copied ← copy_loop dest_dir binary_files [];
  match copied with
  | [] => log warning_none_copied
  | _ => mret tt
  end;;
  mret copied.

(** ** Child processes and dialogs *)

(** [subprocess.run(argv, cwd=cwd, env=env, stdout=PIPE, stderr=PIPE,
    text=True)]: the exit status and the output, its line ends read as the
    text layer reads them; a call that fails raises.  Without [env] the
    child gets [os.environ]. *)
Definition subprocess_run (argv : list string) (cwd : option string)
  (env : option ref) : M (Z * string) :=
  items ← dict_items (default environ_ref env);
  w ← get_world;
  emit (EvSpawn argv cwd items);;
  let '(answer, f) := o_spawn (w_out w) (w_trace w) (w_fs w) argv cwd items in
  set_fs f;;
  match answer with
  | LaunchError e => raise e
  | Exited returncode stdout => mret (returncode, Str.universal_newlines stdout)
  end.

Fixpoint log_lines (ls : list string) : M unit :=
  match ls with
  | [] => mret tt
  | line :: rest => log line;; log_lines rest
  end.

(** [run_command(cmd, cwd, env)]: the command goes through the shell, its
    output is read as text and logged line by line, and an exit status
    other than 0 raises [RuntimeError].  When the output cannot be decoded
    the loop over the lines raises: the lines read in full before that are
    logged, and the exit status is never looked at. *)
Definition run_command (cmd : string) (cwd : option string) (env : option ref)
  : M Z :=
  log ("
$ " +:+ cmd +:+ "
");;
  env ← match env with
        | Some r => mret r
        | None => dict_copy environ_ref
        end;
  items ← dict_items env;
  w ← get_world;
  let '(answer, f) := o_shell (w_out w) (w_trace w) (w_fs w) cmd cwd items in
  emit (EvShell cmd cwd items answer);;
  set_fs f;;
  match answer with
  | PopenError e => raise e
  | Undecodable read reason =>
      log_lines (Str.full_lines (Str.universal_newlines read));;
      raise (UnicodeDecodeError reason)
  | Completed returncode stdout =>
      log_lines (Str.lines (Str.universal_newlines stdout));;
      if (returncode =? 0)%Z then mret returncode
      else raise (RuntimeError ("Command failed: " +:+ cmd))
  end.

(** [messagebox.askyesno(title, message)]. *)
Definition askyesno (title : string) : M bool :=
  w ← get_world;
  let answer := o_askyesno (w_out w) (w_trace w) title in
  emit (EvAskYesNo title answer);;
  mret answer.

(** [messagebox.showerror(title, message)]. *)
Definition showerror (title message : string) : M unit :=
  emit (EvShowError title message).

(** ** The integrity verifier *)

Definition verify_git_commit (repo_dir expected_tag : string) : M bool :=
  try_except
    ('(returncode, stdout) ← subprocess_run ["git"; "rev-parse"; "HEAD"] (Some repo_dir) None;
     if negb (returncode =? 0)%Z then
       log "⚠️  Could not get commit hash
";;
       mret false
     else
       let current_commit := Str.strip stdout in
       '(returncode, stdout) ← subprocess_run ["git"; "rev-list"; "-n"; "1"; expected_tag]
                                 (Some repo_dir) None;
       if negb (returncode =? 0)%Z then
         log "⚠️  Could not get tag commit hash
";;
         mret false
       else
         let tag_commit := Str.strip stdout in
         if String.eqb current_commit tag_commit then
           log ("✓ Git repository verified at " +:+ expected_tag +:+ "
");;
           log ("  Commit: " +:+ Str.take 16 current_commit +:+ "...
");;
           mret true
         else
           log "⚠️  Repository commit mismatch!
";;
           log ("  Current: " +:+ Str.take 16 current_commit +:+ "...
");;
           log ("  Expected: " +:+ Str.take 16 tag_commit +:+ "...
");;
           mret false)
    (fun e =>
       log ("⚠️  Error verifying git commit: " +:+ exn_str e +:+ "
");;
       mret false).

Definition verification_title : string := "Source Verification Warning".

Definition verifying_message (project_name : string) : string :=
  "
🔐 Verifying " +:+ project_name +:+ " source integrity...
".

Definition verify_source_integrity (repo_dir project_name version : string) : M bool :=
  log (verifying_message project_name);;
  verified ← verify_git_commit repo_dir version;
  if verified : bool then
    log ("✓ " +:+ project_name +:+ " source integrity verified!
");;
    mret true
  else
    (log ("⚠️  " +:+ project_name +:+ " source verification failed
");;
     response ← askyesno verification_title;
     mret response).

(** ** The build pipelines *)

Definition BITCOIN_REPO : string := "https://github.com/bitcoin/bitcoin.git".
Definition ELECTRS_REPO : string := "https://github.com/romanz/electrs.git".

(** [ARCH.upper()]. *)
Definition arch_upper (cfg : config) : string :=
  match ARCH cfg with
  | apple_silicon => "APPLE_SILICON"
  | intel => "INTEL"
  | unknown => "UNKNOWN"
  end.

Definition rule : string := replicate_char 60 "=" +:+ "
".

(** The header both pipelines log first. *)
Definition banner (cfg : config) (title : string) (use_aggressive_opts : bool) : M unit :=
  log ("
" +:+ rule);;
  log (title +:+ "
");;
  log rule;;
  log ("Architecture: " +:+ arch_upper cfg +:+ "
");;
  log ("Optimization: " +:+
       (if use_aggressive_opts then "AGGRESSIVE (O3 + LTO)" else "STANDARD (O2)") +:+ "
");;
  log rule.

(** [key in d] and [d[key]] on an object of the store. *)
Definition dict_has (r : ref) (key : string) : M bool :=
  fun w => (Ok (bool_decide (is_Some (default ∅ (w_store w !! r) !! key))), w).

Definition dict_getitem (r : ref) (key : string) : M string :=
  fun w => match default ∅ (w_store w !! r) !! key with
           | Some v => (Ok v, w)
           | None => (Raise (KeyError key), w)
           end.

(** [if key in env: log(f"  {key}: {env[key]}\n")]. *)
Definition log_if_set (env : ref) (key : string) : M unit :=
  present ← dict_has env key;
  if present : bool then
    v ← dict_getitem env key;
    log ("  " +:+ key +:+ ": " +:+ v +:+ "
")
  else mret tt.

(** The checkout of a tag: a shallow clone when the source directory is
    not there, a shallow fetch of the tag and a checkout when it is. *)
Definition acquire_source (name repo version build_dir src_dir : string)
  (env : option ref) : M unit :=
  present ← path_exists src_dir;
  if present : bool then
    log ("✓ Source directory already exists: " +:+ src_dir +:+ "
");;
    log ("📥 Updating to " +:+ version +:+ "...
");;
    run_command ("git fetch --depth 1 origin tag " +:+ version) (Some src_dir) env;;
    run_command ("git checkout " +:+ version) (Some src_dir) env;;
    log ("✓ Updated to " +:+ version +:+ "
")
  else
    (log ("
📥 Cloning " +:+ name +:+ " repository...
");;
     run_command ("git clone --depth 1 --branch " +:+ version +:+ " " +:+ repo
                  +:+ " " +:+ src_dir) (Some build_dir) env;;
     log ("✓ Source cloned to " +:+ src_dir +:+ "
")).

Definition verification_failed : exn := RuntimeError "Source verification failed".

(** The gate both pipelines pass after the checkout:
<<
    if not verify_source_integrity(src_dir, project, version):
        log("User cancelled due to verification failure")
        raise RuntimeError("Source verification failed")
>> *)
Definition integrity_gate (src_dir project_name version : string) : M unit :=
  proceed ← verify_source_integrity src_dir project_name version;
  if proceed : bool then mret tt
  else
    (log "❌ User cancelled due to verification failure
";;
     raise verification_failed).

(** The handler of both pipelines: log the error and raise it again. *)
Definition reraise_logged {A} (what : string) (e : exn) : M A :=
  log ("
❌ Error compiling " +:+ what +:+ ": " +:+ exn_str e +:+ "
");;
  log ("
Full traceback:
" +:+ exn_str e +:+ "
");;
  raise e.

(** *** The indexer *)

Definition cargo_not_found : exn := RuntimeError "Cargo not found - cannot compile Electrs".

(** The environment of the indexer build: the composed environment with
    the Rust flags. *)
Definition electrs_environment (cfg : config) (use_aggressive_opts : bool) : M ref :=
  env ← setup_build_environment cfg use_aggressive_opts;
  set_flags env (get_rust_optimization_flags use_aggressive_opts);;
  mret env.

(** The check of the Rust toolchain, before anything is fetched or built. *)
Definition verifying_rust : string := "
🔍 Verifying Rust installation...
".

Definition cargo_found (stdout : string) : string :=
  "✓ Cargo found: " +:+ Str.strip stdout +:+ "
".

Definition check_rust_toolchain (env : ref) : M unit :=
  log verifying_rust;;
  '(returncode, stdout) ← subprocess_run ["cargo"; "--version"] None (Some env);
  (if negb (returncode =? 0)%Z then
     path ← dict_getitem env "PATH";
     let error_msg :=
       "❌ Cargo not found in PATH!

Electrs requires Rust/Cargo to compile.

Please:
1. Click 'Check & Install Dependencies' button
2. Ensure Rust is installed
3. Restart this application

Current PATH: " +:+ Str.take 200 path +:+ "...
" in
     log error_msg;;
     showerror "Rust Not Found" error_msg;;
     raise cargo_not_found
   else mret tt);;
  log (cargo_found stdout);;
  '(returncode, stdout) ← subprocess_run ["rustc"; "--version"] None (Some env);
  if (returncode =? 0)%Z then
    log ("✓ Rustc found: " +:+ Str.strip stdout +:+ "
")
  else
    log "⚠️  Warning: rustc check failed, but cargo found. Proceeding...
".

Definition cargo_build_command (cores : N) : string :=
  "cargo build --release --jobs " +:+ Str.str_of_int cores.

(** What follows the gate: the release build and the collection. *)
Definition electrs_build (version build_dir src_dir version_clean : string)
  (cores : N) (env : ref) : M string :=
  log ("
🔧 Building with Cargo (" +:+ Str.str_of_int cores +:+ " jobs)...
");;
  log "Environment details:
";;
  path ← dict_getitem env "PATH";
  log ("  PATH: " +:+ Str.take 150 path +:+ "...
");;
  log_if_set env "LIBCLANG_PATH";;
  log_if_set env "RUSTFLAGS";;
  run_command (cargo_build_command cores) (Some src_dir) (Some env);;
  log "
📋 Collecting binaries...
";;
  let binary := path_join (path_join (path_join src_dir "target") "release") "electrs" in
  present ← path_exists binary;
  (if present : bool then mret tt
   else raise (RuntimeError ("Electrs binary not found at expected location: " +:+ binary)));;
  let output_dir := path_join (path_join build_dir "binaries") ("electrs-" +:+ version_clean) in
  copied ← copy_binaries src_dir output_dir [binary];
  log ("
" +:+ rule);;
  log ("✅ ELECTRS " +:+ version +:+ " COMPILED SUCCESSFULLY!
");;
  log rule;;
  log ("
📍 Binary location: " +:+ output_dir +:+ "/electrs

");;
  mret output_dir.

(** The source directory of a target: [<build_dir>/<target>-<version>],
    the version without its leading [v]. *)
Definition source_dir (build_dir target version : string) : string :=
  path_join build_dir (target +:+ "-" +:+ Str.lstrip "v" version).

(** The first stage of the indexer pipeline: the header and the
    environment. *)
Definition electrs_prepare (cfg : config) (version : string)
  (use_aggressive_opts : bool) : M ref :=
  banner cfg ("COMPILING ELECTRS " +:+ version) use_aggressive_opts;;
  electrs_environment cfg use_aggressive_opts.

(** The checkout stage of the indexer pipeline. *)
Definition electrs_checkout (version build_dir : string) (env : ref) : M unit :=
  makedirs build_dir;;
  acquire_source "Electrs" ELECTRS_REPO version build_dir
    (source_dir build_dir "electrs" version) (Some env).

Definition compile_electrs_source (cfg : config) (version build_dir : string)
  (cores : N) (use_aggressive_opts : bool) : M string :=
  try_except
    (env ← electrs_prepare cfg version use_aggressive_opts;
     check_rust_toolchain env;;
     electrs_checkout version build_dir env;;
     integrity_gate (source_dir build_dir "electrs" version) "Electrs" version;;
     electrs_build version build_dir (source_dir build_dir "electrs" version)
       (Str.lstrip "v" version) cores env)
    (reraise_logged "Electrs").

(** *** The node daemon *)

(** [for binary in binaries: log(f"  {mark} {binary}\n")], with the mark of
    a file that exists or of one that does not. *)
Fixpoint log_existence (binaries : list string) : M unit :=
  match binaries with
  | [] => mret tt
  | binary :: rest =>
      present ← path_exists binary;
      log ("  " +:+ (if present : bool then "✓" else "❌") +:+ " " +:+ binary +:+ "
");;
      log_existence rest
  end.

(** The CMake variant: configure out of tree with wallet and IPC off, then
    build; the binaries are expected in [build/bin]. *)
Definition build_with_cmake (version src_dir : string) (cores : N) (env : ref)
  : M (list string) :=
  log ("
🔨 Building with CMake (Bitcoin Core " +:+ version +:+ ")...
");;
  let cmake_cmd := "cmake -B build -DENABLE_WALLET=OFF -DENABLE_IPC=OFF" in
  log "
⚙️  Configuring (wallet support disabled for node-only build)...
";;
  run_command cmake_cmd (Some src_dir) (Some env);;
  log ("
🔧 Compiling with " +:+ Str.str_of_int cores +:+ " cores...
");;
  run_command ("cmake --build build -j" +:+ Str.str_of_int cores) (Some src_dir) (Some env);;
  let build_subdir := path_join src_dir "build" in
  let binary_dir := path_join build_subdir "bin" in
  mret [path_join binary_dir "bitcoind";
        path_join binary_dir "bitcoin-cli";
        path_join binary_dir "bitcoin-tx";
        path_join binary_dir "bitcoin-wallet";
        path_join binary_dir "bitcoin-util"].

(** The Autotools variant: [autogen.sh], [configure] with wallet and GUI
    off, then [make]; the binaries are expected in [bin]. *)
Definition build_with_autotools (version src_dir : string) (cores : N) (env : ref)
  : M (list string) :=
  log ("
🔨 Building with Autotools (Bitcoin Core " +:+ version +:+ ")...
");;
  let config_opts := ["--disable-wallet"; "--disable-gui"] in
  let config_cmd := "./configure " +:+ Str.join " " config_opts in
  log "
⚙️  Running autogen.sh...
";;
  run_command "./autogen.sh" (Some src_dir) (Some env);;
  log "
⚙️  Configuring (wallet support disabled for node-only build)...
";;
  run_command config_cmd (Some src_dir) (Some env);;
  log ("
🔧 Compiling with " +:+ Str.str_of_int cores +:+ " cores...
");;
  run_command ("make -j" +:+ Str.str_of_int cores) (Some src_dir) (Some env);;
  let binary_dir := path_join src_dir "bin" in
  mret [path_join binary_dir "bitcoind";
        path_join binary_dir "bitcoin-cli";
        path_join binary_dir "bitcoin-tx";
        path_join binary_dir "bitcoin-wallet"].

(** What follows the gate: the environment, the build by the selected
    build system and the collection. *)
Definition bitcoin_build (cfg : config) (version build_dir src_dir version_clean : string)
  (cores : N) (use_aggressive_opts : bool) : M string :=
  env ← setup_build_environment cfg use_aggressive_opts;
  log "
Environment setup:
";;
  path ← dict_getitem env "PATH";
  log ("  PATH: " +:+ Str.take 150 path +:+ "...
");;
  log_if_set env "CFLAGS";;
  log_if_set env "CXXFLAGS";;
  ldflags ← dict_get_default env "LDFLAGS" "";
  (if truthy ldflags then log ("  LDFLAGS: " +:+ ldflags +:+ "
") else mret tt);;
  log "  Building node-only (wallet support disabled)
";;
  binaries ← (if use_cmake version
              then build_with_cmake version src_dir cores env
              else build_with_autotools version src_dir cores env);
  log "
📋 Collecting binaries...
";;
  let output_dir := path_join (path_join build_dir "binaries") ("bitcoin-" +:+ version_clean) in
  copied ← copy_binaries src_dir output_dir binaries;
  match copied with
  | [] =>
      log "⚠️  Warning: No binaries were copied. Checking what exists...
";;
      log_existence binaries
  | _ => mret tt
  end;;
  log ("
" +:+ rule);;
  log ("✅ BITCOIN CORE " +:+ version +:+ " COMPILED SUCCESSFULLY!
");;
  log rule;;
  log ("
📍 Binaries location: " +:+ output_dir +:+ "
");;
  log ("   Found " +:+ Str.str_of_int (N.of_nat (length copied)) +:+ " binaries

");;
  mret output_dir.

(** The first stage of the node-daemon pipeline: the header and the
    checkout, in the process environment. *)
Definition bitcoin_checkout (cfg : config) (version build_dir : string)
  (use_aggressive_opts : bool) : M unit :=
  banner cfg ("COMPILING BITCOIN CORE " +:+ version) use_aggressive_opts;;
  makedirs build_dir;;
  acquire_source "Bitcoin Core" BITCOIN_REPO version build_dir
    (source_dir build_dir "bitcoin" version) None.

Definition compile_bitcoin_source (cfg : config) (version build_dir : string)
  (cores : N) (use_aggressive_opts : bool) : M string :=
  try_except
    (bitcoin_checkout cfg version build_dir use_aggressive_opts;;
     integrity_gate (source_dir build_dir "bitcoin" version) "Bitcoin Core" version;;
     bitcoin_build cfg version build_dir (source_dir build_dir "bitcoin" version)
       (Str.lstrip "v" version) cores use_aggressive_opts)
    (reraise_logged "Bitcoin").

(** ** Auxiliary notions used to state the properties *)

(** What follows the digits a greedy [\d+] leaves: nothing, or a character
    that is not a digit. *)
Definition no_leading_digit (s : string) : bool :=
  match s with
  | EmptyString => true
  | String c _ => negb (Str.is_digit c)
  end.


(** A version string as releases are tagged: any number of leading [v],
    the major and minor numbers in decimal with a dot between them, and
    whatever follows. *)
Definition version_string (vs : nat) (major minor : N) (rest : string) : string :=
  replicate_char vs "v" +:+ Str.str_of_int major +:+ "." +:+ Str.str_of_int minor +:+ rest.

(** A string begins with two dot-separated integer components. *)
Definition two_components (s : string) : Prop :=
  ∃ g1 g2 rest,
    g1 ≠ "" ∧ g2 ≠ "" ∧ Str.all_digits g1 = true ∧ Str.all_digits g2 = true ∧
    s = g1 +:+ "." +:+ g2 +:+ rest.

(** The key a tag is filed under by the grouping loop. *)
Definition tag_key (tag : string) : string :=
  let '(major, minor) := parse_version tag in group_key major minor.

(** A tag carries the release-candidate marker: somewhere in it an [r] is
    followed by a [c], each in either case. *)
Definition has_rc_marker (tag : string) : Prop :=
  ∃ pre a b post,
    tag = pre +:+ String a (String b post) ∧
    (a = "r"%char ∨ a = "R"%char) ∧ (b = "c"%char ∨ b = "C"%char).

(** The release listing as the upstream service sends it: an array of
    objects with a [tag_name] field. *)
Definition release_list (tags : list string) : json :=
  JArr (map (fun t => JObj [("tag_name", JStr t)]) tags).

(** Every tag filed in the dictionary satisfies [P]. *)
Definition dict_all (P : string → Prop) (d : groups) : Prop :=
  Forall (λ kv, Forall P kv.2) d.

(** A catalogue fetch fails: the request raises, the status is an error
    status, the body is not JSON, or the decoded body is not a listing the
    loop can read. *)
Definition catalog_failure (decode : json → result (list string))
  (r : http_result) : Prop :=
  match r with
  | HttpRaises _ => True
  | HttpResponse status body =>
      (400 ≤ status ∧ status < 600) ∨
      match body with
      | None => True
      | Some j => ∃ e, decode j = Raise e
      end
  end.

(** The ordering key of the design document, [(major, minor, patch)]: the
    leading integers of the first three dot-separated components, a missing
    component counting as 0. *)
Definition spec_version_key (tag : string) : N * N * N :=
  let component p := Str.int_of_digits (Str.span_digits p).1 in
  match map component (Str.split "." (Str.lstrip "v" tag)) with
  | major :: minor :: patch :: _ => (major, minor, patch)
  | [major; minor] => (major, minor, 0)
  | [major] => (major, 0, 0)
  | [] => (0, 0, 0)
  end.

(** The lexicographic order on the keys of the design document. *)
Definition spec_key_lt (a b : N * N * N) : Prop :=
  let '(a1, a2, a3) := a in
  let '(b1, b2, b3) := b in
  a1 < b1 ∨ (a1 = b1 ∧ (a2 < b2 ∨ (a2 = b2 ∧ a3 < b3))).

(** ** Concrete worlds, to run the model on *)

(** The same answer, given to a shell command. *)
Definition shell_of_proc (proc : proc_result) : shell_result :=
  match proc with
  | LaunchError e => PopenError e
  | Exited returncode stdout => Completed returncode stdout
  end.

(** An outside that answers every request the same way, and refuses no
    change of the file system. *)
Definition fixed_outside (http : http_result) (proc : proc_result) (answer : bool) : outside :=
  {| o_http := λ _ _, http;
     o_spawn := λ _ f _ _ _, (proc, f);
     o_shell := λ _ f _ _ _, (shell_of_proc proc, f);
     o_askyesno := λ _ _, answer;
     o_refuses := λ _ _ _, None |}.

(** The world at start-up: a file system, the process environment, the log
    widget in place, nothing done yet. *)
Definition initial_world (f : fs) (environ : environment) (out : outside) : world :=
  {| w_fs := f; w_store := {[ environ_ref := environ ]}; w_gui := true;
     w_trace := []; w_out := out |}.

Definition world_with_http (http : http_result) : world :=
  initial_world ∅ ∅ (fixed_outside http (Exited 0 "") false).

(** The items of the object a reference points to. *)
Definition content_of (w : world) (r : ref) : environment :=
  default ∅ (w_store w !! r).

(** From [w] to [w'] nothing was written but keys of [keys] in the object
    [env]: the file system, the outside and every other object are as they
    were. *)
Definition writes_only (env : ref) (keys : gset string) (w w' : world) : Prop :=
  w_fs w' = w_fs w ∧ w_out w' = w_out w ∧
  (∀ r, r ≠ env → w_store w' !! r = w_store w !! r) ∧
  is_Some (w_store w' !! env) ∧
  (∀ k, k ∉ keys → content_of w' env !! k = content_of w env !! k).

(** A computation returns, and writes only keys of [keys] in [env]. *)
Definition runs_within {A} (env : ref) (keys : gset string) (m : M A) : Prop :=
  ∀ w, is_Some (w_store w !! env) →
       ∃ a w', m w = (Ok a, w') ∧ writes_only env keys w w'.

(** The variables the composer sets in the environment it returns. *)
Definition composed_keys : gset string :=
  {[ "PATH"; "LIBCLANG_PATH"; "DYLD_LIBRARY_PATH"; "CFLAGS"; "CXXFLAGS"; "LDFLAGS" ]}.

(** The search path the composer builds from the start-up constants, the
    file system and the inherited [PATH]. *)
Definition composed_path (cfg : config) (f : fs) (inherited : string) : string :=
  Str.join ":" (unique_paths_of (toolchain_components cfg f ++ [inherited])%list).

(** A machine without Homebrew and without a Rust or LLVM directory, whose
    process environment holds the [PATH] the module assigns when it is
    loaded. *)
Definition bare_config : config :=
  {| ARCH := apple_silicon; BREW_PREFIX := None; HOME := "/Users/dev" |}.

Definition bare_world : world :=
  initial_world ∅ {[ "PATH" := module_path bare_config; "TERM" := "xterm" ]}
    (fixed_outside (HttpRaises (RequestException "timed out")) (Exited 0 "") false).

(** From [w] to [w'] only the file system and the trace may differ. *)
Definition same_session (w w' : world) : Prop :=
  w_store w' = w_store w ∧ w_gui w' = w_gui w ∧ w_out w' = w_out w.





(** The shell commands of a trace, in order. *)
Definition shell_commands (t : list event) : list string :=
  omap (λ e, match e with EvShell cmd _ _ _ => Some cmd | _ => None end) t.

(** The shell commands of a trace with what came back, in order. *)
Definition shell_runs (t : list event) : list (string * shell_result) :=
  omap (λ e, match e with
             | EvShell cmd _ _ answer => Some (cmd, answer)
             | _ => None
             end) t.

(** A computation runs no shell command, whatever it returns. *)
Definition quiet {A} (m : M A) : Prop :=
  ∀ w r w', m w = (r, w') → shell_runs (w_trace w') = shell_runs (w_trace w).

(** The answer of the outside to [subprocess.run] in a world, and the
    world after the call. *)
Definition spawn_answer (w : world) (argv : list string) (cwd : option string)
  (env : option ref) : proc_result :=
  (o_spawn (w_out w) (w_trace w) (w_fs w) argv cwd
     (content_of w (default environ_ref env))).1.

Definition after_spawn (w : world) (argv : list string) (cwd : option string)
  (env : option ref) : world :=
  {| w_fs := (o_spawn (w_out w) (w_trace w) (w_fs w) argv cwd
                (content_of w (default environ_ref env))).2;
     w_store := w_store w; w_gui := w_gui w;
     w_trace := (w_trace w ++
                 [EvSpawn argv cwd (content_of w (default environ_ref env))])%list;
     w_out := w_out w |}.

(** The world after a message is logged. *)
Definition after_log (w : world) (msg : string) : world := (log msg w).2.

(** The commit the verifier reads in what a call of [git] printed: the
    text, its line ends read as the text layer reads them, without the
    white space around it. *)
Definition commit_of (stdout : string) : string :=
  Str.strip (Str.universal_newlines stdout).

(** The two commits agree: both calls of [git] exit with status 0 and
    print the same commit, white space aside. *)
Definition commits_agree (head tag : proc_result) : bool :=
  match head, tag with
  | Exited 0 out1, Exited 0 out2 => String.eqb (commit_of out1) (commit_of out2)
  | _, _ => false
  end.

(** The answers [verify_git_commit] gets from [git] in a world. *)
Definition head_answer (w : world) (repo_dir : string) : proc_result :=
  spawn_answer w ["git"; "rev-parse"; "HEAD"] (Some repo_dir) None.

Definition tag_answer (w : world) (repo_dir expected_tag : string) : proc_result :=
  spawn_answer (after_spawn w ["git"; "rev-parse"; "HEAD"] (Some repo_dir) None)
    ["git"; "rev-list"; "-n"; "1"; expected_tag] (Some repo_dir) None.

(** The checkout is verified in a world. *)
Definition verified (w : world) (repo_dir expected_tag : string) : bool :=
  commits_agree (head_answer w repo_dir) (tag_answer w repo_dir expected_tag).

(** The answer to [cargo --version] when the toolchain is checked in a
    world, and the world after it. *)
Definition cargo_probe (w : world) (env : ref) : proc_result :=
  spawn_answer (after_log w verifying_rust) ["cargo"; "--version"] None (Some env).

Definition after_cargo_probe (w : world) (env : ref) : world :=
  after_spawn (after_log w verifying_rust) ["cargo"; "--version"] None (Some env).

(** The answer to [rustc --version], asked once cargo has answered with
    [stdout] and status 0, and the world after it. *)
Definition rustc_probe (w : world) (env : ref) (stdout : string) : proc_result :=
  spawn_answer (after_log (after_cargo_probe w env)
                  (cargo_found (Str.universal_newlines stdout)))
    ["rustc"; "--version"] None (Some env).

Definition after_rustc_probe (w : world) (env : ref) (stdout : string) : world :=
  after_spawn (after_log (after_cargo_probe w env)
                 (cargo_found (Str.universal_newlines stdout)))
    ["rustc"; "--version"] None (Some env).

(** A version probe succeeds: the program is launched and exits with
    status 0. *)
Definition probe_ok (r : proc_result) : bool :=
  match r with
  | Exited 0 _ => true
  | _ => false
  end.

(** An outside that answers each program by its name: the two version
    probes, the two calls of [git], every shell command with status 0, a
    release build that leaves the indexer binary in its working
    directory, and one answer to every dialog; it refuses no change of the
    file system. *)
Definition scripted_outside (cargo rustc head tag : proc_result) (answer : bool)
  : outside :=
  {| o_http := λ _ _, HttpRaises (RequestException "offline");
     o_spawn := λ _ f argv _ _,
       (if bool_decide (argv = ["cargo"; "--version"]) then cargo
        else if bool_decide (argv = ["rustc"; "--version"]) then rustc
        else if bool_decide (argv = ["git"; "rev-parse"; "HEAD"]) then head
        else tag, f);
     o_shell := λ _ f cmd cwd _,
       (Completed 0 "",
        if Str.startswith "cargo build" cmd
        then <[ path_join (path_join (path_join (default "" cwd) "target") "release")
                  "electrs" := File "ELF" 493 ]> f
        else f);
     o_askyesno := λ _ _, answer;
     o_refuses := λ _ _ _, None |}.

(** A machine on which [cargo] works and [rustc --version] fails, with a
    checkout that verifies. *)
Definition broken_rustc_world : world :=
  initial_world ∅ {[ "PATH" := module_path bare_config ]}
    (scripted_outside (Exited 0 "cargo 1.75.0
") (Exited 1 "") (Exited 0 "4f2a9c
") (Exited 0 "4f2a9c
") false).

(** A machine on which the checkout does not verify (the tag resolves to
    another commit) and the user declines the override. *)
Definition tampered_world : world :=
  initial_world ∅ {[ "PATH" := module_path bare_config ]}
    (scripted_outside (Exited 0 "cargo 1.75.0
") (Exited 0 "rustc 1.75.0
") (Exited 0 "4f2a9c
") (Exited 0 "9b01de
") false).

(** A machine without a Rust toolchain: neither [cargo] nor [rustc] can be
    launched. *)
Definition no_rust_world : world :=
  initial_world ∅ {[ "PATH" := module_path bare_config ]}
    (scripted_outside (LaunchError (FileNotFoundError "cargo"))
       (LaunchError (FileNotFoundError "rustc")) (Exited 0 "4f2a9c
") (Exited 0 "4f2a9c
") false).

(** *** The collector, round by round *)









(** *** Dialogs *)

(** The questions of a trace, with the answers given. *)
Definition asked (t : list event) : list (string * bool) :=
  omap (λ e, match e with
             | EvAskYesNo title answer => Some (title, answer)
             | _ => None
             end) t.

(** A computation asks nothing: it only adds to the trace, no question is
    among what it adds, and the outside is the same after it. *)
Definition asks_nothing {A} (m : M A) : Prop :=
  ∀ w r w', m w = (r, w') →
            w_out w' = w_out w ∧
            ∃ added, w_trace w' = (w_trace w ++ added)%list ∧ asked added = [].

(** ** Tactics *)

(** Splits the five clauses of [writes_only]. *)
Ltac wo_split := split; [|split; [|split; [|split]]].

(** Unfolds the monad down to functions on worlds. *)
Ltac run := unfold mbind, M_bind, mret, M_ret, get_world, set_fs, raise,
              path_exists, try_except in *; simpl in *.

(** ** Further notions, for the properties beyond the design document *)

From stdpp Require Import sorting.

Local Open Scope string_scope.
Local Open Scope N_scope.

(** The test of the two catalogue loops: the tag is a release candidate. *)
Definition is_rc (tag : string) : bool := Str.contains "rc" (Str.lower tag).

(** The tags of a listing that are not release candidates, in order. *)
Definition stable_tags (tags : list string) : list string :=
  filter (λ t, is_rc t = false) tags.

(** The upstream service answers the request for [url] in a world with a
    body that decodes to [j] and a status that is not an error status. *)
Definition answers (w : world) (url : string) (j : json) : Prop :=
  ∃ status,
    o_http (w_out w) (w_trace w) url = HttpResponse status (Some j) ∧
    (400 <=? status) && (status <? 600) = false.

(** A record of a listing carries a tag: it is an object whose field
    [tag_name], the last of that name if several are written, holds the
    tag as a string; what else the record holds does not matter. *)
Definition carries_tag (rel : json) (t : string) : Prop :=
  ∃ before after,
    rel = JObj (before ++ ("tag_name", JStr t) :: after)%list ∧
    "tag_name" ∉ map fst after.

(** The records of a listing carry these tags, in order. *)
Definition carries (rels : list json) (tags : list string) : Prop :=
  Forall2 carries_tag rels tags.

(** The service answers with a listing of records that carry these tags. *)
Definition serves (w : world) (url : string) (tags : list string) : Prop :=
  ∃ rels, answers w url (JArr rels) ∧ carries rels tags.

(** A record with some of the fields the service sends along with the
    tag. *)
Definition release_record (id : Z) (t : string) : json :=
  JObj [("url", JStr ("https://api.github.com/repos/releases/" +:+ t));
        ("id", JNum id);
        ("tag_name", JStr t);
        ("name", JStr ("Release " +:+ t));
        ("draft", JBool false);
        ("prerelease", JBool (is_rc t));
        ("assets", JArr [])].

(** A listing of such records. *)
Definition release_records (tags : list string) : list json :=
  map (release_record 1) tags.

(** The order of the keys [(major, minor)]. *)
Definition key_lt (a b : N * N) : Prop :=
  a.1 < b.1 ∨ (a.1 = b.1 ∧ a.2 < b.2).

(** The first element of a list that satisfies a test. *)
Fixpoint find_first {A} (f : A → bool) (l : list A) : option A :=
  match l with
  | [] => None
  | x :: l' => if f x then Some x else find_first f l'
  end.

(** Two tags are in the same group. *)
Definition same_group (t t' : string) : bool :=
  bool_decide (parse_version t = parse_version t').

(** The tags of a list that are filed under a key, in order. *)
Definition group_of (key : string) (all : list string) : list string :=
  filter (λ t, tag_key t = key) all.

(** The tuple the outer sort compares a key by, [[]] when the key has a
    piece that is not a number. *)
Definition key_pair (key : string) : list N :=
  match key_tuple key with
  | Ok t => t
  | Raise _ => []
  end.

(** The tags the collecting loop of the node-daemon catalogue hands to the
    grouping: the first 20 of the listing that are not release
    candidates. *)
Definition collected (tags : list string) : list string :=
  take 20 (stable_tags tags).

(** The tag [t] is the first of [all] with its major and minor number. *)
Definition first_of_series (all : list string) (t : string) : Prop :=
  find_first (same_group t) all = Some t.

(** The release series of [t'] is newer than that of [t]. *)
Definition newer_series (t' t : string) : Prop :=
  key_lt (parse_version t) (parse_version t').

(** The order the descending sort leaves its elements in. *)
Definition desc {A} (x y : list N * A) : Prop := tuple_leb y.1 x.1 = true.

(** The keys of the groups of the collected tags, as the outer sort leaves
    them. *)
Definition sorted_keys (all : list string) : list string :=
  sorted_desc (map (λ k, (key_pair k, k)) (map fst (group_tags all))).

(** The first of the collected tags that is filed under a key. *)
Definition first_filed (all : list string) (key : string) : string :=
  default "" (head (group_of key all)).

(** The order of two keys in the sorted list: the first is not below the
    second, and they differ. *)
Definition key_above (k k' : string) : Prop :=
  tuple_leb (key_pair k') (key_pair k) = true ∧ k ≠ k'.

(** *** Shell commands *)

(** The line [run_command] logs before it runs a command. *)
Definition command_line (cmd : string) : string :=
  "
$ " +:+ cmd +:+ "
".

(** The answer of the outside to the shell command of [run_command] in a
    world, and the file system it leaves: the command line is logged
    first, and without [env] the child gets the items of [os.environ]. *)
Definition shell_answer (w : world) (cmd : string) (cwd : option string)
  (env : option ref) : shell_result * fs :=
  o_shell (w_out w) (w_trace (after_log w (command_line cmd))) (w_fs w) cmd cwd
    (content_of w (default environ_ref env)).

(** What [run_command] makes of an answer. *)
Definition shell_outcome (cmd : string) (answer : shell_result) : result Z :=
  match answer with
  | PopenError e => Raise e
  | Undecodable _ reason => Raise (UnicodeDecodeError reason)
  | Completed 0 _ => Ok 0%Z
  | Completed _ _ => Raise (RuntimeError ("Command failed: " +:+ cmd))
  end.

(** The text [run_command] reads from a command: the output with a
    carriage return and line feed, and a carriage return alone, read as a
    line feed; of an output that cannot be decoded, what was read before
    the text layer gave up. *)
Definition shell_text (answer : shell_result) : string :=
  match answer with
  | PopenError _ => ""
  | Completed _ stdout => Str.universal_newlines stdout
  | Undecodable read _ => Str.universal_newlines read
  end.

(** The lines [run_command] logs for an answer: those of the text, and of
    a text that ends in an error only the ones that are complete. *)
Definition shell_lines (answer : shell_result) : list string :=
  match answer with
  | PopenError _ => []
  | Completed _ _ => Str.lines (shell_text answer)
  | Undecodable _ _ => Str.full_lines (shell_text answer)
  end.


(** A command was run to its end with exit status 0. *)
Definition succeeded (answer : shell_result) : bool :=
  match answer with
  | Completed 0 _ => true
  | _ => false
  end.


(** The way a run of a script ends.  The commands that were run, with what
    came back, are the first commands of the script, in order; a command
    that did not succeed is the last that was run, and what [run_command]
    raises for it is what the computation raises; and a computation that
    returns has run the whole script. *)
Definition script_run {A} (script : list string)
  (runs : list (string * shell_result)) (r : result A) : Prop :=
  map fst runs `prefix_of` script ∧
  (∀ a, r = Ok a → map fst runs = script) ∧
  (∀ i cmd answer,
     runs !! i = Some (cmd, answer) → succeeded answer = false →
     length runs = S i ∧
     ∃ e, shell_outcome cmd answer = Raise e ∧ r = Raise e).

(** In a world [w] a computation runs the commands of a script in order
    and stops at the first that fails. *)
Definition follows_at {A} (w : world) (script : list string) (m : M A) : Prop :=
  ∃ runs, shell_runs (w_trace (m w).2) = (shell_runs (w_trace w) ++ runs)%list ∧
          script_run script runs (m w).1.

Definition follows {A} (script : list string) (m : M A) : Prop :=
  ∀ w, follows_at w script m.

(** [os.path.exists(p)] on a file system. *)
Definition exists_in (f : fs) (p : string) : bool :=
  match f !! p with Some _ => true | None => false end.

(** The commands of the checkout of a tag: a fetch and a checkout in a
    source directory that is there, a clone otherwise. *)
Definition checkout_script (repo version src_dir : string) (present : bool)
  : list string :=
  if present
  then ["git fetch --depth 1 origin tag " +:+ version;
        "git checkout " +:+ version]
  else ["git clone --depth 1 --branch " +:+ version +:+ " " +:+ repo
        +:+ " " +:+ src_dir].

(** The commands of the build of the node daemon, by the build system of
    the version. *)
Definition cmake_script (cores : N) : list string :=
  ["cmake -B build -DENABLE_WALLET=OFF -DENABLE_IPC=OFF";
   "cmake --build build -j" +:+ Str.str_of_int cores].

Definition autotools_script (cores : N) : list string :=
  ["./autogen.sh";
   "./configure --disable-wallet --disable-gui";
   "make -j" +:+ Str.str_of_int cores].

Definition bitcoin_build_script (version : string) (cores : N) : list string :=
  match select_build_system version with
  | CMake => cmake_script cores
  | Autotools => autotools_script cores
  end.

(** The script of each pipeline, by whether its source directory is there
    when the checkout starts. *)
Definition bitcoin_script (version build_dir : string) (cores : N)
  (present : bool) : list string :=
  (checkout_script BITCOIN_REPO version (source_dir build_dir "bitcoin" version)
     present
   ++ bitcoin_build_script version cores)%list.

Definition electrs_script (version build_dir : string) (cores : N)
  (present : bool) : list string :=
  (checkout_script ELECTRS_REPO version (source_dir build_dir "electrs" version)
     present
   ++ [cargo_build_command cores])%list.

(** *** The composed environment *)

(** The LLVM directories the composer looks for, in order. *)
Definition llvm_candidates (cfg : config) : list (option string) :=
  [(λ prefix, prefix +:+ "/opt/llvm") <$> BREW_PREFIX cfg;
   Some "/opt/homebrew/opt/llvm";
   Some "/usr/local/opt/llvm"].

(** The LLVM prefix the composer takes: the first candidate that is a
    directory. *)
Definition llvm_prefix (cfg : config) (f : fs) : option string :=
  head (existing_dirs f (llvm_candidates cfg)).

(** The items once the two library variables are written. *)
Definition with_llvm (prefix : option string) (e : environment) : environment :=
  match prefix with
  | Some p => <[ "DYLD_LIBRARY_PATH" := p +:+ "/lib" ]>
                (<[ "LIBCLANG_PATH" := p +:+ "/lib" ]> e)
  | None => e
  end.

(** The items once a list of flags is written: a flag without a value is
    passed over. *)
Definition with_flags (flags : list (string * string)) (e : environment)
  : environment :=
  fold_left (λ e kv, if truthy kv.2 then <[ kv.1 := kv.2 ]> e else e) flags e.

(** A computation returns, and takes the items of the object [env] from
    [e] to [f e]. *)
Definition updates {A} (env : ref) (f : environment → environment) (m : M A)
  : Prop :=
  ∀ w, is_Some (w_store w !! env) →
       ∃ a w', m w = (Ok a, w') ∧ is_Some (w_store w' !! env) ∧
               content_of w' env = f (content_of w env).

(** The directory that comes first in the composed search path. *)
Definition first_path (cfg : config) : string :=
  match BREW_PREFIX cfg with
  | Some prefix => prefix +:+ "/bin"
  | None => "/opt/homebrew/bin"
  end.

(** The architecture is one the flags are tuned for. *)
Definition tuned (cfg : config) : bool :=
  match ARCH cfg with
  | unknown => false
  | _ => true
  end.

(** *** The detection of Homebrew *)

(** [os.path.isfile(p)]. *)
Definition isfile (f : fs) (p : string) : bool :=
  match f !! p with
  | Some (File _ _) => true
  | _ => false
  end.

(** [for path in paths: if os.path.isfile(path): return path], and [None]
    when the loop ends. *)
Fixpoint first_file (f : fs) (paths : list string) : option string :=
  match paths with
  | [] => None
  | path :: rest => if isfile f path then Some path else first_file f rest
  end.

Definition find_brew (f : fs) : option string :=
  first_file f ["/opt/homebrew/bin/brew"; "/usr/local/bin/brew"].

(** The assignment the module makes to [BREW_PREFIX] when it is loaded. *)
Definition brew_prefix (f : fs) : option string :=
  match find_brew f with
  | Some brew =>
      if truthy brew
      then if Str.contains "/opt/homebrew" brew then Some "/opt/homebrew"
           else Some "/usr/local"
      else None
  | None => None
  end.

(** A machine with Homebrew under [/opt/homebrew], its LLVM and a Rust
    toolchain in the home directory, and a short inherited [PATH]. *)
Definition brewed_config : config :=
  {| ARCH := apple_silicon; BREW_PREFIX := Some "/opt/homebrew"; HOME := "/Users/dev" |}.

Definition brewed_world : world :=
  initial_world
    {[ "/opt/homebrew/bin" := Dir;
       "/opt/homebrew/bin/brew" := File "#!/usr/bin/env ruby" 493;
       "/opt/homebrew/opt/llvm" := Dir;
       "/opt/homebrew/opt/llvm/bin" := Dir;
       "/Users/dev/.cargo/bin" := Dir ]}
    {[ "PATH" := "/usr/bin:/bin"; "LDFLAGS" := "-L/opt/lib" ]}
    (fixed_outside (HttpRaises (RequestException "timed out")) (Exited 0 "") false).

(** * Properties *)

(** ** Strings and decimal numerals *)

Section StrFacts.

Lemma append_nil_l (s : string) : "" +:+ s = s.
Proof. reflexivity. Qed.

Lemma append_cons (c : ascii) (s t : string) :
  String c s +:+ t = String c (s +:+ t).
Proof. reflexivity. Qed.


Lemma append_assoc (a b c : string) : (a +:+ b) +:+ c = a +:+ (b +:+ c).
Proof. induction a as [|x a IH]; [done | by rewrite !append_cons, IH]. Qed.

Lemma span_digits_spec (s d r : string) :
  Str.span_digits s = (d, r) → s = d +:+ r ∧ Str.all_digits d = true.
Proof.
  revert d r. induction s as [|c s IH]; simpl; intros d r H.
  - by inversion H.
  - destruct (Str.is_digit c) eqn:Hc.
    + destruct (Str.span_digits s) as [d' r'] eqn:Hs.
      inversion H; subst. destruct (IH d' r eq_refl) as [-> Hd].
      rewrite append_cons. simpl. by rewrite Hc, Hd.
    + by inversion H.
Qed.

Lemma span_digits_rest (s d r : string) :
  Str.span_digits s = (d, r) → no_leading_digit r = true.
Proof.
  revert d r. induction s as [|c s IH]; simpl; intros d r H.
  - by inversion H.
  - destruct (Str.is_digit c) eqn:Hc.
    + destruct (Str.span_digits s) as [d' r'] eqn:Hs.
      inversion H; subst. by eapply IH.
    + inversion H; subst. simpl. by rewrite Hc.
Qed.

Lemma span_digits_app (d r : string) :
  Str.all_digits d = true → no_leading_digit r = true →
  Str.span_digits (d +:+ r) = (d, r).
Proof.
  intros Hd Hr. induction d as [|c d IH].
  - rewrite append_nil_l. destruct r as [|c r]; [done|]. simpl in *.
    by destruct (Str.is_digit c).
  - rewrite append_cons. simpl in *.
    apply andb_prop in Hd as [Hc Hd]. rewrite Hc, (IH Hd). done.
Qed.

(** A digit prefix is part of the longest digit prefix. *)
Lemma span_digits_prefix (d s : string) :
  Str.all_digits d = true →
  ∃ d' r, Str.span_digits (d +:+ s) = (d +:+ d', r) ∧ Str.span_digits s = (d', r).
Proof.
  intros Hd. induction d as [|c d IH].
  - rewrite append_nil_l. destruct (Str.span_digits s) as [d' r]. by exists d', r.
  - simpl in Hd. apply andb_prop in Hd as [Hc Hd].
    destruct (IH Hd) as (d' & r & Hs1 & Hs). exists d', r.
    rewrite !append_cons. simpl. by rewrite Hc, Hs1.
Qed.

Lemma lstrip_not_head (c : ascii) (s : string) :
  match Str.lstrip c s with
  | String a _ => a ≠ c
  | EmptyString => True
  end.
Proof.
  induction s as [|a s IH]; simpl; [done|].
  destruct (Ascii.eqb a c) eqn:E; [done|].
  by apply Ascii.eqb_neq.
Qed.

Lemma lstrip_replicate (c : ascii) (k : nat) (s : string) :
  Str.lstrip c (replicate_char k c +:+ s) = Str.lstrip c s.
Proof.
  induction k as [|k IH]; [done|].
  simpl replicate_char. rewrite append_cons. simpl. by rewrite Ascii.eqb_refl.
Qed.

Lemma lstrip_id (c a : ascii) (s : string) :
  a ≠ c → Str.lstrip c (String a s) = String a s.
Proof. intros H. simpl. apply Ascii.eqb_neq in H. by rewrite H. Qed.

(** *** Decimal numerals *)

Lemma string_of_uint_digits (u : Decimal.uint) :
  Str.all_digits (NilEmpty.string_of_uint u) = true.
Proof. induction u; simpl; try done; by rewrite IHu. Qed.

Lemma to_uint_nonnil (n : N) : N.to_uint n ≠ Decimal.Nil.
Proof.
  destruct n as [|p]; simpl; [done|].
  apply DecimalPos.Unsigned.to_uint_nonnil.
Qed.

Lemma str_of_int_digits (n : N) : Str.all_digits (Str.str_of_int n) = true.
Proof. apply string_of_uint_digits. Qed.

Lemma str_of_int_cons (n : N) :
  ∃ c s, Str.str_of_int n = String c s ∧ Str.is_digit c = true.
Proof.
  unfold Str.str_of_int. pose proof (to_uint_nonnil n) as H.
  destruct (N.to_uint n); try done; simpl; eauto.
Qed.

Lemma int_of_str (n : N) : Str.int_of_digits (Str.str_of_int n) = n.
Proof.
  unfold Str.int_of_digits, Str.str_of_int.
  rewrite NilEmpty.usu. apply DecimalN.Unsigned.of_to.
Qed.

End StrFacts.

(** ** Version parsing and build-system selection *)

Section VersionFacts.

Lemma re_match_version_sound (s g1 g2 : string) :
  re_match_version s = Some (g1, g2) → two_components s.
Proof.
  unfold re_match_version.
  destruct (Str.span_digits s) as [d1 r1] eqn:H1.
  destruct d1 as [|c1 d1]; [done|].
  destruct r1 as [|dot r2]; [done|].
  destruct (Ascii.eqb_spec dot ".") as [->|Hne]; [|
    by repeat (destruct dot as [[] [] [] [] [] [] [] []]; try done)].
  destruct (Str.span_digits r2) as [d2 r3] eqn:H2.
  destruct d2 as [|c2 d2]; [done|].
  intros [= <- <-].
  apply span_digits_spec in H1 as [-> Hd1].
  apply span_digits_spec in H2 as [-> Hd2].
  exists (String c1 d1), (String c2 d2), r3.
  repeat split; done.
Qed.

Lemma re_match_version_complete (s : string) :
  two_components s → ∃ g1 g2, re_match_version s = Some (g1, g2).
Proof.
  intros (g1 & g2 & rest & Hn1 & Hn2 & Hd1 & Hd2 & ->).
  unfold re_match_version.
  rewrite (span_digits_app g1 ("." +:+ g2 +:+ rest)) by done.
  destruct g1 as [|c1 g1]; [done|].
  rewrite append_cons, append_nil_l.
  destruct (span_digits_prefix g2 rest Hd2) as (d' & r & -> & _).
  destruct g2 as [|c2 g2]; [done|]. rewrite append_cons. eauto.
Qed.

Lemma parse_version_no_match (tag : string) :
  ¬ two_components (Str.lstrip "v" tag) → parse_version tag = (0, 0).
Proof.
  intros H. unfold parse_version.
  destruct (re_match_version (Str.lstrip "v" tag)) as [[g1 g2]|] eqn:E; [|done].
  destruct H. by eapply re_match_version_sound.
Qed.

Lemma digit_not_v (c : ascii) : Str.is_digit c = true → c ≠ "v"%char.
Proof. intros H ->. discriminate H. Qed.

Lemma lstrip_version_string (vs : nat) (major minor : N) (rest : string) :
  Str.lstrip "v" (version_string vs major minor rest) =
  Str.str_of_int major +:+ "." +:+ Str.str_of_int minor +:+ rest.
Proof.
  unfold version_string. rewrite lstrip_replicate.
  destruct (str_of_int_cons major) as (c & s & -> & Hc).
  rewrite append_cons. apply lstrip_id. by apply digit_not_v.
Qed.

(** The major number of a tagged version is parsed back whatever follows
    the minor number. *)
Lemma parse_version_major (vs : nat) (major minor : N) (rest : string) :
  fst (parse_version (version_string vs major minor rest)) = major.
Proof.
  unfold parse_version. rewrite lstrip_version_string.
  unfold re_match_version.
  rewrite (span_digits_app (Str.str_of_int major)) by (by rewrite ?str_of_int_digits).
  destruct (str_of_int_cons major) as (c & s & E & Hc). rewrite E.
  rewrite append_cons, append_nil_l.
  destruct (span_digits_prefix (Str.str_of_int minor) rest (str_of_int_digits minor))
    as (d' & r & -> & _).
  destruct (str_of_int_cons minor) as (c2 & s2 & -> & _). rewrite append_cons.
  simpl. by rewrite <- E, int_of_str.
Qed.

(** Both numbers are parsed back when no digit follows the minor number. *)
Lemma parse_version_print (vs : nat) (major minor : N) (rest : string) :
  no_leading_digit rest = true →
  parse_version (version_string vs major minor rest) = (major, minor).
Proof.
  intros Hrest. unfold parse_version. rewrite lstrip_version_string.
  unfold re_match_version.
  rewrite (span_digits_app (Str.str_of_int major)) by (by rewrite ?str_of_int_digits).
  destruct (str_of_int_cons major) as (c & s & E & Hc). rewrite E.
  rewrite append_cons, append_nil_l.
  rewrite (span_digits_app (Str.str_of_int minor) rest) by (by rewrite ?str_of_int_digits).
  destruct (str_of_int_cons minor) as (c2 & s2 & E2 & _). rewrite E2.
  by rewrite <- E, <- E2, !int_of_str.
Qed.

Lemma use_cmake_major (version : string) :
  use_cmake version = (25 <=? fst (parse_version version)).
Proof. unfold use_cmake. by destruct (parse_version version). Qed.

End VersionFacts.

(** C5. The build system of the node daemon is decided by the parsed major
    number alone: a version whose major number is at least 25 is built with
    CMake and any other with Autotools; a tagged version, with or without
    leading [v], has the major number it is written with; ["25.0"] and
    ["v25.1"] select CMake and ["24.2"] selects Autotools. *)
Theorem build_system_by_major :
  (∀ version : string,
     (25 ≤ fst (parse_version version) → select_build_system version = CMake) ∧
     (fst (parse_version version) < 25 → select_build_system version = Autotools)) ∧
  (∀ (vs : nat) (major minor : N) (rest : string),
     fst (parse_version (version_string vs major minor rest)) = major ∧
     select_build_system (version_string vs major minor rest) =
       (if 25 <=? major then CMake else Autotools)) ∧
  select_build_system "25.0" = CMake ∧
  select_build_system "v25.1" = CMake ∧
  select_build_system "24.2" = Autotools.
Proof.
  split; [|split; [|done]].
  - intros version. unfold select_build_system. rewrite use_cmake_major.
    split; intros H.
    + by apply N.leb_le in H as ->.
    + by apply N.leb_gt in H as ->.
  - intros vs major minor rest. split; [apply parse_version_major|].
    unfold select_build_system.
    by rewrite use_cmake_major, parse_version_major.
Qed.

(** ** The grouping dictionary *)

Section GroupFacts.

Lemma dict_mem_get (key : string) (d : groups) :
  dict_mem key d = true → ∃ tags, dict_get key d = Ok tags.
Proof.
  induction d as [|[k v] d IH]; simpl; [done|].
  destruct (String.eqb k key); simpl; eauto.
Qed.

Lemma dict_get_mem (key : string) (d : groups) (tags : list string) :
  dict_get key d = Ok tags → dict_mem key d = true.
Proof.
  induction d as [|[k v] d IH]; simpl; [done|].
  destruct (String.eqb k key); simpl; eauto.
Qed.

Lemma dict_get_append_eq (key tag : string) (d : groups) (tags : list string) :
  dict_get key d = Ok tags →
  dict_get key (dict_append key tag d) = Ok (tags ++ [tag])%list.
Proof.
  induction d as [|[k v] d IH]; simpl; [done|].
  destruct (String.eqb k key) eqn:E; simpl; rewrite E; [congruence | done].
Qed.

Lemma dict_get_append_ne (key key' tag : string) (d : groups) :
  key ≠ key' →
  dict_get key' (dict_append key tag d) = dict_get key' d.
Proof.
  intros Hne. induction d as [|[k v] d IH]; simpl; [done|].
  destruct (String.eqb k key) eqn:E; simpl.
  - apply String.eqb_eq in E as ->.
    apply String.eqb_neq in Hne. by rewrite Hne.
  - by rewrite IH.
Qed.

Lemma dict_get_snoc (key key' : string) (v : list string) (d : groups) :
  dict_get key' (d ++ [(key, v)])%list =
  match dict_get key' d with
  | Ok tags => Ok tags
  | Raise _ => if String.eqb key key' then Ok v else Raise (KeyError key')
  end.
Proof.
  induction d as [|[k w] d IH]; simpl; [done|].
  by destruct (String.eqb k key').
Qed.

Lemma dict_mem_false_get (key : string) (d : groups) :
  dict_mem key d = false → dict_get key d = Raise (KeyError key).
Proof.
  induction d as [|[k v] d IH]; simpl; [done|].
  destruct (String.eqb k key); simpl; [done | auto].
Qed.

(** The round of a tag files it last under its own key. *)
Lemma group_step_own (d : groups) (tag : string) :
  ∃ tags, dict_get (tag_key tag) (group_step d tag) = Ok (tags ++ [tag])%list ∧
          (dict_get (tag_key tag) d = Ok tags ∨
           (dict_mem (tag_key tag) d = false ∧ tags = [])).
Proof.
  unfold group_step, tag_key. destruct (parse_version tag) as [major minor].
  destruct (dict_mem (group_key major minor) d) eqn:E.
  - destruct (dict_mem_get _ _ E) as [tags Ht]. exists tags.
    split; [by apply dict_get_append_eq | by left].
  - exists []. split; [|by right].
    apply dict_get_append_eq. rewrite dict_get_snoc.
    rewrite (dict_mem_false_get _ _ E). by rewrite String.eqb_refl.
Qed.

(** The round of a tag leaves the other keys as they are. *)
Lemma group_step_other (d : groups) (tag key : string) (tags : list string) :
  tag_key tag ≠ key → dict_get key d = Ok tags →
  dict_get key (group_step d tag) = Ok tags.
Proof.
  unfold group_step, tag_key. destruct (parse_version tag) as [major minor].
  intros Hne Hget. rewrite dict_get_append_ne by done.
  destruct (dict_mem (group_key major minor) d); [done|].
  by rewrite dict_get_snoc, Hget.
Qed.

(** A tag that is filed stays filed. *)
Lemma group_step_keeps (d : groups) (tag key t : string) (tags : list string) :
  dict_get key d = Ok tags → t ∈ tags →
  ∃ tags', dict_get key (group_step d tag) = Ok tags' ∧ t ∈ tags'.
Proof.
  intros Hget Hin. destruct (decide (tag_key tag = key)) as [<-|Hne].
  - destruct (group_step_own d tag) as (old & Hnew & [Hold|[Hno _]]).
    + exists (old ++ [tag])%list. split; [done|].
      rewrite Hget in Hold. injection Hold as <-. set_solver.
    + by rewrite (dict_get_mem _ _ _ Hget) in Hno.
  - exists tags. split; [|done]. by apply group_step_other.
Qed.

Lemma fold_group_keeps (l : list string) (d : groups) (key t : string)
  (tags : list string) :
  dict_get key d = Ok tags → t ∈ tags →
  ∃ tags', dict_get key (fold_left group_step l d) = Ok tags' ∧ t ∈ tags'.
Proof.
  revert d tags. induction l as [|x l IH]; intros d tags Hget Hin; simpl.
  - eauto.
  - destruct (group_step_keeps d x key t tags Hget Hin) as (tags' & H1 & H2).
    by eapply IH.
Qed.

(** Every collected tag is filed under its own key. *)
Lemma group_tags_files (all_versions : list string) (tag : string) :
  tag ∈ all_versions →
  ∃ tags, dict_get (tag_key tag) (group_tags all_versions) = Ok tags ∧ tag ∈ tags.
Proof.
  unfold group_tags. generalize ([] : groups) as d.
  induction all_versions as [|x l IH]; intros d Hin; [by apply elem_of_nil in Hin|].
  apply elem_of_cons in Hin as [->|Hin]; simpl.
  - destruct (group_step_own d x) as (old & Hnew & _).
    eapply fold_group_keeps; [done | set_solver].
  - by apply IH.
Qed.

End GroupFacts.

(** C10. A tag that, once its leading [v]s are stripped, does not begin
    with two dot-separated integer components parses to [(0, 0)]; so the
    catalogue files it under the key ["0.0"], and the build of such a
    version takes the Autotools branch. *)
Theorem unparsable_tag_defaults (tag : string) :
  ¬ two_components (Str.lstrip "v" tag) →
  parse_version tag = (0, 0) ∧
  (∀ all_versions : list string, tag ∈ all_versions →
     ∃ tags, dict_get "0.0" (group_tags all_versions) = Ok tags ∧ tag ∈ tags) ∧
  use_cmake tag = false ∧
  select_build_system tag = Autotools.
Proof.
  intros H. pose proof (parse_version_no_match tag H) as Hp.
  split; [done|]. split.
  - intros all_versions Hin.
    destruct (group_tags_files all_versions tag Hin) as (tags & Hget & Htag).
    exists tags. split; [|done].
    unfold tag_key in Hget. by rewrite Hp in Hget.
  - unfold select_build_system. rewrite use_cmake_major, Hp. done.
Qed.

(** ** The release-candidate filter *)

Section RcFacts.

Lemma lower_char_r (a : ascii) :
  Str.lower_char a = "r"%char ↔ a = "r"%char ∨ a = "R"%char.
Proof.
  split.
  - destruct a as [[] [] [] [] [] [] [] []]; vm_compute; intros H;
      first [discriminate H | by left | by right].
  - by intros [-> | ->].
Qed.

Lemma lower_char_c (a : ascii) :
  Str.lower_char a = "c"%char ↔ a = "c"%char ∨ a = "C"%char.
Proof.
  split.
  - destruct a as [[] [] [] [] [] [] [] []]; vm_compute; intros H;
      first [discriminate H | by left | by right].
  - by intros [-> | ->].
Qed.

Lemma prefix_rc (s : string) :
  Str.startswith "rc" s = true ↔
  ∃ a b post, s = String a (String b post) ∧ a = "r"%char ∧ b = "c"%char.
Proof.
  split.
  - destruct s as [|a [|b post]]; [done| |].
    + change (Str.startswith "rc" (String a "")) with (Ascii.eqb "r" a && false).
      by rewrite andb_false_r.
    + change (Str.startswith "rc" (String a (String b post)))
        with (Ascii.eqb "r" a && (Ascii.eqb "c" b && true)).
      rewrite andb_true_r. intros [Ha Hb]%andb_prop.
      apply Ascii.eqb_eq in Ha as <-. apply Ascii.eqb_eq in Hb as <-.
      by exists "r"%char, "c"%char, post.
  - intros (a & b & post & -> & -> & ->). done.
Qed.

Lemma contains_cons (needle : string) (a : ascii) (s : string) :
  Str.contains needle (String a s) =
  Str.startswith needle (String a s) || Str.contains needle s.
Proof. reflexivity. Qed.

(** The test of the code, ["rc" in tag.lower()], is the marker. *)
Lemma contains_rc_marker (tag : string) :
  Str.contains "rc" (Str.lower tag) = true ↔ has_rc_marker tag.
Proof.
  induction tag as [|a tag IH].
  - split; [done|]. intros (pre & a & b & post & E & _). by destruct pre.
  - simpl Str.lower. rewrite contains_cons, orb_true_iff, IH, prefix_rc.
    split.
    + intros [(a' & b' & post' & E & Ha & Hb) | (pre & x & y & post & -> & Hx & Hy)].
      * destruct tag as [|b tag]; [done|]. simpl in E. injection E as <- <- <-.
        exists "", a, b, tag. split; [done|].
        by rewrite <- lower_char_r, <- lower_char_c.
      * exists (String a pre), x, y, post. done.
    + intros (pre & x & y & post & E & Hx & Hy). destruct pre as [|p pre].
      * rewrite append_nil_l in E. injection E as -> ->. left.
        exists (Str.lower_char x), (Str.lower_char y), (Str.lower post).
        by rewrite lower_char_r, lower_char_c.
      * rewrite append_cons in E. injection E as -> ->. right.
        exists pre, x, y, post. done.
Qed.

Lemma collect_tags_no_rc (cap : nat) (rels : list json) (acc out : list string) (tag : string) :
  collect_tags cap rels acc = Ok out → has_rc_marker tag →
  tag ∉ acc → tag ∉ out.
Proof.
  revert acc. induction rels as [|rel rest IH]; intros acc Hc Hrc Hacc; simpl in Hc.
  - by injection Hc as <-.
  - destruct (json_getitem rel "tag_name") as [j|e]; [|done].
    destruct j; try done. simpl in Hc.
    destruct (Str.contains "rc" (Str.lower s)) eqn:E; [by eapply IH|].
    assert (tag ∉ (acc ++ [s])%list) as Hacc'.
    { rewrite elem_of_app, list_elem_of_singleton. intros [?| ->]; [done|].
      apply contains_rc_marker in Hrc. congruence. }
    destruct (Nat.eqb _ cap); [by injection Hc as <- | by eapply IH].
Qed.

End RcFacts.

(** ** The effect monad *)

Section MonadFacts.

Lemma bind_ok {A B} (m : M A) (k : A → M B) (w w' : world) (a : A) :
  m w = (Ok a, w') → (m ≫= k) w = k a w'.
Proof. intros H. unfold mbind, M_bind. by rewrite H. Qed.

Lemma bind_raise {A B} (m : M A) (k : A → M B) (w w' : world) (e : exn) :
  m w = (Raise e, w') → (m ≫= k) w = (Raise e, w').
Proof. intros H. unfold mbind, M_bind. by rewrite H. Qed.

Lemma log_ok (msg : string) (w : world) : ∃ w', log msg w = (Ok tt, w').
Proof. unfold log. destruct (w_gui w); eauto. Qed.

Lemma log_after (msg : string) (w : world) : log msg w = (Ok tt, after_log w msg).
Proof. unfold after_log. destruct (log_ok msg w) as [w' E]. by rewrite E. Qed.

(** Logging touches nothing but the trace. *)
Lemma log_frame (msg : string) (w w' : world) (r : result unit) :
  log msg w = (r, w') →
  r = Ok tt ∧ w_fs w' = w_fs w ∧ w_store w' = w_store w ∧
  w_gui w' = w_gui w ∧ w_out w' = w_out w ∧
  (w_trace w' = w_trace w ∨ w_trace w' = (w_trace w ++ [EvLog msg])%list).
Proof.
  unfold log, emit. destruct (w_gui w) eqn:E; intros [= <- <-]; simpl; auto 10.
Qed.

End MonadFacts.

(** ** The catalogue *)

Section CatalogFacts.

(** What the two catalogue operations return, whatever the outside does. *)
Lemma get_bitcoin_versions_result (w : world) :
  (get_bitcoin_versions w).1 =
  Ok match (fetch_json BITCOIN_API w).1 with
     | Ok j => match bitcoin_versions_of j with
               | Ok versions => versions
               | Raise _ => []
               end
     | Raise _ => []
     end.
Proof.
  unfold get_bitcoin_versions, try_except.
  destruct (fetch_json BITCOIN_API w) as [[j|e] w1] eqn:Hf; simpl.
  - rewrite (bind_ok _ _ _ _ _ Hf). unfold lift at 1.
    destruct (bitcoin_versions_of j) as [vs|e] eqn:Hb.
    + unfold mbind at 1, M_bind at 1; simpl.
      destruct (log_ok ("Found " +:+ Str.str_of_int (N.of_nat (length vs))
                +:+ " Bitcoin versions (latest patch only)" +:+ "
") w1) as [w2 Hl].
      rewrite (bind_ok _ _ _ _ _ Hl). done.
    + unfold mbind at 1, M_bind at 1; simpl.
      destruct (log_ok ("Failed to fetch Bitcoin versions: " +:+ exn_str e +:+ "
") w1) as [w2 Hl].
      rewrite (bind_ok _ _ _ _ _ Hl). done.
  - rewrite (bind_raise _ _ _ _ _ Hf).
    destruct (log_ok ("Failed to fetch Bitcoin versions: " +:+ exn_str e +:+ "
") w1) as [w2 Hl].
    rewrite (bind_ok _ _ _ _ _ Hl). done.
Qed.

Lemma get_electrs_versions_result (w : world) :
  (get_electrs_versions w).1 =
  Ok match (fetch_json ELECTRS_API w).1 with
     | Ok j => match electrs_versions_of j with
               | Ok versions => versions
               | Raise _ => []
               end
     | Raise _ => []
     end.
Proof.
  unfold get_electrs_versions, try_except.
  destruct (fetch_json ELECTRS_API w) as [[j|e] w1] eqn:Hf; simpl.
  - rewrite (bind_ok _ _ _ _ _ Hf). unfold lift at 1.
    destruct (electrs_versions_of j) as [vs|e] eqn:Hb.
    + unfold mbind at 1, M_bind at 1; simpl.
      destruct (log_ok ("Found " +:+ Str.str_of_int (N.of_nat (length vs))
                +:+ " Electrs versions" +:+ "
") w1) as [w2 Hl].
      rewrite (bind_ok _ _ _ _ _ Hl). done.
    + unfold mbind at 1, M_bind at 1; simpl.
      destruct (log_ok ("Failed to fetch Electrs versions: " +:+ exn_str e +:+ "
") w1) as [w2 Hl].
      rewrite (bind_ok _ _ _ _ _ Hl). done.
  - rewrite (bind_raise _ _ _ _ _ Hf).
    destruct (log_ok ("Failed to fetch Electrs versions: " +:+ exn_str e +:+ "
") w1) as [w2 Hl].
    rewrite (bind_ok _ _ _ _ _ Hl). done.
Qed.

End CatalogFacts.

(** ** What the selection can return *)

Section SelectionFacts.

Context (P : string → Prop).

Lemma dict_all_get (d : groups) (key : string) (tags : list string) :
  dict_all P d → dict_get key d = Ok tags → Forall P tags.
Proof.
  induction d as [|[k v] d IH]; simpl; [done|].
  intros Hall Hget. apply Forall_cons in Hall as [Hv Hd].
  destruct (String.eqb k key); [by injection Hget as <- | auto].
Qed.

Lemma dict_all_append (d : groups) (key tag : string) :
  P tag → dict_all P d → dict_all P (dict_append key tag d).
Proof.
  intros Ht. induction d as [|[k v] d IH]; simpl; [done|].
  intros Hall. apply Forall_cons in Hall as [Hv Hd].
  destruct (String.eqb k key); apply Forall_cons; split; simpl in *; auto.
  - apply Forall_app. split; [done|]. by apply Forall_singleton.
  - by apply IH.
Qed.

Lemma dict_all_step (d : groups) (tag : string) :
  P tag → dict_all P d → dict_all P (group_step d tag).
Proof.
  intros Ht Hall. unfold group_step. destruct (parse_version tag) as [major minor].
  apply dict_all_append; [done|].
  destruct (dict_mem _ d); [done|].
  apply Forall_app. split; [done|]. apply Forall_singleton. constructor.
Qed.

Lemma dict_all_group_tags (all_versions : list string) :
  Forall P all_versions → dict_all P (group_tags all_versions).
Proof.
  unfold group_tags. assert (dict_all P []) as H0 by constructor.
  revert H0. generalize ([] : groups) as d.
  induction all_versions as [|x l IH]; intros d Hd Hall; simpl; [done|].
  apply Forall_cons in Hall as [Hx Hl]. apply IH; [|done].
  by apply dict_all_step.
Qed.

Lemma insert_desc_perm {A} (x : list N * A) (l : list (list N * A)) :
  insert_desc x l ≡ₚ x :: l.
Proof.
  induction l as [|y l IH]; simpl; [done|].
  destruct (tuple_leb y.1 x.1); [done|].
  rewrite IH. apply Permutation_swap.
Qed.

Lemma sorted_desc_perm {A} (l : list (list N * A)) :
  sorted_desc l ≡ₚ map snd l.
Proof.
  unfold sorted_desc. induction l as [|x l IH]; simpl; [done|].
  by rewrite insert_desc_perm, <- IH.
Qed.

Lemma select_latest_all (cap : nat) (d : groups) (keys acc out : list string) :
  dict_all P d → Forall P acc →
  select_latest cap d keys acc = Ok out → Forall P out.
Proof.
  intros Hd. revert acc. induction keys as [|key rest IH]; intros acc Hacc; simpl.
  - by intros [= <-].
  - destruct (dict_get key d) as [tags|e] eqn:Hget; [|done].
    pose proof (dict_all_get d key tags Hd Hget) as Htags.
    destruct (sorted_desc _) as [|first l] eqn:Hs; [done|].
    assert (P first) as Hfirst.
    { assert (first ∈ sorted_desc (map (λ v, (version_tuple v, v)) tags)) as Hin
        by (rewrite Hs; set_solver).
      rewrite sorted_desc_perm, map_map, map_id in Hin.
      by eapply Forall_forall in Htags. }
    assert (Forall P (acc ++ [first])%list) as Hacc'.
    { apply Forall_app. split; [done|]. by apply Forall_singleton. }
    destruct (Nat.eqb _ cap); [by intros [= <-] | by apply IH].
Qed.

End SelectionFacts.

(** Every tag the node-daemon catalogue returns was collected by the
    filtering loop. *)
Lemma bitcoin_versions_collected (j : json) (versions : list string) :
  bitcoin_versions_of j = Ok versions →
  ∃ rels all_versions,
    json_iter j = Ok rels ∧ collect_tags 20 rels [] = Ok all_versions ∧
    versions ⊆ all_versions.
Proof.
  unfold bitcoin_versions_of.
  destruct (json_iter j) as [rels|e]; [|done].
  destruct (collect_tags 20 rels []) as [all_versions|e] eqn:Hc; [|done].
  destruct (map_result _ _) as [keyed|e]; [|done].
  intros Hsel. exists rels, all_versions. split; [done|]. split; [done|].
  intros t Ht.
  eapply (select_latest_all (λ t, t ∈ all_versions)) in Hsel.
  - by eapply Forall_forall in Hsel.
  - apply (dict_all_group_tags (λ t, t ∈ all_versions)). by apply Forall_forall.
  - constructor.
Qed.

(** C8. A tag that contains the marker [rc], in any letter case and at any
    position, is dropped by the filtering loop, before any grouping, and is
    in the result of neither the node-daemon nor the indexer listing. *)
Theorem rc_tags_excluded (tag : string) :
  has_rc_marker tag →
  (∀ (cap : nat) (rels : list json) (collected : list string),
     collect_tags cap rels [] = Ok collected → tag ∉ collected) ∧
  (∀ (w : world) (versions : list string),
     (get_bitcoin_versions w).1 = Ok versions → tag ∉ versions) ∧
  (∀ (w : world) (versions : list string),
     (get_electrs_versions w).1 = Ok versions → tag ∉ versions).
Proof.
  intros Hrc.
  assert (∀ cap rels collected,
            collect_tags cap rels [] = Ok collected → tag ∉ collected) as Hcol.
  { intros cap rels collected Hc.
    eapply collect_tags_no_rc; [done | done | apply not_elem_of_nil]. }
  split; [done|]. split.
  - intros w versions. rewrite get_bitcoin_versions_result. intros [= <-].
    destruct (fetch_json BITCOIN_API w).1 as [j|e]; [|apply not_elem_of_nil].
    destruct (bitcoin_versions_of j) as [versions|e] eqn:Hb; [|apply not_elem_of_nil].
    destruct (bitcoin_versions_collected j versions Hb) as (rels & all & _ & Hc & Hsub).
    intros Hin. by eapply Hcol, Hsub.
  - intros w versions. rewrite get_electrs_versions_result. intros [= <-].
    destruct (fetch_json ELECTRS_API w).1 as [j|e]; [|apply not_elem_of_nil].
    destruct (electrs_versions_of j) as [versions|e] eqn:Hb; [|apply not_elem_of_nil].
    unfold electrs_versions_of in Hb.
    destruct (json_iter j) as [rels|e]; [|done]. by eapply Hcol.
Qed.

Lemma fetch_json_result (url : string) (w : world) :
  (fetch_json url w).1 =
  match o_http (w_out w) (w_trace w) url with
  | HttpRaises e => Raise e
  | HttpResponse status body =>
      if (400 <=? status) && (status <? 600) then Raise (HTTPError status)
      else match body with
           | Some j => Ok j
           | None => Raise JSONDecodeError
           end
  end.
Proof.
  unfold fetch_json, get_world, emit, raise, mbind, M_bind, mret, M_ret; simpl.
  destruct (o_http _ _ _) as [e|status body]; [done|].
  destruct (_ && _); [done|]. by destruct body.
Qed.

Lemma catalog_failure_result (decode : json → result (list string))
  (url : string) (w : world) :
  catalog_failure decode (o_http (w_out w) (w_trace w) url) →
  match (fetch_json url w).1 with
  | Ok j => match decode j with
            | Ok versions => versions
            | Raise _ => []
            end
  | Raise _ => []
  end = [].
Proof.
  rewrite fetch_json_result. unfold catalog_failure.
  destruct (o_http _ _ _) as [e|status body]; [done|].
  intros [[H1 H2]|H].
  - apply N.leb_le in H1. apply N.ltb_lt in H2. by rewrite H1, H2.
  - destruct (_ && _); [done|]. destruct body as [j|]; [|done].
    by destruct H as [e ->].
Qed.

(** C9. Neither catalogue operation ever raises to its caller; and when the
    fetch fails (the request raises, the status is an error, the body does
    not decode, or the decoded body cannot be read as a listing) the
    operation returns the empty list. *)
Theorem catalog_fail_soft (w : world) :
  (∃ versions, (get_bitcoin_versions w).1 = Ok versions) ∧
  (∃ versions, (get_electrs_versions w).1 = Ok versions) ∧
  (catalog_failure bitcoin_versions_of (o_http (w_out w) (w_trace w) BITCOIN_API) →
   (get_bitcoin_versions w).1 = Ok []) ∧
  (catalog_failure electrs_versions_of (o_http (w_out w) (w_trace w) ELECTRS_API) →
   (get_electrs_versions w).1 = Ok []).
Proof.
  rewrite get_bitcoin_versions_result, get_electrs_versions_result.
  split; [eauto|]. split; [eauto|]. split; intros H; f_equal;
    by apply catalog_failure_result.
Qed.

(** C1 (the defect). On the listing [v0.21.0, v0.21.1] the node-daemon
    catalogue returns [v0.21.0]: both tags are in the group [(0, 21)], the
    inner sort compares [parse_version], which has no patch component, so
    the first tag seen is kept, although [v0.21.1] has the greater
    [(major, minor, patch)] key.  On the listing
    [v29.1, v29.0, v28.3, v28.0] of the design document it returns all
    four tags. *)
Theorem latest_patch_not_selected :
  let w := world_with_http
             (HttpResponse 200 (Some (release_list ["v0.21.0"; "v0.21.1"]))) in
  let w' := world_with_http
              (HttpResponse 200
                 (Some (release_list ["v29.1"; "v29.0"; "v28.3"; "v28.0"]))) in
  (get_bitcoin_versions w).1 = Ok ["v0.21.0"] ∧
  parse_version "v0.21.0" = parse_version "v0.21.1" ∧
  spec_version_key "v0.21.0" = (0, 21, 0) ∧
  spec_version_key "v0.21.1" = (0, 21, 1) ∧
  spec_key_lt (spec_version_key "v0.21.0") (spec_version_key "v0.21.1") ∧
  (get_bitcoin_versions w').1 = Ok ["v29.1"; "v29.0"; "v28.3"; "v28.0"].
Proof.
  simpl. split; [by vm_compute|]. split; [by vm_compute|].
  split; [by vm_compute|]. split; [by vm_compute|].
  split; [|by vm_compute].
  vm_compute. right. split; [done|]. right. done.
Qed.

(** ** The environment composer *)

Section ComposerFacts.

Lemma writes_only_refl (env : ref) (keys : gset string) (w : world) :
  is_Some (w_store w !! env) → writes_only env keys w w.
Proof. intros H. wo_split; auto. Qed.

Lemma writes_only_trans (env : ref) (keys : gset string) (w1 w2 w3 : world) :
  writes_only env keys w1 w2 → writes_only env keys w2 w3 →
  writes_only env keys w1 w3.
Proof.
  intros (Hf1 & Ho1 & Hs1 & He1 & Hk1) (Hf2 & Ho2 & Hs2 & He2 & Hk2).
  wo_split; try congruence.
  - intros r Hr. by rewrite Hs2, Hs1.
  - intros k Hk. by rewrite Hk2, Hk1.
Qed.

Lemma writes_only_mono (env : ref) (keys keys' : gset string) (w w' : world) :
  keys ⊆ keys' → writes_only env keys w w' → writes_only env keys' w w'.
Proof.
  intros Hsub (Hf & Ho & Hs & He & Hk).
  wo_split; auto; intros k Hk'; apply Hk; set_solver.
Qed.

Lemma runs_mono {A} (env : ref) (keys keys' : gset string) (m : M A) :
  keys ⊆ keys' → runs_within env keys m → runs_within env keys' m.
Proof.
  intros Hsub Hm w Hw. destruct (Hm w Hw) as (a & w' & E & Hwo).
  exists a, w'. split; [done|]. by eapply writes_only_mono.
Qed.

Lemma runs_ret {A} (env : ref) (keys : gset string) (a : A) :
  runs_within env keys (mret a).
Proof. intros w Hw. exists a, w. split; [done|]. by apply writes_only_refl. Qed.

Lemma runs_bind {A B} (env : ref) (keys : gset string) (m : M A) (k : A → M B) :
  runs_within env keys m → (∀ a, runs_within env keys (k a)) →
  runs_within env keys (m ≫= k).
Proof.
  intros Hm Hk w Hw. destruct (Hm w Hw) as (a & w1 & E1 & H1).
  destruct (Hk a w1) as (b & w2 & E2 & H2); [apply H1|].
  exists b, w2. split; [by rewrite (bind_ok _ _ _ _ _ E1)|].
  by eapply writes_only_trans.
Qed.

Lemma runs_log (env : ref) (keys : gset string) (msg : string) :
  runs_within env keys (log msg).
Proof.
  intros w Hw. destruct (log msg w) as [r w'] eqn:E.
  destruct (log_frame _ _ _ _ E) as (-> & Hf & Hs & _ & Ho & _).
  exists tt, w'. split; [done|]. unfold writes_only, content_of.
  rewrite Hf, Ho, Hs. wo_split; auto.
Qed.

Lemma runs_get_world (env : ref) (keys : gset string) :
  runs_within env keys get_world.
Proof. intros w Hw. exists w, w. split; [done|]. by apply writes_only_refl. Qed.

Lemma runs_dict_get_default (env : ref) (keys : gset string) (r : ref) (key dflt : string) :
  runs_within env keys (dict_get_default r key dflt).
Proof. intros w Hw. eexists _, w. split; [done|]. by apply writes_only_refl. Qed.

Lemma runs_dict_set (env : ref) (keys : gset string) (key value : string) :
  key ∈ keys → runs_within env keys (dict_set env key value).
Proof.
  intros Hkey w Hw. eexists tt, _. split; [reflexivity|].
  unfold writes_only, content_of; simpl. wo_split; auto.
  - intros r Hr. by rewrite lookup_insert_ne.
  - rewrite lookup_insert_eq. eauto.
  - intros k Hk. rewrite lookup_insert_eq. simpl.
    rewrite lookup_insert_ne; [done|]. by intros ->.
Qed.

Lemma runs_set_flags (env : ref) (keys : gset string) (flags : list (string * string)) :
  (∀ kv, kv ∈ flags → kv.1 ∈ keys) → runs_within env keys (set_flags env flags).
Proof.
  induction flags as [|[key value] rest IH]; intros Hkeys; simpl.
  - apply runs_ret.
  - apply runs_bind.
    + destruct (truthy value); [|apply runs_ret].
      apply runs_bind; [|intros; apply runs_log].
      apply runs_dict_set. apply (Hkeys (key, value)). set_solver.
    + intros _. apply IH. intros kv Hkv. apply Hkeys. set_solver.
Qed.

Lemma optimization_flag_keys (cfg : config) (use_aggressive : bool) :
  map fst (get_optimization_flags cfg use_aggressive) = ["CFLAGS"; "CXXFLAGS"; "LDFLAGS"].
Proof.
  unfold get_optimization_flags. by destruct (ARCH cfg), use_aggressive.
Qed.

Lemma optimization_flags_within (cfg : config) (use_aggressive : bool) (keys : gset string) :
  {[ "CFLAGS"; "CXXFLAGS"; "LDFLAGS" ]} ⊆ keys →
  ∀ kv, kv ∈ get_optimization_flags cfg use_aggressive → kv.1 ∈ keys.
Proof.
  intros Hsub kv Hkv. apply Hsub.
  assert (kv.1 ∈ map fst (get_optimization_flags cfg use_aggressive)) as H
    by (by apply list_elem_of_fmap_2).
  rewrite optimization_flag_keys in H.
  rewrite !elem_of_cons, elem_of_nil in H.
  rewrite !elem_of_union, !elem_of_singleton. tauto.
Qed.

End ComposerFacts.

Section ComposerSpec.

Lemma dict_copy_spec (r : ref) (w : world) :
  ∃ w', dict_copy r w = (Ok (fresh (dom (w_store w))), w') ∧
        w_fs w' = w_fs w ∧ w_out w' = w_out w ∧ w_gui w' = w_gui w ∧
        w_trace w' = w_trace w ∧
        w_store w' = <[ fresh (dom (w_store w)) := content_of w r ]> (w_store w).
Proof. eexists. split; [reflexivity|]. simpl. auto. Qed.

Lemma fresh_ref_new (w : world) : w_store w !! fresh (dom (w_store w)) = None.
Proof. apply not_elem_of_dom. apply is_fresh. Qed.

(** The composer returns a new object whose items are those of
    [os.environ] but for the variables it sets, among them the search
    path; nothing else in the store, and nothing in the file system, is
    written. *)
Lemma setup_build_environment_spec (cfg : config) (use_aggressive_opts : bool) (w : world) :
  let env := fresh (dom (w_store w)) in
  ∃ w', setup_build_environment cfg use_aggressive_opts w = (Ok env, w') ∧
        w_fs w' = w_fs w ∧ w_out w' = w_out w ∧
        (∀ r, r ≠ env → w_store w' !! r = w_store w !! r) ∧
        is_Some (w_store w' !! env) ∧
        (∀ k, k ∉ composed_keys →
              content_of w' env !! k = content_of w environ_ref !! k) ∧
        content_of w' env !! "PATH" =
          Some (composed_path cfg (w_fs w)
                  (default "" (content_of w environ_ref !! "PATH"))).
Proof.
  intros env. unfold setup_build_environment.
  destruct (dict_copy_spec environ_ref w) as (w1 & E1 & Hf1 & Ho1 & Hg1 & Ht1 & Hs1).
  fold env in E1, Hs1. rewrite (bind_ok _ _ _ _ _ E1).
  (* the warning about the prefix *)
  assert (∃ w2, (match BREW_PREFIX cfg with
                 | Some _ => mret tt
                 | None => log "⚠️  Warning: Homebrew prefix not detected, using defaults
"
                 end : M unit) w1 = (Ok tt, w2) ∧
                w_fs w2 = w_fs w1 ∧ w_store w2 = w_store w1 ∧ w_out w2 = w_out w1)
    as (w2 & E2 & Hf2 & Hs2 & Ho2).
  { destruct (BREW_PREFIX cfg); [by exists w1|].
    destruct (log _ w1) as [r w2] eqn:E.
    destruct (log_frame _ _ _ _ E) as (-> & ? & ? & _ & ? & _). by exists w2. }
  rewrite (bind_ok _ _ _ _ _ E2).
  rewrite (bind_ok get_world _ w2 w2 w2 eq_refl).
  rewrite (bind_ok (dict_get_default env "PATH" "") _ w2 w2 _ eq_refl).
  assert (content_of w2 env = content_of w environ_ref) as Hc2.
  { unfold content_of at 1. by rewrite Hs2, Hs1, lookup_insert_eq. }
  fold (content_of w2 env). rewrite Hc2, Hf2, Hf1.
  set (path := Str.join ":" _).
  set (w3 := (dict_set env "PATH" path w2).2).
  rewrite (bind_ok (dict_set env "PATH" path) _ w2 w3 tt eq_refl).
  (* what follows the search path writes the other variables only *)
  match goal with
  | |- ∃ w', ?m w3 = _ ∧ _ =>
      assert (runs_within env (composed_keys ∖ {[ "PATH" ]}) m) as Hrest
  end.
  { apply runs_bind.
    - destruct (existing_dirs _ _) as [|llvm_prefix ?]; [apply runs_ret|].
      apply runs_bind; [|intros _]; apply runs_dict_set; by vm_compute.
    - intros _. apply runs_bind; [|intros _; apply runs_ret].
      apply runs_set_flags. apply optimization_flags_within.
      intros k. rewrite !elem_of_union, !elem_of_singleton.
      intros Hk. apply elem_of_difference. split.
      + unfold composed_keys. rewrite !elem_of_union, !elem_of_singleton. tauto.
      + rewrite elem_of_singleton. by destruct Hk as [[-> | ->] | ->]. }
  assert (w_store w3 = <[ env := <[ "PATH" := path ]> (content_of w environ_ref) ]> (w_store w2))
    as Hs3.
  { subst w3. simpl. by fold (content_of w2 env); rewrite Hc2. }
  destruct (Hrest w3) as (r & w4 & E4 & Hf4 & Ho4 & Hs4 & He4 & Hk4).
  { rewrite Hs3, lookup_insert_eq. eauto. }
  exists w4. replace r with env in E4; last first.
  { revert E4. unfold mbind, M_bind.
    repeat (match goal with
            | |- context [match ?x with (_, _) => _ end] => destruct x as [[?|?] ?]
            end; try done).
    unfold mret, M_ret. by intros [= <- _]. }
  split; [done|].
  split; [rewrite Hf4; subst w3; simpl; by rewrite Hf2, Hf1|].
  split; [rewrite Ho4; subst w3; simpl; by rewrite Ho2, Ho1|]. split.
  { intros r' Hr'. rewrite Hs4, Hs3 by done.
    rewrite lookup_insert_ne by done. rewrite Hs2, Hs1.
    by rewrite lookup_insert_ne. }
  split; [done|]. split.
  - intros k Hk. rewrite Hk4 by (by intros [? _]%elem_of_difference).
    unfold content_of at 1. rewrite Hs3, lookup_insert_eq. simpl.
    rewrite lookup_insert_ne; [done|]. intros <-. apply Hk. by vm_compute.
  - rewrite Hk4
      by (intros [_ H]%elem_of_difference; apply H; by apply elem_of_singleton).
    unfold content_of at 1. rewrite Hs3, lookup_insert_eq. simpl.
    by rewrite lookup_insert_eq.
Qed.

End ComposerSpec.

(** C6. For every architecture, prefix and optimisation tier the composer
    returns, and what it returns is a new object, not [os.environ]: the
    items of [os.environ], and of every object that existed, are after the
    call what they were before, and the new object has the items of
    [os.environ] for every variable the composer does not set. *)
Theorem composer_leaves_environ (cfg : config) (use_aggressive_opts : bool) (w : world) :
  is_Some (w_store w !! environ_ref) →
  ∃ env w',
    setup_build_environment cfg use_aggressive_opts w = (Ok env, w') ∧
    env ≠ environ_ref ∧
    w_store w !! env = None ∧
    w_store w' !! environ_ref = w_store w !! environ_ref ∧
    (∀ r, is_Some (w_store w !! r) → w_store w' !! r = w_store w !! r) ∧
    is_Some (w_store w' !! env) ∧
    (∀ k, k ∉ composed_keys →
          content_of w' env !! k = content_of w environ_ref !! k).
Proof.
  intros Henv.
  destruct (setup_build_environment_spec cfg use_aggressive_opts w)
    as (w' & E & _ & _ & Hs & He & Hk & _).
  pose proof (fresh_ref_new w) as Hnew.
  assert (∀ r, is_Some (w_store w !! r) → r ≠ fresh (dom (w_store w))) as Hne.
  { intros r [x Hx] ->. by rewrite Hnew in Hx. }
  exists (fresh (dom (w_store w))), w'.
  split; [done|]. split; [intros Heq; by apply (Hne environ_ref)|].
  split; [done|]. split; [by apply Hs, Hne|].
  split; [intros r Hr; by apply Hs, Hne|]. done.
Qed.

Lemma composer_leaves_environ_witness :
  ∃ env w',
    setup_build_environment bare_config true bare_world = (Ok env, w') ∧
    w_store w' !! environ_ref = w_store bare_world !! environ_ref.
Proof.
  destruct (composer_leaves_environ bare_config true bare_world)
    as (env & w' & E & _ & _ & H & _).
  - exists (w_store bare_world !!! environ_ref). by vm_compute.
  - by exists env, w'.
Defined.

(** ** The de-duplication loop *)

Section UniqueFacts.

Lemma unique_loop_acc (l : list string) (seen : gset string) (acc : list string) :
  unique_loop l seen acc = (acc ++ unique_loop l seen [])%list.
Proof.
  revert seen acc. induction l as [|p l IH]; intros seen acc; simpl.
  - by rewrite app_nil_r.
  - destruct (truthy p && bool_decide (p ∉ seen)); [|done].
    rewrite (IH _ (acc ++ [p])%list), (IH _ [p]). by rewrite <- app_assoc.
Qed.

Lemma truthy_ne (p : string) : truthy p = true ↔ p ≠ "".
Proof. by destruct p. Qed.

Lemma unique_loop_elem (l : list string) (seen : gset string) (p : string) :
  p ∈ unique_loop l seen [] ↔ p ∈ l ∧ p ≠ "" ∧ p ∉ seen.
Proof.
  revert seen. induction l as [|x l IH]; intros seen; simpl.
  - rewrite elem_of_nil. tauto.
  - destruct (truthy x && bool_decide (x ∉ seen)) eqn:E.
    + apply andb_prop in E as [Hx Hs]. apply truthy_ne in Hx.
      apply bool_decide_eq_true in Hs.
      rewrite unique_loop_acc, elem_of_app, list_elem_of_singleton, IH, elem_of_cons.
      rewrite not_elem_of_union, not_elem_of_singleton.
      split.
      * intros [-> | (? & ? & ? & ?)]; auto.
      * intros ([-> | ?] & ? & ?); auto.
        destruct (decide (p = x)) as [->|]; auto.
    + rewrite IH, elem_of_cons. split; [tauto|].
      intros ([-> | ?] & Hp & Hs); [|tauto].
      apply truthy_ne in Hp. rewrite Hp in E. simpl in E.
      by apply bool_decide_eq_false in E.
Qed.

(** The result repeats no entry. *)
Lemma unique_loop_NoDup (l : list string) (seen : gset string) :
  NoDup (unique_loop l seen []).
Proof.
  revert seen. induction l as [|x l IH]; intros seen; simpl; [constructor|].
  destruct (truthy x && bool_decide (x ∉ seen)); [|done].
  rewrite unique_loop_acc. simpl. constructor; [|done].
  rewrite unique_loop_elem. intros (_ & _ & H). apply H. set_solver.
Qed.

(** The result keeps the order in which the entries are first seen: an
    entry at the end is appended when it is new, and dropped otherwise. *)
Lemma unique_loop_snoc (l : list string) (seen : gset string) (p : string) :
  unique_loop (l ++ [p]) seen [] =
  (unique_loop l seen [] ++
   if truthy p && bool_decide (p ∉ seen) && bool_decide (p ∉ l) then [p] else [])%list.
Proof.
  revert seen. induction l as [|x l IH]; intros seen; simpl.
  - by rewrite andb_true_r.
  - destruct (truthy x && bool_decide (x ∉ seen)) eqn:E.
    + rewrite unique_loop_acc, (unique_loop_acc l _ [x]), IH, <- app_assoc.
      do 2 f_equal. destruct (truthy p); simpl; [|done].
      apply andb_prop in E as [_ Hs]. apply bool_decide_eq_true in Hs.
      destruct (decide (p = x)) as [->|Hne].
      * rewrite (bool_decide_eq_false_2 (x ∉ {[x]} ∪ seen)) by set_solver.
        rewrite (bool_decide_eq_false_2 (x ∉ x :: l)) by set_solver.
        by rewrite andb_false_r.
      * rewrite (bool_decide_ext (p ∉ {[x]} ∪ seen) (p ∉ seen)) by set_solver.
        by rewrite (bool_decide_ext (p ∉ x :: l) (p ∉ l)) by set_solver.
    + rewrite IH. f_equal. destruct (truthy p) eqn:Hp; simpl; [|done].
      destruct (decide (p = x)) as [->|Hne].
      * rewrite Hp in E. simpl in E. rewrite E. simpl.
        by destruct (bool_decide (x ∉ l)).
      * by rewrite (bool_decide_ext (p ∉ x :: l) (p ∉ l)) by set_solver.
Qed.

Lemma unique_loop_id (l : list string) (seen : gset string) :
  NoDup l → (∀ p, p ∈ l → p ≠ "" ∧ p ∉ seen) → unique_loop l seen [] = l.
Proof.
  revert seen. induction l as [|x l IH]; intros seen Hnd Hl; simpl; [done|].
  apply NoDup_cons in Hnd as [Hx Hnd].
  destruct (Hl x) as [Hne Hs]; [set_solver|].
  apply truthy_ne in Hne. rewrite Hne, (bool_decide_eq_true_2 _ Hs). simpl.
  rewrite unique_loop_acc. simpl. f_equal. apply IH; [done|].
  intros p Hp. destruct (Hl p) as [? ?]; [set_solver|]. split; [done|].
  apply not_elem_of_union. split; [|done].
  apply not_elem_of_singleton. by intros ->.
Qed.

(** De-duplicating what is de-duplicated changes nothing. *)
Lemma unique_paths_idempotent (l : list string) :
  unique_paths_of (unique_paths_of l) = unique_paths_of l.
Proof.
  unfold unique_paths_of. apply unique_loop_id; [apply unique_loop_NoDup|].
  intros p Hp. apply unique_loop_elem in Hp as (_ & ? & ?). done.
Qed.

End UniqueFacts.

(** C7 (the defect). The loop de-duplicates the list of components, but
    the inherited [PATH] is appended to that list as one component and is
    never split: on a machine without Homebrew, with the [PATH] the module
    assigns when it is loaded, the composed search path lists
    [/opt/homebrew/bin] and [/usr/local/bin] twice. *)
Theorem composed_path_repeats_entries :
  ∃ env w',
    setup_build_environment bare_config false bare_world = (Ok env, w') ∧
    content_of w' env !! "PATH" =
      Some "/opt/homebrew/bin:/usr/local/bin:/opt/homebrew/bin:/usr/local/bin:/usr/bin:/bin:/usr/sbin:/sbin:/Users/dev/.cargo/bin" ∧
    ¬ NoDup (Str.split ":" (default "" (content_of w' env !! "PATH"))) ∧
    unique_paths_of ["A"; "B"; "A"; "C"] = ["A"; "B"; "C"].
Proof.
  destruct (setup_build_environment_spec bare_config false bare_world)
    as (w' & E & _ & _ & _ & _ & _ & Hpath).
  exists (fresh (dom (w_store bare_world))), w'.
  split; [done|]. rewrite Hpath.
  split; [by vm_compute|]. split; [|by vm_compute].
  vm_compute. intros [H _]%NoDup_cons. apply H.
  apply elem_of_cons. right. apply elem_of_cons. by left.
Qed.

(** ** Instances *)

Lemma build_system_by_major_witness :
  select_build_system "v26.0" = CMake ∧ select_build_system "v0.21.1" = Autotools.
Proof.
  destruct build_system_by_major as (H & _). split.
  - apply (H "v26.0"). by vm_compute.
  - apply (H "v0.21.1"). by vm_compute.
Defined.

Lemma unparsable_tag_defaults_witness :
  parse_version "v25" = (0, 0) ∧ select_build_system "v25" = Autotools.
Proof.
  destruct (unparsable_tag_defaults "v25") as (Hp & _ & _ & Hs).
  - intros H. apply re_match_version_complete in H as (g1 & g2 & H).
    vm_compute in H. discriminate H.
  - by split.
Defined.

Lemma rc_tags_excluded_witness :
  let w := world_with_http
             (HttpResponse 200 (Some (release_list ["v30.0rc1"; "v29.1"]))) in
  (get_bitcoin_versions w).1 = Ok ["v29.1"] ∧ "v30.0rc1" ∉ ["v29.1"].
Proof.
  intros w. assert ((get_bitcoin_versions w).1 = Ok ["v29.1"]) as E by (by vm_compute).
  split; [done|].
  destruct (rc_tags_excluded "v30.0rc1") as (_ & H & _).
  - exists "v30.0", "r"%char, "c"%char, "1". split; [reflexivity|]. auto.
  - by apply (H w).
Defined.

Lemma catalog_fail_soft_witness :
  (get_bitcoin_versions (world_with_http (HttpRaises (RequestException "timed out")))).1 = Ok [] ∧
  (get_electrs_versions (world_with_http (HttpResponse 200 (Some (JObj [("message", JStr "rate limit")]))))).1 = Ok [].
Proof.
  split.
  - destruct (catalog_fail_soft (world_with_http (HttpRaises (RequestException "timed out"))))
      as (_ & _ & H & _).
    apply H. by vm_compute.
  - destruct (catalog_fail_soft (world_with_http
        (HttpResponse 200 (Some (JObj [("message", JStr "rate limit")])))))
      as (_ & _ & _ & H).
    apply H. vm_compute. right. eexists. reflexivity.
Defined.

(** ** The artefact collector *)

Section CollectorFacts.








Lemma log_spec (msg : string) (w : world) :
  ∃ w', log msg w = (Ok tt, w') ∧ same_session w w' ∧ w_fs w' = w_fs w ∧
        w_trace w' = if w_gui w then (w_trace w ++ [EvLog msg])%list else w_trace w.
Proof.
  unfold log, emit. destruct (w_gui w) eqn:E; eexists; (split; [reflexivity|]);
    unfold same_session; simpl; auto.
Qed.












End CollectorFacts.

Section CollectorLoop.





(** What the making of directories does to the file system: a path is as
    it was, or it is one of the directories to make, was not there and is
    a directory. *)
Lemma make_dirs_fs (ps : list string) (w w1 : world) (r : result unit) :
  make_dirs ps w = (r, w1) →
  ∀ p, w_fs w1 !! p = w_fs w !! p ∨
       (p ∈ ps ∧ w_fs w !! p = None ∧ w_fs w1 !! p = Some Dir).
Proof.
  revert w. induction ps as [|x rest IH]; intros w; simpl.
  - intros [= _ <-]. auto.
  - rewrite (bind_ok get_world _ w w w eq_refl).
    destruct (w_fs w !! x) as [[content mode|]|] eqn:Hx.
    + intros [= _ <-]. auto.
    + intros H p. destruct (IH _ H p) as [E|(Hin & Hn & Hd)]; [auto|].
      right. split; [by apply elem_of_cons; right | done].
    + destruct (refusal w (Mkdir x)); [intros [= _ <-]; auto|].
      rewrite (bind_ok (set_fs _) _ w _ tt eq_refl). intros H p.
      destruct (IH _ H p) as [E|(Hin & Hn & Hd)]; simpl in *.
      * destruct (decide (p = x)) as [->|Hne].
        -- right. rewrite E, lookup_insert_eq. split; [by apply elem_of_cons; left | done].
        -- left. by rewrite E, lookup_insert_ne.
      * right. split; [by apply elem_of_cons; right|]. split; [|done].
        destruct (decide (p = x)) as [->|Hne]; [done|].
        by rewrite lookup_insert_ne in Hn.
Qed.

Lemma makedirs_fs (d : string) (w w1 : world) (r : result unit) :
  makedirs d w = (r, w1) →
  ∀ p, w_fs w1 !! p = w_fs w !! p ∨
       (p ∈ (parents d ++ [d])%list ∧ w_fs w !! p = None ∧ w_fs w1 !! p = Some Dir).
Proof.
  unfold makedirs. destruct d; [intros [= _ <-]; auto | apply make_dirs_fs].
Qed.






End CollectorLoop.




(** ** Computations that run no shell command *)

Section QuietFacts.

Lemma shell_commands_app (t1 t2 : list event) :
  shell_commands (t1 ++ t2) = (shell_commands t1 ++ shell_commands t2)%list.
Proof. apply omap_app. Qed.

Lemma shell_runs_app (t1 t2 : list event) :
  shell_runs (t1 ++ t2) = (shell_runs t1 ++ shell_runs t2)%list.
Proof. apply omap_app. Qed.

(** The commands of a trace are those of its runs. *)
Lemma shell_commands_runs (t : list event) :
  shell_commands t = map fst (shell_runs t).
Proof.
  induction t as [|e t IH]; [done|].
  destruct e; simpl; try done. by rewrite <- IH.
Qed.

Lemma quiet_commands {A} (m : M A) (w w' : world) (r : result A) :
  quiet m → m w = (r, w') →
  shell_commands (w_trace w') = shell_commands (w_trace w).
Proof. intros Hq E. rewrite !shell_commands_runs. by rewrite (Hq _ _ _ E). Qed.

Lemma quiet_ret {A} (a : A) : quiet (mret a).
Proof. by intros w r w' [= <- <-]. Qed.

Lemma quiet_raise {A} (e : exn) : quiet (raise e : M A).
Proof. by intros w r w' [= <- <-]. Qed.

Lemma quiet_bind {A B} (m : M A) (k : A → M B) :
  quiet m → (∀ a, quiet (k a)) → quiet (m ≫= k).
Proof.
  intros Hm Hk w r w'. unfold mbind, M_bind.
  destruct (m w) as [[a|e] w1] eqn:E.
  - intros H. apply Hk in H. apply Hm in E. congruence.
  - intros [= <- <-]. by apply Hm in E.
Qed.

Lemma quiet_try {A} (m : M A) (h : exn → M A) :
  quiet m → (∀ e, quiet (h e)) → quiet (try_except m h).
Proof.
  intros Hm Hh w r w'. unfold try_except.
  destruct (m w) as [[a|e] w1] eqn:E.
  - intros [= <- <-]. by apply Hm in E.
  - intros H. apply Hh in H. apply Hm in E. congruence.
Qed.

Lemma quiet_log (msg : string) : quiet (log msg).
Proof.
  intros w r w' H. apply log_frame in H as (_ & _ & _ & _ & _ & [-> | ->]); [done|].
  by rewrite shell_runs_app, app_nil_r.
Qed.

Lemma quiet_pure {A} (m : M A) :
  (∀ w, w_trace (m w).2 = w_trace w) → quiet m.
Proof. intros H w r w' E. specialize (H w). rewrite E in H. simpl in H. by rewrite H. Qed.

Lemma quiet_get_world : quiet get_world.
Proof. by apply quiet_pure. Qed.

Lemma quiet_set_fs (f : fs) : quiet (set_fs f).
Proof. by apply quiet_pure. Qed.

Lemma quiet_dict_copy (r : ref) : quiet (dict_copy r).
Proof. by apply quiet_pure. Qed.

Lemma quiet_dict_set (r : ref) (k v : string) : quiet (dict_set r k v).
Proof. by apply quiet_pure. Qed.

Lemma quiet_dict_items (r : ref) : quiet (dict_items r).
Proof. by apply quiet_pure. Qed.

Lemma quiet_dict_get_default (r : ref) (k v : string) : quiet (dict_get_default r k v).
Proof. by apply quiet_pure. Qed.

Lemma quiet_dict_has (r : ref) (k : string) : quiet (dict_has r k).
Proof. by apply quiet_pure. Qed.

Lemma quiet_dict_getitem (r : ref) (k : string) : quiet (dict_getitem r k).
Proof.
  apply quiet_pure. intros w. unfold dict_getitem. by destruct (_ !! k).
Qed.

Lemma quiet_path_exists (p : string) : quiet (path_exists p).
Proof. by apply quiet_pure. Qed.

Lemma quiet_emit (e : event) :
  (∀ cmd cwd env answer, e ≠ EvShell cmd cwd env answer) → quiet (emit e).
Proof.
  intros He w r w' [= <- <-]. simpl. rewrite shell_runs_app.
  destruct e; simpl; try by rewrite app_nil_r. by destruct (He cmd cwd env answer).
Qed.

Lemma quiet_set_flags (env : ref) (flags : list (string * string)) :
  quiet (set_flags env flags).
Proof.
  induction flags as [|[key value] rest IH]; simpl; [apply quiet_ret|].
  apply quiet_bind; [|done].
  destruct (truthy value); [|apply quiet_ret].
  apply quiet_bind; [apply quiet_dict_set | intros; apply quiet_log].
Qed.

Lemma quiet_setup_build_environment (cfg : config) (use_aggressive_opts : bool) :
  quiet (setup_build_environment cfg use_aggressive_opts).
Proof.
  unfold setup_build_environment.
  apply quiet_bind; [apply quiet_dict_copy | intros env].
  apply quiet_bind; [destruct (BREW_PREFIX cfg); [apply quiet_ret | apply quiet_log] | intros _].
  apply quiet_bind; [apply quiet_get_world | intros w].
  apply quiet_bind; [apply quiet_dict_get_default | intros inherited].
  apply quiet_bind; [apply quiet_dict_set | intros _].
  apply quiet_bind.
  { destruct (existing_dirs _ _); [apply quiet_ret|].
    apply quiet_bind; [|intros _]; apply quiet_dict_set. }
  intros _. apply quiet_bind; [apply quiet_set_flags | intros; apply quiet_ret].
Qed.

Lemma quiet_banner (cfg : config) (title : string) (use_aggressive_opts : bool) :
  quiet (banner cfg title use_aggressive_opts).
Proof.
  unfold banner. repeat (apply quiet_bind; [apply quiet_log | intros _]).
  apply quiet_log.
Qed.

Lemma quiet_subprocess_run (argv : list string) (cwd : option string) (env : option ref) :
  quiet (subprocess_run argv cwd env).
Proof.
  unfold subprocess_run.
  apply quiet_bind; [apply quiet_dict_items | intros items].
  apply quiet_bind; [apply quiet_get_world | intros w].
  apply quiet_bind; [by apply quiet_emit | intros _].
  destruct (o_spawn _ _ _ _ _ _) as [answer f].
  apply quiet_bind; [apply quiet_set_fs | intros _].
  destruct answer; [apply quiet_raise | apply quiet_ret].
Qed.

Lemma quiet_askyesno (title : string) : quiet (askyesno title).
Proof.
  unfold askyesno.
  apply quiet_bind; [apply quiet_get_world | intros w].
  apply quiet_bind; [by apply quiet_emit | intros; apply quiet_ret].
Qed.

Lemma quiet_showerror (title message : string) : quiet (showerror title message).
Proof. by apply quiet_emit. Qed.

Lemma quiet_reraise_logged {A} (what : string) (e : exn) :
  quiet (reraise_logged what e : M A).
Proof.
  unfold reraise_logged. repeat (apply quiet_bind; [apply quiet_log | intros _]).
  apply quiet_raise.
Qed.

End QuietFacts.

(** ** The integrity verifier *)

Section VerifierFacts.

Lemma subprocess_run_spec (argv : list string) (cwd : option string)
  (env : option ref) (w : world) :
  subprocess_run argv cwd env w =
  (match spawn_answer w argv cwd env with
   | LaunchError e => Raise e
   | Exited returncode stdout => Ok (returncode, Str.universal_newlines stdout)
   end, after_spawn w argv cwd env).
Proof.
  unfold subprocess_run, spawn_answer, after_spawn, content_of,
    mbind, M_bind, dict_items, get_world, emit, set_fs, raise, mret, M_ret.
  simpl. destruct (o_spawn _ _ _ _ _ _) as [[e|rc out] f]; reflexivity.
Qed.

Lemma commits_agree_iff (head tag : proc_result) :
  commits_agree head tag = true ↔
  ∃ out1 out2, head = Exited 0 out1 ∧ tag = Exited 0 out2 ∧
               commit_of out1 = commit_of out2.
Proof.
  split.
  - destruct head as [|[] out1], tag as [|[] out2]; try done. simpl.
    intros H%String.eqb_eq. eauto.
  - intros (out1 & out2 & -> & -> & H). simpl. by apply String.eqb_eq.
Qed.

(** The verifier never raises, and answers whether the two commits
    agree. *)
Lemma verify_git_commit_spec (repo_dir expected_tag : string) (w : world) :
  ∃ w', verify_git_commit repo_dir expected_tag w =
          (Ok (verified w repo_dir expected_tag), w').
Proof.
  unfold verify_git_commit, try_except, verified, tag_answer.
  pose proof (subprocess_run_spec ["git"; "rev-parse"; "HEAD"] (Some repo_dir) None w) as E1.
  fold (head_answer w repo_dir) in E1.
  set (w1 := after_spawn w ["git"; "rev-parse"; "HEAD"] (Some repo_dir) None) in *.
  destruct (head_answer w repo_dir) as [e|rc out1].
  { rewrite (bind_raise _ _ _ _ _ E1). cbv beta iota.
    match goal with |- context [log ?m] => destruct (log_ok m w1) as [w2 El] end.
    rewrite (bind_ok _ _ _ _ _ El). by exists w2. }
  rewrite (bind_ok _ _ _ _ _ E1). cbv beta iota.
  destruct (Z.eqb_spec rc 0) as [->|Hrc]; simpl.
  2:{ match goal with |- context [log ?m] => destruct (log_ok m w1) as [w2 El] end.
      rewrite (bind_ok _ _ _ _ _ El). exists w2. by destruct rc. }
  pose proof (subprocess_run_spec ["git"; "rev-list"; "-n"; "1"; expected_tag]
                (Some repo_dir) None w1) as E2.
  set (w2 := after_spawn w1 _ _ _) in *.
  destruct (spawn_answer w1 _ _ _) as [e|rc out2].
  { rewrite (bind_raise _ _ _ _ _ E2). cbv beta iota.
    match goal with |- context [log ?m] => destruct (log_ok m w2) as [w3 El] end.
    rewrite (bind_ok _ _ _ _ _ El). by exists w3. }
  rewrite (bind_ok _ _ _ _ _ E2). cbv beta iota.
  destruct (Z.eqb_spec rc 0) as [->|Hrc]; simpl.
  2:{ match goal with |- context [log ?m] => destruct (log_ok m w2) as [w3 El] end.
      rewrite (bind_ok _ _ _ _ _ El). exists w3. by destruct rc. }
  fold (commit_of out1) (commit_of out2).
  destruct (String.eqb (commit_of out1) (commit_of out2)).
  - match goal with |- context [log ?m ≫= _] => destruct (log_ok m w2) as [w3 El] end.
    rewrite (bind_ok _ _ _ _ _ El).
    match goal with |- context [log ?m ≫= _] => destruct (log_ok m w3) as [w4 El'] end.
    rewrite (bind_ok _ _ _ _ _ El'). by exists w4.
  - match goal with |- context [log ?m ≫= _] => destruct (log_ok m w2) as [w3 El] end.
    rewrite (bind_ok _ _ _ _ _ El).
    match goal with |- context [log ?m ≫= _] => destruct (log_ok m w3) as [w4 El'] end.
    rewrite (bind_ok _ _ _ _ _ El').
    match goal with |- context [log ?m ≫= _] => destruct (log_ok m w4) as [w5 El''] end.
    rewrite (bind_ok _ _ _ _ _ El''). by exists w5.
Qed.

End VerifierFacts.

Section GateFacts.

Lemma quiet_verify_git_commit (repo_dir expected_tag : string) :
  quiet (verify_git_commit repo_dir expected_tag).
Proof.
  unfold verify_git_commit. apply quiet_try.
  - apply quiet_bind; [apply quiet_subprocess_run | intros [rc out]].
    destruct (negb _).
    { apply quiet_bind; [apply quiet_log | intros; apply quiet_ret]. }
    apply quiet_bind; [apply quiet_subprocess_run | intros [rc' out']].
    destruct (negb _).
    { apply quiet_bind; [apply quiet_log | intros; apply quiet_ret]. }
    destruct (String.eqb _ _);
      repeat (apply quiet_bind; [apply quiet_log | intros _]); apply quiet_ret.
  - intros e. apply quiet_bind; [apply quiet_log | intros; apply quiet_ret].
Qed.

Lemma quiet_verify_source_integrity (repo_dir project_name version : string) :
  quiet (verify_source_integrity repo_dir project_name version).
Proof.
  unfold verify_source_integrity.
  apply quiet_bind; [apply quiet_log | intros _].
  apply quiet_bind; [apply quiet_verify_git_commit | intros []].
  - apply quiet_bind; [apply quiet_log | intros; apply quiet_ret].
  - apply quiet_bind; [apply quiet_log | intros _].
    apply quiet_bind; [apply quiet_askyesno | intros; apply quiet_ret].
Qed.

Lemma quiet_integrity_gate (src_dir project_name version : string) :
  quiet (integrity_gate src_dir project_name version).
Proof.
  unfold integrity_gate.
  apply quiet_bind; [apply quiet_verify_source_integrity | intros []].
  - apply quiet_ret.
  - apply quiet_bind; [apply quiet_log | intros; apply quiet_raise].
Qed.

(** Computations that ask nothing. *)
Lemma asked_app (t1 t2 : list event) :
  asked (t1 ++ t2) = (asked t1 ++ asked t2)%list.
Proof. apply omap_app. Qed.

Lemma asks_nothing_ret {A} (a : A) : asks_nothing (mret a).
Proof.
  intros w r w' [= <- <-]. split; [done|]. exists []. by rewrite app_nil_r.
Qed.

Lemma asks_nothing_bind {A B} (m : M A) (k : A → M B) :
  asks_nothing m → (∀ a, asks_nothing (k a)) → asks_nothing (m ≫= k).
Proof.
  intros Hm Hk w r w'. unfold mbind, M_bind.
  destruct (m w) as [[a|e] w1] eqn:E.
  - intros H. destruct (Hm _ _ _ E) as (Ho1 & t1 & Ht1 & Ha1).
    destruct (Hk a _ _ _ H) as (Ho2 & t2 & Ht2 & Ha2).
    split; [congruence|]. exists (t1 ++ t2)%list.
    rewrite Ht2, Ht1, <- app_assoc. split; [done|].
    by rewrite asked_app, Ha1, Ha2.
  - intros [= <- <-]. by apply (Hm _ _ _ E).
Qed.

Lemma asks_nothing_try {A} (m : M A) (h : exn → M A) :
  asks_nothing m → (∀ e, asks_nothing (h e)) → asks_nothing (try_except m h).
Proof.
  intros Hm Hh w r w'. unfold try_except.
  destruct (m w) as [[a|e] w1] eqn:E.
  - intros [= <- <-]. by apply (Hm _ _ _ E).
  - intros H. destruct (Hm _ _ _ E) as (Ho1 & t1 & Ht1 & Ha1).
    destruct (Hh e _ _ _ H) as (Ho2 & t2 & Ht2 & Ha2).
    split; [congruence|]. exists (t1 ++ t2)%list.
    rewrite Ht2, Ht1, <- app_assoc. split; [done|].
    by rewrite asked_app, Ha1, Ha2.
Qed.

Lemma asks_nothing_log (msg : string) : asks_nothing (log msg).
Proof.
  intros w r w'. unfold log, emit. destruct (w_gui w); intros [= <- <-]; simpl.
  - split; [done|]. by exists [EvLog msg].
  - split; [done|]. exists []. by rewrite app_nil_r.
Qed.

Lemma asks_nothing_subprocess_run (argv : list string) (cwd : option string)
  (env : option ref) : asks_nothing (subprocess_run argv cwd env).
Proof.
  intros w r w'. rewrite subprocess_run_spec. intros [= <- <-].
  unfold after_spawn. simpl. split; [done|]. by eexists [_].
Qed.

Lemma asks_nothing_verify_git_commit (repo_dir expected_tag : string) :
  asks_nothing (verify_git_commit repo_dir expected_tag).
Proof.
  unfold verify_git_commit. apply asks_nothing_try.
  - apply asks_nothing_bind; [apply asks_nothing_subprocess_run | intros [rc out]].
    destruct (negb _).
    { apply asks_nothing_bind; [apply asks_nothing_log | intros; apply asks_nothing_ret]. }
    apply asks_nothing_bind; [apply asks_nothing_subprocess_run | intros [rc' out']].
    destruct (negb _).
    { apply asks_nothing_bind; [apply asks_nothing_log | intros; apply asks_nothing_ret]. }
    destruct (String.eqb _ _);
      repeat (apply asks_nothing_bind; [apply asks_nothing_log | intros _]);
      apply asks_nothing_ret.
  - intros e.
    apply asks_nothing_bind; [apply asks_nothing_log | intros; apply asks_nothing_ret].
Qed.

(** The check of a checkout, up to the question: the header is logged and
    the two commits are compared. *)
Lemma integrity_check_quiet (repo_dir project_name version : string) (w : world) :
  asks_nothing
    (log (verifying_message project_name);; verify_git_commit repo_dir version).
Proof.
  apply asks_nothing_bind; [apply asks_nothing_log | intros _].
  apply asks_nothing_verify_git_commit.
Qed.

(** A verified checkout is let through without a question.  For any other
    the user is asked, once and by this call, and the answer of the
    outside is the result. *)
Lemma verify_source_integrity_spec (repo_dir project_name version : string) (w : world) :
  let w0 := after_log w (verifying_message project_name) in
  ∃ b w', verify_source_integrity repo_dir project_name version w = (Ok b, w') ∧
          w_out w' = w_out w ∧
          (verified w0 repo_dir version = true →
           b = true ∧
           ∃ added, w_trace w' = (w_trace w ++ added)%list ∧ asked added = []) ∧
          (verified w0 repo_dir version = false →
           ∃ before,
             w_trace w' = (w_trace w ++ before ++
                           [EvAskYesNo verification_title b])%list ∧
             asked before = [] ∧
             b = o_askyesno (w_out w) (w_trace w ++ before)%list verification_title).
Proof.
  intros w0. unfold verify_source_integrity.
  destruct (asks_nothing_log _ _ _ _ (log_after (verifying_message project_name) w))
    as (Ho0 & t0 & Ht0 & Ha0). fold w0 in Ho0, Ht0.
  rewrite (bind_ok _ _ _ _ _ (log_after _ w)). fold w0.
  destruct (verify_git_commit_spec repo_dir version w0) as [w1 E1].
  destruct (asks_nothing_verify_git_commit _ _ _ _ _ E1) as (Ho1 & t1 & Ht1 & Ha1).
  rewrite (bind_ok _ _ _ _ _ E1).
  destruct (verified w0 repo_dir version).
  - match goal with |- context [log ?m] =>
      destruct (asks_nothing_log _ _ _ _ (log_after m w1)) as (Ho2 & t2 & Ht2 & Ha2);
      rewrite (bind_ok _ _ _ _ _ (log_after m w1)) end.
    eexists _, _. split; [reflexivity|]. split; [congruence|]. split; [|done].
    intros _. split; [done|]. exists (t0 ++ t1 ++ t2)%list.
    rewrite Ht2, Ht1, Ht0, <- !app_assoc. split; [done|].
    by rewrite !asked_app, Ha0, Ha1, Ha2.
  - match goal with |- context [log ?m] =>
      destruct (asks_nothing_log _ _ _ _ (log_after m w1)) as (Ho2 & t2 & Ht2 & Ha2);
      rewrite (bind_ok _ _ _ _ _ (log_after m w1)) end.
    unfold askyesno, mbind, M_bind, get_world, emit, mret, M_ret. simpl.
    eexists _, _. split; [reflexivity|]. simpl. split; [congruence|]. split; [done|].
    intros _. exists (t0 ++ t1 ++ t2)%list.
    rewrite Ht2, Ht1, Ht0, <- !app_assoc. split; [done|].
    split; [by rewrite !asked_app, Ha0, Ha1, Ha2|].
    by rewrite Ho2, Ho1, Ho0.
Qed.

(** The gate lets the pipeline through when the checkout is verified, and
    then asks nothing; otherwise it asks the user, once, and lets the
    pipeline through when the answer is yes and raises when it is no. *)
Lemma integrity_gate_spec (src_dir project_name version : string) (w : world) :
  let w0 := after_log w (verifying_message project_name) in
  ∃ r w', integrity_gate src_dir project_name version w = (r, w') ∧
          (verified w0 src_dir version = true →
           r = Ok tt ∧
           ∃ added, w_trace w' = (w_trace w ++ added)%list ∧ asked added = []) ∧
          (verified w0 src_dir version = false →
           ∃ before answer after,
             w_trace w' = (w_trace w ++ before ++
                           [EvAskYesNo verification_title answer] ++ after)%list ∧
             asked before = [] ∧ asked after = [] ∧
             answer = o_askyesno (w_out w) (w_trace w ++ before)%list
                        verification_title ∧
             r = if answer then Ok tt else Raise verification_failed).
Proof.
  intros w0. unfold integrity_gate.
  destruct (verify_source_integrity_spec src_dir project_name version w)
    as (b & w1 & E & Ho & Hv & Hask).
  fold w0 in Hv, Hask. rewrite (bind_ok _ _ _ _ _ E).
  destruct b.
  - eexists _, _. split; [reflexivity|]. split.
    + intros Ht. by destruct (Hv Ht).
    + intros Hf. destruct (Hask Hf) as (before & Ht & Ha & Hb).
      exists before, true, []. by rewrite app_nil_r.
  - match goal with |- context [log ?m] =>
      destruct (asks_nothing_log _ _ _ _ (log_after m w1)) as (Ho2 & t2 & Ht2 & Ha2);
      rewrite (bind_ok _ _ _ _ _ (log_after m w1)) end.
    eexists _, _. split; [reflexivity|]. split.
    + intros Ht. by destruct (Hv Ht).
    + intros Hf. destruct (Hask Hf) as (before & Ht & Ha & Hb).
      exists before, false, t2. simpl. rewrite Ht2, Ht, <- !app_assoc. done.
Qed.

Lemma reraise_logged_spec {A} (what : string) (e : exn) (w : world) :
  ∃ w', (reraise_logged what e : M A) w = (Raise e, w') ∧
        shell_commands (w_trace w') = shell_commands (w_trace w).
Proof.
  unfold reraise_logged.
  rewrite (bind_ok _ _ _ _ _ (log_after _ w)).
  rewrite (bind_ok _ _ _ _ _ (log_after _ _)).
  eexists. split; [reflexivity|].
  etrans; [eapply quiet_commands; [apply quiet_log | apply log_after]|].
  eapply quiet_commands; [apply quiet_log | apply log_after].
Qed.

End GateFacts.

(** C4. The verifier never raises and returns true exactly when both calls
    of [git] exit with status 0 and print the same commit: a mismatch, a
    call that exits with another status and a call that raises all give
    false.  The gate of the
    pipelines lets a verified checkout through and then asks nothing; for
    any other it asks the user the question of the verification warning,
    once and in this very call, and does what the outside answers to that
    question: it returns when the answer is yes and raises the
    verification failure when it is no.  When the gate raises, either
    pipeline raises the same and runs no command after the checkout. *)
Theorem integrity_gate_closed (cfg : config) (version build_dir : string)
  (cores : N) (use_aggressive_opts : bool) :
  (∀ (repo_dir expected_tag : string) (w : world),
     (∃ w', verify_git_commit repo_dir expected_tag w =
              (Ok (verified w repo_dir expected_tag), w')) ∧
     (verified w repo_dir expected_tag = true ↔
      ∃ out1 out2,
        head_answer w repo_dir = Exited 0 out1 ∧
        tag_answer w repo_dir expected_tag = Exited 0 out2 ∧
        commit_of out1 = commit_of out2)) ∧
  (∀ (src_dir project_name : string) (w : world),
     ∃ r w',
       integrity_gate src_dir project_name version w = (r, w') ∧
       (verified (after_log w (verifying_message project_name)) src_dir version = true →
        r = Ok tt ∧
        ∃ added, w_trace w' = (w_trace w ++ added)%list ∧ asked added = []) ∧
       (verified (after_log w (verifying_message project_name)) src_dir version = false →
        ∃ before answer after,
          w_trace w' = (w_trace w ++ before ++
                        [EvAskYesNo verification_title answer] ++ after)%list ∧
          asked before = [] ∧ asked after = [] ∧
          answer = o_askyesno (w_out w) (w_trace w ++ before)%list
                     verification_title ∧
          r = if answer then Ok tt else Raise verification_failed)) ∧
  (∀ (w w1 w2 : world) (e : exn),
     bitcoin_checkout cfg version build_dir use_aggressive_opts w = (Ok tt, w1) →
     integrity_gate (source_dir build_dir "bitcoin" version) "Bitcoin Core" version w1
       = (Raise e, w2) →
     ∃ w', compile_bitcoin_source cfg version build_dir cores use_aggressive_opts w
             = (Raise e, w') ∧
           shell_commands (w_trace w') = shell_commands (w_trace w1)) ∧
  (∀ (w w1 w2 w3 w4 : world) (env : ref) (e : exn),
     electrs_prepare cfg version use_aggressive_opts w = (Ok env, w1) →
     check_rust_toolchain env w1 = (Ok tt, w2) →
     electrs_checkout version build_dir env w2 = (Ok tt, w3) →
     integrity_gate (source_dir build_dir "electrs" version) "Electrs" version w3
       = (Raise e, w4) →
     ∃ w', compile_electrs_source cfg version build_dir cores use_aggressive_opts w
             = (Raise e, w') ∧
           shell_commands (w_trace w') = shell_commands (w_trace w3)).
Proof.
  split; [|split; [|split]].
  - intros repo_dir expected_tag w. split.
    + apply verify_git_commit_spec.
    + apply commits_agree_iff.
  - intros src_dir project_name w. apply integrity_gate_spec.
  - intros w w1 w2 e Hc Hg. unfold compile_bitcoin_source, try_except.
    rewrite (bind_ok _ _ _ _ _ Hc), (bind_raise _ _ _ _ _ Hg).
    destruct (reraise_logged_spec (A := string) "Bitcoin" e w2) as (w' & -> & Hq).
    exists w'. split; [done|]. rewrite Hq.
    by eapply quiet_commands; [apply quiet_integrity_gate|].
  - intros w w1 w2 w3 w4 env e Hp Hc Ha Hg.
    unfold compile_electrs_source, try_except.
    rewrite (bind_ok _ _ _ _ _ Hp), (bind_ok _ _ _ _ _ Hc),
      (bind_ok _ _ _ _ _ Ha), (bind_raise _ _ _ _ _ Hg).
    destruct (reraise_logged_spec (A := string) "Electrs" e w4) as (w' & -> & Hq).
    exists w'. split; [done|]. rewrite Hq.
    by eapply quiet_commands; [apply quiet_integrity_gate|].
Qed.

Lemma integrity_gate_closed_witness :
  ∃ w', compile_bitcoin_source bare_config "v25.0" "/builds" 4 false tampered_world
          = (Raise verification_failed, w') ∧
        asked (w_trace w') = [(verification_title, false)] ∧
        shell_commands (w_trace w') =
          ["git clone --depth 1 --branch v25.0 https://github.com/bitcoin/bitcoin.git /builds/bitcoin-25.0"].
Proof.
  destruct (bitcoin_checkout bare_config "v25.0" "/builds" false tampered_world)
    as [r1 w1] eqn:E1.
  assert (r1 = Ok tt) as -> by (by vm_compute in E1; injection E1 as <- _).
  destruct (integrity_gate (source_dir "/builds" "bitcoin" "v25.0") "Bitcoin Core"
              "v25.0" w1) as [r2 w2] eqn:E2.
  assert (r2 = Raise verification_failed) as ->.
  { vm_compute in E1. injection E1 as <-. vm_compute in E2. by injection E2 as <- _. }
  destruct (integrity_gate_closed bare_config "v25.0" "/builds" 4 false)
    as (_ & _ & H & _).
  destruct (H tampered_world w1 w2 verification_failed E1 E2) as (w' & E & _).
  exists w'. split; [done|].
  assert (w' = (compile_bitcoin_source bare_config "v25.0" "/builds" 4 false
                  tampered_world).2) as -> by (by rewrite E).
  split; by vm_compute.
Defined.

(** ** The check of the Rust toolchain *)

Section ToolchainFacts.

Lemma quiet_check_rust_toolchain (env : ref) : quiet (check_rust_toolchain env).
Proof.
  unfold check_rust_toolchain.
  apply quiet_bind; [apply quiet_log | intros _].
  apply quiet_bind; [apply quiet_subprocess_run | intros [rc out]].
  apply quiet_bind.
  { destruct (negb _); [|apply quiet_ret].
    apply quiet_bind; [apply quiet_dict_getitem | intros path].
    apply quiet_bind; [apply quiet_log | intros _].
    apply quiet_bind; [apply quiet_showerror | intros _; apply quiet_raise]. }
  intros _. apply quiet_bind; [apply quiet_log | intros _].
  apply quiet_bind; [apply quiet_subprocess_run | intros [rc' out']].
  destruct (_ =? _)%Z; apply quiet_log.
Qed.

Lemma quiet_electrs_prepare (cfg : config) (version : string) (use_aggressive_opts : bool) :
  quiet (electrs_prepare cfg version use_aggressive_opts).
Proof.
  unfold electrs_prepare, electrs_environment.
  apply quiet_bind; [apply quiet_banner | intros _].
  apply quiet_bind; [apply quiet_setup_build_environment | intros env].
  apply quiet_bind; [apply quiet_set_flags | intros _; apply quiet_ret].
Qed.

Lemma dict_getitem_spec (r : ref) (key : string) (w : world) :
  dict_getitem r key w =
  (match content_of w r !! key with
   | Some v => Ok v
   | None => Raise (KeyError key)
   end, w).
Proof. unfold dict_getitem, content_of. by destruct (_ !! key). Qed.

(** What the check does, by the answers of the two probes. *)
Lemma check_rust_toolchain_spec (env : ref) (w : world) :
  match cargo_probe w env with
  | LaunchError e =>
      check_rust_toolchain env w = (Raise e, after_cargo_probe w env)
  | Exited (Zpos _ | Zneg _) _ =>
      ∃ e w', check_rust_toolchain env w = (Raise e, w') ∧
              (is_Some (content_of w env !! "PATH") → e = cargo_not_found)
  | Exited 0 stdout =>
      match rustc_probe w env stdout with
      | LaunchError e =>
          check_rust_toolchain env w = (Raise e, after_rustc_probe w env stdout)
      | Exited _ _ =>
          ∃ w', check_rust_toolchain env w = (Ok tt, w')
      end
  end.
Proof.
  unfold check_rust_toolchain, cargo_probe, rustc_probe, after_cargo_probe,
    after_rustc_probe.
  rewrite (bind_ok _ _ _ _ _ (log_after _ w)).
  set (w0 := after_log w verifying_rust).
  pose proof (subprocess_run_spec ["cargo"; "--version"] None (Some env) w0) as E1.
  set (w1 := after_spawn w0 _ _ _) in *.
  destruct (spawn_answer w0 _ _ _) as [e|rc out].
  { by rewrite (bind_raise _ _ _ _ _ E1). }
  rewrite (bind_ok _ _ _ _ _ E1). cbv beta iota.
  assert (content_of w1 env = content_of w env) as Hc.
  { unfold content_of, w1, w0, after_spawn, after_log. simpl.
    destruct (log_spec verifying_rust w) as (w' & E & (Hs & _) & _).
    rewrite E. simpl. by rewrite Hs. }
  assert (∀ rc', (rc' =? 0)%Z = false →
            ∃ e w', ((if negb (rc' =? 0)%Z
                      then path ← dict_getitem env "PATH";
                           log ("❌ Cargo not found in PATH!

Electrs requires Rust/Cargo to compile.

Please:
1. Click 'Check & Install Dependencies' button
2. Ensure Rust is installed
3. Restart this application

Current PATH: " +:+ Str.take 200 path +:+ "...
");;
                           showerror "Rust Not Found" ("❌ Cargo not found in PATH!

Electrs requires Rust/Cargo to compile.

Please:
1. Click 'Check & Install Dependencies' button
2. Ensure Rust is installed
3. Restart this application

Current PATH: " +:+ Str.take 200 path +:+ "...
");;
                           raise cargo_not_found
                      else mret tt) : M unit) w1 = (Raise e, w') ∧
                    (is_Some (content_of w env !! "PATH") → e = cargo_not_found))
    as Hfail.
  { intros rc' ->. change (negb false) with true. cbv iota.
    pose proof (dict_getitem_spec env "PATH" w1) as Eg. rewrite Hc in Eg.
    destruct (content_of w env !! "PATH") as [path|] eqn:Hp.
    - rewrite (bind_ok _ _ _ _ _ Eg).
      rewrite (bind_ok _ _ _ _ _ (log_after _ w1)).
      unfold showerror, emit, raise, mbind, M_bind. simpl.
      eexists _, _. split; [reflexivity|]. done.
    - rewrite (bind_raise _ _ _ _ _ Eg).
      eexists _, _. split; [reflexivity|]. by intros [? ?]. }
  destruct rc as [|p|p].
  - change (negb (0 =? 0)%Z) with false. cbv iota.
    rewrite (bind_ok (mret tt) _ w1 w1 tt eq_refl).
    rewrite (bind_ok _ _ _ _ _ (log_after _ w1)).
    set (w2 := after_log w1 (cargo_found (Str.universal_newlines out))).
    pose proof (subprocess_run_spec ["rustc"; "--version"] None (Some env) w2) as E2.
    destruct (spawn_answer w2 _ _ _) as [e|rc' out'].
    + by rewrite (bind_raise _ _ _ _ _ E2).
    + rewrite (bind_ok _ _ _ _ _ E2). cbv beta iota.
      destruct (rc' =? 0)%Z; rewrite log_after; eauto.
  - destruct (Hfail (Z.pos p) eq_refl) as (e & w' & E & He).
    exists e, w'. split; [|done]. by rewrite (bind_raise _ _ _ _ _ E).
  - destruct (Hfail (Z.neg p) eq_refl) as (e & w' & E & He).
    exists e, w'. split; [|done]. by rewrite (bind_raise _ _ _ _ _ E).
Qed.

End ToolchainFacts.

(** C3 (as amended). Before anything is fetched or built the indexer
    pipeline runs [cargo --version] and then [rustc --version] in the
    composed environment.  If [cargo] cannot be launched the check raises
    the launch error; if it exits with another status than 0 the check
    raises, and what it raises is the toolchain failure whenever the
    environment has a [PATH]; if [rustc] cannot be launched the check
    raises the launch error; if [rustc] is launched, whatever its exit
    status, the check returns and the pipeline goes on.  When the check
    raises, the pipeline raises the same and has run no shell command. *)
Theorem toolchain_checked_before_build (cfg : config) (version build_dir : string)
  (cores : N) (use_aggressive_opts : bool) :
  (∀ (env : ref) (w : world),
     match cargo_probe w env with
     | LaunchError e =>
         check_rust_toolchain env w = (Raise e, after_cargo_probe w env)
     | Exited (Zpos _ | Zneg _) _ =>
         ∃ e w', check_rust_toolchain env w = (Raise e, w') ∧
                 (is_Some (content_of w env !! "PATH") → e = cargo_not_found)
     | Exited 0 stdout =>
         match rustc_probe w env stdout with
         | LaunchError e =>
             check_rust_toolchain env w = (Raise e, after_rustc_probe w env stdout)
         | Exited _ _ =>
             ∃ w', check_rust_toolchain env w = (Ok tt, w')
         end
     end) ∧
  (∀ (w w1 w2 : world) (env : ref) (e : exn),
     electrs_prepare cfg version use_aggressive_opts w = (Ok env, w1) →
     check_rust_toolchain env w1 = (Raise e, w2) →
     ∃ w', compile_electrs_source cfg version build_dir cores use_aggressive_opts w
             = (Raise e, w') ∧
           shell_commands (w_trace w') = shell_commands (w_trace w)).
Proof.
  split; [apply check_rust_toolchain_spec|].
  intros w w1 w2 env e Hp Hc. unfold compile_electrs_source, try_except.
  rewrite (bind_ok _ _ _ _ _ Hp), (bind_raise _ _ _ _ _ Hc).
  destruct (reraise_logged_spec (A := string) "Electrs" e w2) as (w' & -> & Hq).
  exists w'. split; [done|]. rewrite Hq.
  etrans; [by eapply quiet_commands; [apply quiet_check_rust_toolchain|]|].
  by eapply quiet_commands; [apply quiet_electrs_prepare|].
Qed.

Lemma toolchain_checked_before_build_witness :
  ∃ w', compile_electrs_source bare_config "v0.10.5" "/builds" 4 false no_rust_world
          = (Raise (FileNotFoundError "cargo"), w') ∧
        shell_commands (w_trace w') = [].
Proof.
  destruct (toolchain_checked_before_build bare_config "v0.10.5" "/builds" 4 false)
    as (_ & H).
  destruct (electrs_prepare bare_config "v0.10.5" false no_rust_world)
    as [r1 w1] eqn:E1.
  assert (∃ env, r1 = Ok env) as [env ->].
  { vm_compute in E1. injection E1 as <- _. eauto. }
  destruct (check_rust_toolchain env w1) as [r2 w2] eqn:E2.
  assert (r2 = Raise (FileNotFoundError "cargo")) as ->.
  { vm_compute in E1. injection E1 as <- <-. vm_compute in E2. by injection E2 as <- _. }
  destruct (H no_rust_world w1 w2 env _ E1 E2) as (w' & E & Hs).
  exists w'. split; [done|]. by rewrite Hs.
Defined.

(** C3 (the counterexample). With [cargo] in place and a [rustc] whose
    version probe fails, the pipeline does not abort: it fetches the
    source, runs the release build and returns the output directory. *)
Lemma rustc_probe_not_asserted :
  let run := compile_electrs_source bare_config "v0.10.5" "/builds" 4 false
               broken_rustc_world in
  (∃ env w1 out,
     electrs_prepare bare_config "v0.10.5" false broken_rustc_world = (Ok env, w1) ∧
     cargo_probe w1 env = Exited 0 out ∧
     rustc_probe w1 env out = Exited 1 "" ∧
     probe_ok (rustc_probe w1 env out) = false) ∧
  run.1 = Ok "/builds/binaries/electrs-0.10.5" ∧
  cargo_build_command 4 ∈ shell_commands (w_trace run.2).
Proof.
  split; [|split].
  - destruct (electrs_prepare bare_config "v0.10.5" false broken_rustc_world)
      as [r1 w1] eqn:E1.
    vm_compute in E1. injection E1 as <- <-.
    eexists _, _, _. split; [reflexivity|]. by vm_compute.
  - by vm_compute.
  - vm_compute. apply elem_of_cons. right. by apply list_elem_of_singleton.
Qed.

(** * Further properties *)

(** ** The catalogue on a well-formed listing *)

Section ListingFacts.

Lemma fields_lookup_absent (key : string) (fields : list (string * json)) :
  key ∉ map fst fields → fields_lookup key fields = None.
Proof.
  induction fields as [|[k v] rest IH]; [done|]. cbn [map fst fields_lookup].
  intros [Hk Hrest]%not_elem_of_cons. rewrite (IH Hrest).
  by destruct (String.eqb_spec k key) as [->|].
Qed.

(** The value of a key is that of its last field. *)
Lemma fields_lookup_last (key : string) (v : json)
  (before after : list (string * json)) :
  key ∉ map fst after →
  fields_lookup key (before ++ (key, v) :: after) = Some v.
Proof.
  intros Hafter. induction before as [|[k' v'] before IH].
  - cbn [app fields_lookup]. rewrite (fields_lookup_absent _ _ Hafter).
    by rewrite String.eqb_refl.
  - cbn [app fields_lookup]. by rewrite IH.
Qed.

Lemma collect_tags_record (cap : nat) (rel : json) (t : string) (rels : list json)
  (acc : list string) :
  carries_tag rel t →
  collect_tags cap (rel :: rels) acc =
  if is_rc t then collect_tags cap rels acc
  else if Nat.eqb (length (acc ++ [t])) cap then Ok (acc ++ [t])%list
       else collect_tags cap rels (acc ++ [t])%list.
Proof.
  intros (before & after & -> & Hafter). cbn [collect_tags json_getitem].
  by rewrite (fields_lookup_last _ _ _ _ Hafter).
Qed.

Lemma collect_tags_listing (cap : nat) (rels : list json) (tags acc : list string) :
  carries rels tags → (length acc < cap)%nat →
  collect_tags cap rels acc = Ok (take cap (acc ++ stable_tags tags)).
Proof.
  intros Hc. revert acc. induction Hc as [|rel t rels tags' Ht Hc IH]; intros acc Hlen.
  - simpl. unfold stable_tags.
    rewrite filter_nil, app_nil_r. by rewrite take_ge by lia.
  - rewrite (collect_tags_record _ _ t) by done. unfold stable_tags.
    destruct (is_rc t) eqn:Hrc.
    + rewrite filter_cons_False by (by rewrite Hrc). by apply IH.
    + rewrite filter_cons_True by done.
      destruct (Nat.eqb_spec (length (acc ++ [t])) cap) as [Heq|Hne].
      * f_equal.
        change (acc ++ t :: filter (λ t0, is_rc t0 = false) tags')%list
          with (acc ++ [t] ++ filter (λ t0, is_rc t0 = false) tags')%list.
        rewrite app_assoc, take_app_le by lia. by rewrite take_ge by lia.
      * rewrite IH by (rewrite ?length_app in *; simpl in *; lia).
        by rewrite <- app_assoc.
Qed.

Lemma fetch_json_answers (w : world) (url : string) (j : json) :
  answers w url j → (fetch_json url w).1 = Ok j.
Proof. intros (status & E & Hs). by rewrite fetch_json_result, E, Hs. Qed.

(** Once [cap] tags are collected the loop stops: what follows in the
    listing is not read. *)
Lemma collect_tags_stops (cap : nat) (well : list json) (tags acc : list string)
  (rest : list json) :
  carries well tags →
  (length acc < cap)%nat → (cap ≤ length (acc ++ stable_tags tags))%nat →
  collect_tags cap (well ++ rest) acc = Ok (take cap (acc ++ stable_tags tags)).
Proof.
  intros Hc. revert acc.
  induction Hc as [|rel t well tags' Ht Hc IH]; intros acc Hlen Hcap.
  - unfold stable_tags in Hcap. rewrite filter_nil, app_nil_r in Hcap. lia.
  - cbn [app]. rewrite (collect_tags_record _ _ t) by done.
    unfold stable_tags in *. destruct (is_rc t) eqn:Hrc.
    + rewrite filter_cons_False in * by (by rewrite Hrc). by apply IH.
    + rewrite filter_cons_True in * by done.
      change (acc ++ t :: filter (λ t0, is_rc t0 = false) tags')%list
        with (acc ++ [t] ++ filter (λ t0, is_rc t0 = false) tags')%list in *.
      rewrite app_assoc in *.
      destruct (Nat.eqb_spec (length (acc ++ [t])) cap) as [Heq|Hne].
      * f_equal. rewrite take_app_le by lia. by rewrite take_ge by lia.
      * apply IH; [|done]. rewrite length_app in *. simpl in *. lia.
Qed.

(** The records of the examples carry their tags. *)
Lemma release_records_carry (tags : list string) :
  carries (release_records tags) tags.
Proof.
  induction tags as [|t tags IH]; constructor; [|done].
  eexists [_; _], [_; _; _; _]. split; [reflexivity|].
  cbn [map fst]. rewrite !not_elem_of_cons. repeat split; try done.
  apply not_elem_of_nil.
Qed.

End ListingFacts.

(** X1. When the service answers with a listing of records that carry
    tags, whatever other fields they hold, the indexer catalogue is the
    first three of these tags, in upstream order, that are not release
    candidates. *)
Theorem electrs_versions_first_three (w : world) (tags : list string) :
  serves w ELECTRS_API tags →
  (get_electrs_versions w).1 = Ok (take 3 (stable_tags tags)).
Proof.
  intros (rels & Ha & Hc).
  rewrite get_electrs_versions_result, (fetch_json_answers _ _ _ Ha).
  unfold electrs_versions_of. cbv beta iota delta [json_iter].
  by rewrite (collect_tags_listing _ _ tags) by (done || simpl; lia).
Qed.

Lemma electrs_versions_first_three_witness :
  (get_electrs_versions
     (world_with_http (HttpResponse 200 (Some (JArr (release_records
        ["v0.10.6"; "v0.10.6-rc1"; "v0.10.5"; "v0.10.4"; "v0.10.3"])))))).1
  = Ok ["v0.10.6"; "v0.10.5"; "v0.10.4"].
Proof.
  rewrite (electrs_versions_first_three _
             ["v0.10.6"; "v0.10.6-rc1"; "v0.10.5"; "v0.10.4"; "v0.10.3"]).
  - by vm_compute.
  - eexists (release_records _). split; [|apply release_records_carry].
  exists 200. by vm_compute.
Defined.

(** ** The grouping dictionary, exactly *)

Section GroupingExact.

Lemma dict_get_raise (key : string) (d : groups) (e : exn) :
  dict_get key d = Raise e → e = KeyError key.
Proof.
  induction d as [|[k v] d IH]; simpl; [congruence|].
  destruct (String.eqb k key); [done | auto].
Qed.

Lemma group_step_other_eq (d : groups) (tag key : string) :
  tag_key tag ≠ key → dict_get key (group_step d tag) = dict_get key d.
Proof.
  unfold group_step, tag_key. destruct (parse_version tag) as [major minor].
  intros Hne. rewrite dict_get_append_ne by done.
  destruct (dict_mem (group_key major minor) d); [done|].
  rewrite dict_get_snoc. destruct (dict_get key d) as [tags|e] eqn:E; [done|].
  apply String.eqb_neq in Hne. rewrite Hne.
  by apply dict_get_raise in E as ->.
Qed.

Lemma group_tags_snoc (all : list string) (t : string) :
  group_tags (all ++ [t]) = group_step (group_tags all) t.
Proof. unfold group_tags. by rewrite fold_left_app. Qed.

Lemma group_of_snoc (key : string) (all : list string) (t : string) :
  group_of key (all ++ [t]) =
  (group_of key all ++ if decide (tag_key t = key) then [t] else [])%list.
Proof.
  unfold group_of. by rewrite filter_app.
Qed.

(** The dictionary the grouping loop builds holds, under each key, the
    tags of that key in the order they were collected, and no key without
    a tag. *)
Lemma group_tags_get (all : list string) (key : string) :
  dict_get key (group_tags all) =
  match group_of key all with
  | [] => Raise (KeyError key)
  | g => Ok g
  end.
Proof.
  induction all as [|t all IH] using rev_ind; [done|].
  rewrite group_tags_snoc, group_of_snoc.
  destruct (decide (tag_key t = key)) as [E|E].
  - subst key.
    destruct (group_step_own (group_tags all) t) as (old & -> & [Hold|[Hno ->]]).
    + rewrite IH in Hold. destruct (group_of (tag_key t) all) as [|x g]; [done|].
      by injection Hold as <-.
    + rewrite (dict_mem_false_get _ _ Hno) in IH.
      by destruct (group_of (tag_key t) all).
  - rewrite group_step_other_eq by done. by rewrite app_nil_r.
Qed.

Lemma dict_mem_keys (key : string) (d : groups) :
  dict_mem key d = true ↔ key ∈ map fst d.
Proof.
  induction d as [|[k v] d IH]; simpl.
  - split; [done | by intros ?%elem_of_nil].
  - rewrite elem_of_cons, orb_true_iff, IH, String.eqb_eq. naive_solver.
Qed.

Lemma dict_append_keys (key tag : string) (d : groups) :
  map fst (dict_append key tag d) = map fst d.
Proof.
  induction d as [|[k v] d IH]; simpl; [done|].
  destruct (String.eqb k key); simpl; [done | by rewrite IH].
Qed.

Lemma group_step_keys_NoDup (d : groups) (tag : string) :
  NoDup (map fst d) → NoDup (map fst (group_step d tag)).
Proof.
  unfold group_step. destruct (parse_version tag) as [major minor].
  rewrite dict_append_keys. intros Hd.
  destruct (dict_mem (group_key major minor) d) eqn:E; [done|].
  rewrite map_app. apply NoDup_app. split; [done|]. split.
  - intros k Hk [Hk'|[]%elem_of_nil]%elem_of_cons. simpl in Hk'. subst k.
    apply dict_mem_keys in Hk. congruence.
  - apply NoDup_singleton.
Qed.

Lemma group_tags_keys_NoDup (all : list string) :
  NoDup (map fst (group_tags all)).
Proof.
  induction all as [|t all IH] using rev_ind; [constructor|].
  rewrite group_tags_snoc. by apply group_step_keys_NoDup.
Qed.

Lemma group_of_nonempty (key : string) (all : list string) :
  group_of key all ≠ [] ↔ ∃ t, t ∈ all ∧ tag_key t = key.
Proof.
  unfold group_of. split.
  - destruct (filter _ all) as [|t g] eqn:E; [done|]. intros _. exists t.
    apply and_comm, (list_elem_of_filter (λ t, tag_key t = key)).
    rewrite E. left.
  - intros (t & Hin & Hk) E.
    assert (t ∈ filter (λ t, tag_key t = key) all) as H
      by (by apply list_elem_of_filter).
    rewrite E in H. by apply elem_of_nil in H.
Qed.

(** The keys of the dictionary are the keys of the collected tags. *)
Lemma group_tags_keys (all : list string) (key : string) :
  key ∈ map fst (group_tags all) ↔ ∃ t, t ∈ all ∧ tag_key t = key.
Proof.
  rewrite <- group_of_nonempty, <- dict_mem_keys. split.
  - intros [tags Ht]%dict_mem_get. rewrite group_tags_get in Ht.
    by destruct (group_of key all).
  - intros Hne. pose proof (group_tags_get all key) as Hg.
    destruct (group_of key all) as [|x g]; [done|]. by eapply dict_get_mem.
Qed.

End GroupingExact.

(** ** The keys and their order *)

Section KeyFacts.

Lemma split_cons (sep c : ascii) (s : string) :
  Str.split sep (String c s) =
  if Ascii.eqb c sep then "" :: Str.split sep s
  else match Str.split sep s with
       | w :: ws => String c w :: ws
       | [] => [String c ""]
       end.
Proof. reflexivity. Qed.

Lemma digit_not_dot (c : ascii) : Str.is_digit c = true → Ascii.eqb c "." = false.
Proof. intros H. destruct (Ascii.eqb_spec c ".") as [->|]; [discriminate H | done]. Qed.

Lemma split_digits (d : string) :
  Str.all_digits d = true → Str.split "." d = [d].
Proof.
  induction d as [|c d IH]; [done|]. simpl Str.all_digits.
  intros [Hc Hd]%andb_prop. by rewrite split_cons, (digit_not_dot c Hc), IH.
Qed.

Lemma split_digits_dot (d r : string) :
  Str.all_digits d = true →
  Str.split "." (d +:+ "." +:+ r) = d :: Str.split "." r.
Proof.
  induction d as [|c d IH].
  - intros _. by rewrite append_nil_l, append_cons, split_cons.
  - simpl Str.all_digits. intros [Hc Hd]%andb_prop.
    by rewrite append_cons, split_cons, (digit_not_dot c Hc), IH.
Qed.

Lemma int_py_str (n : N) : int_py (Str.str_of_int n) = Ok n.
Proof.
  unfold int_py. rewrite str_of_int_digits, int_of_str.
  by destruct (str_of_int_cons n) as (c & s & -> & _).
Qed.

(** A key is read back as the two numbers it was printed from. *)
Lemma key_tuple_group_key (major minor : N) :
  key_tuple (group_key major minor) = Ok [major; minor].
Proof.
  unfold key_tuple, group_key.
  rewrite split_digits_dot, split_digits by apply str_of_int_digits.
  simpl. by rewrite !int_py_str.
Qed.

Lemma key_pair_tag_key (t : string) : key_pair (tag_key t) = version_tuple t.
Proof.
  unfold key_pair, tag_key, version_tuple.
  destruct (parse_version t) as [major minor]. by rewrite key_tuple_group_key.
Qed.

Lemma version_tuple_inj (t t' : string) :
  version_tuple t = version_tuple t' → parse_version t = parse_version t'.
Proof.
  unfold version_tuple.
  destruct (parse_version t), (parse_version t'). by intros [= -> ->].
Qed.

Lemma tag_key_inj (t t' : string) :
  tag_key t = tag_key t' ↔ parse_version t = parse_version t'.
Proof.
  split.
  - intros H. apply version_tuple_inj. by rewrite <- !key_pair_tag_key, H.
  - unfold tag_key. by intros ->.
Qed.

Lemma tuple_leb_refl (a : list N) : tuple_leb a a = true.
Proof.
  induction a as [|x a IH]; simpl; [done|].
  by rewrite N.eqb_refl, IH, orb_true_r.
Qed.

Lemma tuple_leb_total (a b : list N) :
  tuple_leb a b = false → tuple_leb b a = true.
Proof.
  revert b. induction a as [|x a IH]; intros [|y b]; simpl; try done.
  intros [H1 H2]%orb_false_iff. apply N.ltb_ge in H1.
  destruct (N.eqb_spec x y) as [->|Hne].
  - simpl in H2. by rewrite N.eqb_refl, (IH _ H2), orb_true_r.
  - assert (y < x) as Hlt%N.ltb_lt by lia. by rewrite Hlt.
Qed.

Lemma tuple_leb_trans (a b c : list N) :
  tuple_leb a b = true → tuple_leb b c = true → tuple_leb a c = true.
Proof.
  revert b c. induction a as [|x a IH]; intros [|y b] [|z c]; simpl; try done.
  intros H1 H2. apply orb_true_iff in H1, H2. apply orb_true_iff.
  destruct H1 as [H1|[H1 H1']%andb_prop], H2 as [H2|[H2 H2']%andb_prop].
  - left. apply N.ltb_lt in H1, H2. apply N.ltb_lt. lia.
  - apply N.eqb_eq in H2 as <-. by left.
  - apply N.eqb_eq in H1 as ->. by left.
  - apply N.eqb_eq in H1 as ->. apply N.eqb_eq in H2 as ->.
    right. rewrite N.eqb_refl. simpl. by eapply IH.
Qed.

(** On two tags the order of the sort is the order of their versions. *)
Lemma tuple_leb_versions (t t' : string) :
  tuple_leb (version_tuple t) (version_tuple t') = true →
  parse_version t ≠ parse_version t' →
  newer_series t' t.
Proof.
  unfold newer_series, key_lt, version_tuple.
  destruct (parse_version t) as [a b], (parse_version t') as [c d]. simpl.
  intros H Hne. apply orb_true_iff in H as [H|[H1 H2]%andb_prop].
  - left. by apply N.ltb_lt.
  - apply N.eqb_eq in H1 as ->. right. split; [done|].
    apply orb_true_iff in H2 as [H2|[H2 _]%andb_prop]; [by apply N.ltb_lt|].
    apply N.eqb_eq in H2 as ->. done.
Qed.

End KeyFacts.

(** ** The stable descending sort *)

Section SortFacts.

Context {A : Type}.

Lemma insert_desc_sorted (x : list N * A) (l : list (list N * A)) :
  StronglySorted desc l → StronglySorted desc (insert_desc x l).
Proof.
  induction 1 as [|y l Hl IH Hy]; simpl.
  - repeat constructor.
  - destruct (tuple_leb y.1 x.1) eqn:E.
    + constructor; [by constructor|]. constructor; [done|].
      eapply Forall_impl; [done|]. intros z Hz. unfold desc in *.
      by eapply tuple_leb_trans.
    + constructor; [done|]. rewrite insert_desc_perm. constructor; [|done].
      by apply tuple_leb_total.
Qed.

Lemma fold_insert_sorted (l : list (list N * A)) :
  StronglySorted desc (fold_right insert_desc [] l).
Proof.
  induction l as [|x l IH]; simpl; [constructor | by apply insert_desc_sorted].
Qed.

(** Elements with one and the same key are left as they come. *)
Lemma fold_insert_same_key (c : list N) (l : list (list N * A)) :
  Forall (λ x, x.1 = c) l → fold_right insert_desc [] l = l.
Proof.
  induction 1 as [|x l Hx Hl IH]; simpl; [done|]. rewrite IH.
  destruct Hl as [|y l Hy Hl]; simpl; [done|].
  by rewrite Hx, Hy, tuple_leb_refl.
Qed.

End SortFacts.

(** ** The selection, exactly *)

Section SelectionExact.

Lemma map_result_ok {A B} (f : A → result B) (g : A → B) (l : list A) :
  Forall (λ a, f a = Ok (g a)) l → map_result f l = Ok (map g l).
Proof.
  induction 1 as [|a l Ha Hl IH]; simpl; [done|]. by rewrite Ha, IH.
Qed.

Lemma strongly_sorted_impl {A} (R R' : relation A) (l : list A) :
  (∀ x y, x ∈ l → y ∈ l → R x y → R' x y) →
  StronglySorted R l → StronglySorted R' l.
Proof.
  intros HR Hl. induction Hl as [|x l Hl IH Hx]; [constructor|].
  constructor.
  - apply IH. intros y z Hy Hz. apply HR; by right.
  - apply Forall_forall. intros y Hy. apply HR; [left | by right |].
    by eapply Forall_forall in Hx.
Qed.

Lemma strongly_sorted_NoDup {A} (R : relation A) (l : list A) :
  StronglySorted R l → NoDup l → StronglySorted (λ x y, R x y ∧ x ≠ y) l.
Proof.
  induction 1 as [|x l Hl IH Hx]; [constructor|].
  intros [Hnin Hnd]%NoDup_cons. constructor; [by apply IH|].
  apply Forall_forall. intros y Hy. split.
  - by eapply Forall_forall in Hx.
  - by intros ->.
Qed.

Lemma strongly_sorted_take {A} (R : relation A) (n : nat) (l : list A) :
  StronglySorted R l → StronglySorted R (take n l).
Proof.
  intros Hl. rewrite <- (take_drop n l) in Hl.
  by apply StronglySorted_app_1_l in Hl.
Qed.

Variable all : list string.

Lemma sorted_keys_perm : sorted_keys all ≡ₚ map fst (group_tags all).
Proof.
  unfold sorted_keys. by rewrite sorted_desc_perm, map_map, map_id.
Qed.

Lemma sorted_keys_elem (key : string) :
  key ∈ sorted_keys all ↔ ∃ t, t ∈ all ∧ tag_key t = key.
Proof. by rewrite sorted_keys_perm, group_tags_keys. Qed.

Lemma sorted_keys_NoDup : NoDup (sorted_keys all).
Proof. rewrite sorted_keys_perm. apply group_tags_keys_NoDup. Qed.

(** The sorted keys are strictly descending. *)
Lemma sorted_keys_sorted : StronglySorted key_above (sorted_keys all).
Proof.
  apply (strongly_sorted_NoDup (λ k k', tuple_leb (key_pair k') (key_pair k) = true));
    [|apply sorted_keys_NoDup].
  unfold sorted_keys, sorted_desc.
  pose proof (fold_insert_sorted
    (map (λ k, (key_pair k, k)) (map fst (group_tags all)))) as Hs.
  assert (Forall (λ x : list N * string, x.1 = key_pair x.2)
            (fold_right insert_desc []
               (map (λ k, (key_pair k, k)) (map fst (group_tags all))))) as Hf.
  { apply Forall_forall. intros x Hx.
    assert (fold_right insert_desc []
              (map (λ k, (key_pair k, k)) (map fst (group_tags all)))
            ≡ₚ map (λ k, (key_pair k, k)) (map fst (group_tags all))) as Hp.
    { generalize (map (λ k, (key_pair k, k)) (map fst (group_tags all))).
      intros l. induction l as [|y l IH]; simpl; [done|].
      by rewrite insert_desc_perm, IH. }
    rewrite Hp in Hx. apply list_elem_of_fmap in Hx as (k & -> & _). done. }
  revert Hs Hf.
  generalize (fold_right insert_desc []
    (map (λ k, (key_pair k, k)) (map fst (group_tags all)))).
  intros l Hs. induction Hs as [|x l Hl IH Hx]; intros Hf; simpl; [constructor|].
  apply Forall_cons in Hf as [Hx1 Hf]. constructor; [by apply IH|].
  apply Forall_forall. intros k [y [-> Hy]]%list_elem_of_fmap.
  eapply Forall_forall in Hx; [|done]. eapply Forall_forall in Hf; [|done].
  unfold desc in Hx. by rewrite <- Hx1, <- Hf.
Qed.

(** The outer sort succeeds: every key is two numbers. *)
Lemma keys_are_pairs :
  map_result (λ k, match key_tuple k with
                   | Ok t => Ok (t, k)
                   | Raise e => Raise e
                   end) (map fst (group_tags all)) =
  Ok (map (λ k, (key_pair k, k)) (map fst (group_tags all))).
Proof.
  apply map_result_ok, Forall_forall. intros k Hk.
  apply group_tags_keys in Hk as (t & _ & <-).
  unfold key_pair, tag_key. destruct (parse_version t) as [major minor].
  by rewrite key_tuple_group_key.
Qed.

(** The inner sort leaves a group as it was collected. *)
Lemma group_sort_id (key : string) :
  sorted_desc (map (λ v, (version_tuple v, v)) (group_of key all)) =
  group_of key all.
Proof.
  unfold sorted_desc. rewrite (fold_insert_same_key (key_pair key)).
  - by rewrite map_map, map_id.
  - apply Forall_forall. intros x [t [-> Ht]]%list_elem_of_fmap. simpl.
    apply list_elem_of_filter in Ht as [<- _]. by rewrite key_pair_tag_key.
Qed.

Lemma first_filed_spec (key : string) :
  key ∈ sorted_keys all →
  ∃ g, group_of key all = first_filed all key :: g.
Proof.
  intros Hk%sorted_keys_elem%group_of_nonempty. unfold first_filed.
  destruct (group_of key all) as [|x g]; [done|]. by exists g.
Qed.

Lemma select_latest_exact (cap : nat) (keys acc : list string) :
  (length acc < cap)%nat →
  Forall (λ k, k ∈ sorted_keys all) keys →
  select_latest cap (group_tags all) keys acc =
  Ok (take cap (acc ++ map (first_filed all) keys)).
Proof.
  intros Hlen Hkeys. revert acc Hlen.
  induction Hkeys as [|k keys Hk Hkeys IH]; intros acc Hlen.
  - simpl. by rewrite app_nil_r, take_ge by lia.
  - cbn [select_latest]. destruct (first_filed_spec k Hk) as [g Hg].
    rewrite group_tags_get, Hg. cbv beta iota.
    rewrite <- Hg, group_sort_id, Hg.
    cbn [map]. set (x := first_filed all k).
    change (acc ++ x :: map (first_filed all) keys)%list
      with (acc ++ [x] ++ map (first_filed all) keys)%list.
    rewrite app_assoc.
    destruct (Nat.eqb_spec (length (acc ++ [x])) cap) as [Heq|Hne].
    + f_equal. rewrite take_app_le by lia. by rewrite take_ge by lia.
    + apply IH. rewrite length_app in *. simpl in *. lia.
Qed.

(** On a listing of release records the node-daemon catalogue is made of
    the first tag filed under each of the five greatest keys. *)
Lemma bitcoin_versions_exact (rels : list json) (tags : list string) :
  carries rels tags →
  all = collected tags →
  bitcoin_versions_of (JArr rels) =
  Ok (map (first_filed all) (take 5 (sorted_keys all))).
Proof.
  intros Hc Hall. unfold bitcoin_versions_of.
  cbv beta iota delta [json_iter].
  rewrite (collect_tags_listing _ _ tags) by (done || simpl; lia). rewrite app_nil_l.
  fold (collected tags). rewrite <- Hall. cbv beta iota zeta.
  rewrite keys_are_pairs. fold (sorted_keys all).
  rewrite select_latest_exact.
  - by rewrite app_nil_l, <- fmap_take.
  - simpl. lia.
  - by apply Forall_forall.
Qed.

End SelectionExact.

Section CatalogueFacts.

Lemma head_group_first (all : list string) (key t : string) :
  head (group_of key all) = Some t →
  t ∈ all ∧ tag_key t = key ∧ first_of_series all t.
Proof.
  unfold group_of, first_of_series. induction all as [|x l IH]; [done|].
  destruct (decide (tag_key x = key)) as [E|E].
  - rewrite filter_cons_True by done. intros [= ->].
    split; [left|]. split; [done|].
    simpl. unfold same_group. by rewrite bool_decide_eq_true_2.
  - rewrite filter_cons_False by done. intros (Hin & Hk & Hf)%IH.
    split; [by right|]. split; [done|]. simpl.
    unfold same_group at 1. rewrite bool_decide_eq_false_2; [done|].
    intros Hpv%tag_key_inj. congruence.
Qed.

Lemma first_filed_first (all : list string) (key : string) :
  key ∈ sorted_keys all →
  first_filed all key ∈ all ∧ tag_key (first_filed all key) = key ∧
  first_of_series all (first_filed all key).
Proof.
  intros [g Hg]%first_filed_spec. apply head_group_first. by rewrite Hg.
Qed.

Lemma bitcoin_versions_served (w : world) (tags : list string) :
  serves w BITCOIN_API tags →
  (get_bitcoin_versions w).1 =
  Ok (map (first_filed (collected tags)) (take 5 (sorted_keys (collected tags)))).
Proof.
  intros (rels & Ha & Hc).
  rewrite get_bitcoin_versions_result, (fetch_json_answers _ _ _ Ha).
  by rewrite (bitcoin_versions_exact (collected tags) rels tags).
Qed.

Lemma taken_key (all : list string) (n : nat) (key : string) :
  key ∈ take n (sorted_keys all) → key ∈ sorted_keys all.
Proof. apply subseteq_take. Qed.

(** The tags picked for two keys are in the order of the keys. *)
Lemma first_filed_order (all : list string) (k k' : string) :
  k ∈ sorted_keys all → k' ∈ sorted_keys all → key_above k k' →
  newer_series (first_filed all k) (first_filed all k').
Proof.
  intros (_ & Hk & _)%first_filed_first (_ & Hk' & _)%first_filed_first [Hle Hne].
  apply tuple_leb_versions.
  - by rewrite <- !key_pair_tag_key, Hk, Hk'.
  - intros Hpv%tag_key_inj. congruence.
Qed.

End CatalogueFacts.

(** X2. When the service answers with a listing of records that carry
    tags, whatever other fields they hold, the node-daemon catalogue has
    at most five tags, all of them among the first twenty tags of the
    listing that are not release candidates, and they come newest series
    first: each tag has a greater [(major, minor)] than every tag after
    it, so no two of them are of one series. *)
Theorem bitcoin_versions_newest_first (w : world) (tags : list string) :
  serves w BITCOIN_API tags →
  ∃ out, (get_bitcoin_versions w).1 = Ok out ∧
         (length out ≤ 5)%nat ∧ out ⊆ collected tags ∧
         StronglySorted newer_series out.
Proof.
  intros Hs. eexists. split; [by apply bitcoin_versions_served|].
  set (all := collected tags). split; [|split].
  - rewrite length_map, length_take. lia.
  - intros t (k & -> & Hk%taken_key)%list_elem_of_fmap.
    by apply first_filed_first.
  - apply (StronglySorted_fmap _
      (λ k k', newer_series (first_filed all k) (first_filed all k'))); [done|].
    apply (strongly_sorted_impl key_above).
    + intros k k' Hk%taken_key Hk'%taken_key. by apply first_filed_order.
    + apply strongly_sorted_take, sorted_keys_sorted.
Qed.

Lemma bitcoin_versions_newest_first_witness :
  ∃ out,
    (get_bitcoin_versions
       (world_with_http (HttpResponse 200 (Some (JArr (release_records
          ["v28.1"; "v29.0"; "v29.0rc2"; "v27.2"; "v28.0"])))))).1 = Ok out ∧
    (length out ≤ 5)%nat ∧
    out ⊆ collected ["v28.1"; "v29.0"; "v29.0rc2"; "v27.2"; "v28.0"] ∧
    StronglySorted newer_series out.
Proof.
  apply (bitcoin_versions_newest_first _
           ["v28.1"; "v29.0"; "v29.0rc2"; "v27.2"; "v28.0"]).
  eexists (release_records _). split; [|apply release_records_carry].
  exists 200. by vm_compute.
Defined.

(** X3. Of each series the node-daemon catalogue returns the tag that comes
    first in the listing: when the service answers with a listing of
    records that carry tags, every returned tag is the first, among the
    first twenty tags that are not release candidates, with its major and
    minor number. *)
Theorem bitcoin_versions_first_listed (w : world) (tags : list string) :
  serves w BITCOIN_API tags →
  ∃ out, (get_bitcoin_versions w).1 = Ok out ∧
         Forall (first_of_series (collected tags)) out.
Proof.
  intros Hs. eexists. split; [by apply bitcoin_versions_served|].
  apply Forall_forall. intros t (k & -> & Hk%taken_key)%list_elem_of_fmap.
  by apply first_filed_first.
Qed.

Lemma bitcoin_versions_first_listed_witness :
  ∃ out,
    (get_bitcoin_versions
       (world_with_http (HttpResponse 200 (Some (JArr (release_records
          ["v28.1"; "v29.0"; "v29.0rc2"; "v27.2"; "v28.0"])))))).1 = Ok out ∧
    Forall (first_of_series
              (collected ["v28.1"; "v29.0"; "v29.0rc2"; "v27.2"; "v28.0"])) out.
Proof.
  apply (bitcoin_versions_first_listed _
           ["v28.1"; "v29.0"; "v29.0rc2"; "v27.2"; "v28.0"]).
  eexists (release_records _). split; [|apply release_records_carry].
  exists 200. by vm_compute.
Defined.

(** X4. The node-daemon catalogue leaves out no series but the oldest: when
    the service answers with a listing of records that carry tags, then
    for every tag among the first twenty that are not release candidates,
    either a tag of its series is returned, or five tags are returned and
    each of them is of a newer series. *)
Theorem bitcoin_versions_newest_kept (w : world) (tags : list string) :
  serves w BITCOIN_API tags →
  ∃ out, (get_bitcoin_versions w).1 = Ok out ∧
         ∀ t, t ∈ collected tags →
              (∃ t', t' ∈ out ∧ parse_version t' = parse_version t) ∨
              (length out = 5%nat ∧ Forall (λ t', newer_series t' t) out).
Proof.
  intros Hs. eexists. split; [by apply bitcoin_versions_served|].
  set (all := collected tags). intros t Ht.
  assert (tag_key t ∈ sorted_keys all) as Hk by (apply sorted_keys_elem; eauto).
  pose proof (sorted_keys_sorted all) as Hsorted.
  rewrite <- (take_drop 5 (sorted_keys all)) in Hk, Hsorted.
  apply elem_of_app in Hk as [Hk|Hk].
  - left. exists (first_filed all (tag_key t)). split.
    + apply list_elem_of_fmap. eauto.
    + apply tag_key_inj. by apply taken_key, first_filed_first in Hk as (_ & Hk & _).
  - right. split.
    + rewrite length_map, length_take.
      destruct (decide (5 ≤ length (sorted_keys all))%nat) as [|Hlt]; [lia|].
      rewrite drop_ge in Hk by lia. by apply elem_of_nil in Hk.
    + apply Forall_forall. intros t' (k & -> & Hk')%list_elem_of_fmap.
      pose proof (StronglySorted_app_1_elem_of _ _ _ _ _ Hsorted Hk' Hk) as [Hle Hne].
      apply taken_key, first_filed_first in Hk' as (_ & Hk' & _).
      apply tuple_leb_versions.
      * by rewrite <- !key_pair_tag_key, Hk'.
      * intros Hpv%tag_key_inj. congruence.
Qed.

Lemma bitcoin_versions_newest_kept_witness :
  ∃ out,
    (get_bitcoin_versions
       (world_with_http (HttpResponse 200 (Some (JArr (release_records
          ["v29.0"; "v28.1"; "v27.2"; "v26.2"; "v25.2"; "v24.2"; "v29.1"])))))).1
    = Ok out ∧
    ∀ t, t ∈ collected ["v29.0"; "v28.1"; "v27.2"; "v26.2"; "v25.2"; "v24.2"; "v29.1"] →
         (∃ t', t' ∈ out ∧ parse_version t' = parse_version t) ∨
         (length out = 5%nat ∧ Forall (λ t', newer_series t' t) out).
Proof.
  apply (bitcoin_versions_newest_kept _
           ["v29.0"; "v28.1"; "v27.2"; "v26.2"; "v25.2"; "v24.2"; "v29.1"]).
  eexists (release_records _). split; [|apply release_records_carry].
  exists 200. by vm_compute.
Defined.

(** X5. The indexer catalogue stops reading at the third tag it accepts:
    when the listing begins with records that carry tags, of which at
    least three are not release candidates, whatever follows them, well
    formed or not, does not change the result. *)
Theorem electrs_versions_stop_at_three (w : world) (well : list json)
  (tags : list string) (rest : list json) :
  answers w ELECTRS_API (JArr (well ++ rest)) →
  carries well tags →
  (3 ≤ length (stable_tags tags))%nat →
  (get_electrs_versions w).1 = Ok (take 3 (stable_tags tags)).
Proof.
  intros Ha Hc Hlen.
  rewrite get_electrs_versions_result, (fetch_json_answers _ _ _ Ha).
  unfold electrs_versions_of. cbv beta iota delta [json_iter].
  by rewrite (collect_tags_stops _ _ tags) by (done || simpl; lia).
Qed.

Lemma electrs_versions_stop_at_three_witness :
  (get_electrs_versions
     (world_with_http (HttpResponse 200 (Some (JArr
        (release_records ["v0.10.6"; "v0.10.5"; "v0.10.4"] ++
         [JNull; JObj [("name", JStr "v0.10.3")]])))))).1
  = Ok ["v0.10.6"; "v0.10.5"; "v0.10.4"].
Proof.
  rewrite (electrs_versions_stop_at_three _
             (release_records ["v0.10.6"; "v0.10.5"; "v0.10.4"])
             ["v0.10.6"; "v0.10.5"; "v0.10.4"]
             [JNull; JObj [("name", JStr "v0.10.3")]]).
  - by vm_compute.
  - exists 200. by vm_compute.
  - apply release_records_carry.
  - vm_compute. lia.
Defined.

(** ** Shell commands *)

Section ShellFacts.




Lemma after_log_frame (w : world) (msg : string) :
  w_fs (after_log w msg) = w_fs w ∧ w_store (after_log w msg) = w_store w ∧
  w_gui (after_log w msg) = w_gui w ∧ w_out (after_log w msg) = w_out w ∧
  w_trace (after_log w msg) =
    (w_trace w ++ if w_gui w then [EvLog msg] else [])%list.
Proof.
  unfold after_log, log, emit. destruct (w_gui w) eqn:E; simpl;
    rewrite ?app_nil_r; auto.
Qed.

Lemma log_lines_spec (ls : list string) (w : world) :
  ∃ w', log_lines ls w = (Ok tt, w') ∧
        w_fs w' = w_fs w ∧ w_store w' = w_store w ∧
        w_gui w' = w_gui w ∧ w_out w' = w_out w ∧
        w_trace w' = (w_trace w ++ if w_gui w then map EvLog ls else [])%list.
Proof.
  revert w. induction ls as [|line ls IH]; intros w.
  - exists w. split; [done|]. destruct (w_gui w); by rewrite app_nil_r.
  - cbn [log_lines]. rewrite (bind_ok _ _ _ _ _ (log_after line w)).
    destruct (after_log_frame w line) as (Hf & Hs & Hg & Ho & Ht).
    destruct (IH (after_log w line)) as (w' & -> & Hf' & Hs' & Hg' & Ho' & Ht').
    exists w'. split; [done|]. rewrite Hf', Hs', Hg', Ho', Ht', Ht, Hg.
    repeat (split; [done|]). destruct (w_gui w); [|by rewrite !app_nil_r].
    by rewrite <- app_assoc.
Qed.

(** What [run_command] does, by the answer of the outside. *)
Lemma run_command_spec (cmd : string) (cwd : option string) (env : option ref)
  (w : world) :
  ∃ w', run_command cmd cwd env w =
          (shell_outcome cmd (shell_answer w cmd cwd env).1, w') ∧
        w_fs w' = (shell_answer w cmd cwd env).2 ∧
        w_out w' = w_out w ∧ w_gui w' = w_gui w ∧
        (∀ r, is_Some (w_store w !! r) → w_store w' !! r = w_store w !! r) ∧
        w_trace w' =
          (w_trace (after_log w (command_line cmd)) ++
           [EvShell cmd cwd (content_of w (default environ_ref env))
              (shell_answer w cmd cwd env).1] ++
           if w_gui w
           then map EvLog (shell_lines (shell_answer w cmd cwd env).1)
           else [])%list.
Proof.
  unfold run_command. fold (command_line cmd).
  rewrite (bind_ok _ _ _ _ _ (log_after _ w)).
  set (w0 := after_log w (command_line cmd)).
  destruct (after_log_frame w (command_line cmd)) as (Hf0 & Hs0 & Hg0 & Ho0 & _).
  fold w0 in Hf0, Hs0, Hg0, Ho0.
  assert (∃ r w1,
    (match env with Some r => mret r | None => dict_copy environ_ref end : M ref) w0
      = (Ok r, w1) ∧
    w_fs w1 = w_fs w ∧ w_out w1 = w_out w ∧ w_gui w1 = w_gui w ∧
    w_trace w1 = w_trace w0 ∧
    content_of w1 r = content_of w (default environ_ref env) ∧
    (∀ r', is_Some (w_store w !! r') → w_store w1 !! r' = w_store w !! r'))
    as (r & w1 & E1 & Hf1 & Ho1 & Hg1 & Ht1 & Hc1 & Hs1).
  { destruct env as [r|]; simpl.
    - exists r, w0. split; [done|]. unfold content_of. rewrite Hs0. auto 10.
    - destruct (dict_copy_spec environ_ref w0) as (w1 & E & Hf & Ho & Hg & Ht & Hs).
      eexists _, w1. split; [done|]. rewrite Hf, Ho, Hg. repeat (split; [done|]).
      split.
      + unfold content_of at 1. rewrite Hs, lookup_insert_eq. unfold content_of.
        by rewrite Hs0.
      + intros r' [x Hx]. rewrite Hs, lookup_insert_ne; [by rewrite Hs0|].
        intros <-. pose proof (fresh_ref_new w0) as Hn. rewrite Hs0 in Hn.
        congruence. }
  rewrite (bind_ok _ _ _ _ _ E1).
  rewrite (bind_ok (dict_items r) _ w1 w1 (content_of w1 r) eq_refl).
  rewrite (bind_ok get_world _ w1 w1 w1 eq_refl).
  unfold shell_answer. fold w0. rewrite Hc1, Ho1, Ht1, Hf1.
  set (items := content_of w (default environ_ref env)).
  destruct (o_shell (w_out w) (w_trace w0) (w_fs w) cmd cwd items) as [answer f].
  unfold emit at 1, mbind at 1, M_bind at 1.
  unfold set_fs at 1, mbind at 1, M_bind at 1. cbn [w_fs w_store w_gui w_trace w_out].
  destruct answer as [e|rc out|read reason]; simpl.
  - unfold raise. eexists. split; [reflexivity|]. simpl.
    rewrite Ho1, Hg1, Ht1. repeat (split; [done|]).
    by destruct (w_gui w); rewrite ?app_nil_r.
  - match goal with
    | |- context [(log_lines ?ls ≫= _) ?w2] => destruct (log_lines_spec ls w2)
        as (w3 & El & Hf3 & Hs3 & Hg3 & Ho3 & Ht3)
    end.
    simpl in *. rewrite (bind_ok _ _ _ _ _ El).
    exists w3. split.
    + destruct rc; reflexivity.
    + rewrite Hf3, Ho3, Hg3, Ht3, Hs3, Ho1, Hg1, Ht1.
      repeat (split; [done|]). by rewrite <- app_assoc.
  - match goal with
    | |- context [(log_lines ?ls ≫= _) ?w2] => destruct (log_lines_spec ls w2)
        as (w3 & El & Hf3 & Hs3 & Hg3 & Ho3 & Ht3)
    end.
    simpl in *. rewrite (bind_ok _ _ _ _ _ El).
    exists w3. split; [reflexivity|].
    rewrite Hf3, Ho3, Hg3, Ht3, Hs3, Ho1, Hg1, Ht1.
    repeat (split; [done|]). by rewrite <- app_assoc.
Qed.

Lemma shell_runs_logs (ls : list string) : shell_runs (map EvLog ls) = [].
Proof. induction ls as [|l ls IH]; [done | exact IH]. Qed.


Lemma run_command_runs (cmd : string) (cwd : option string)
  (env : option ref) (w : world) :
  shell_runs (w_trace (run_command cmd cwd env w).2) =
  (shell_runs (w_trace w) ++ [(cmd, (shell_answer w cmd cwd env).1)])%list.
Proof.
  destruct (run_command_spec cmd cwd env w) as (w' & -> & _ & _ & _ & _ & Ht).
  cbn [snd]. rewrite Ht.
  destruct (after_log_frame w (command_line cmd)) as (_ & _ & _ & _ & ->).
  rewrite !shell_runs_app. simpl.
  destruct (w_gui w); by rewrite ?shell_runs_logs, ?app_nil_r.
Qed.

(** A command that did not succeed makes [run_command] raise. *)
Lemma shell_outcome_failed (cmd : string) (answer : shell_result) :
  succeeded answer = false → ∃ e, shell_outcome cmd answer = Raise e.
Proof. destruct answer as [e|[] out|read reason]; simpl; eauto; done. Qed.





End ShellFacts.

(** X6. [run_command] runs one shell command, the one it is given, and the
    file system is afterwards as the command left it.  It returns only
    when the output was read to its end and the command exited with status
    0, and what it returns is 0; any other exit status raises
    [RuntimeError] with the command in the message; a command that cannot
    be launched raises the error of the launch; an output that cannot be
    decoded raises [UnicodeDecodeError], whatever the command does after
    it.  Whatever the outcome, every object that existed, [os.environ]
    among them, is left as it was. *)
Theorem run_command_outcome (cmd : string) (cwd : option string)
  (env : option ref) (w : world) :
  let run := run_command cmd cwd env w in
  let answer := (shell_answer w cmd cwd env).1 in
  run.1 = shell_outcome cmd answer ∧
  (∀ rc, run.1 = Ok rc → rc = 0%Z ∧ ∃ out, answer = Completed 0 out) ∧
  (∀ rc out, answer = Completed rc out → rc ≠ 0%Z →
             run.1 = Raise (RuntimeError ("Command failed: " +:+ cmd))) ∧
  (∀ e, answer = PopenError e → run.1 = Raise e) ∧
  (∀ read reason, answer = Undecodable read reason →
                  run.1 = Raise (UnicodeDecodeError reason)) ∧
  shell_runs (w_trace run.2) = (shell_runs (w_trace w) ++ [(cmd, answer)])%list ∧
  w_fs run.2 = (shell_answer w cmd cwd env).2 ∧
  (∀ r, is_Some (w_store w !! r) → w_store run.2 !! r = w_store w !! r).
Proof.
  intros run answer. subst run. pose proof (run_command_runs cmd cwd env w) as Hc.
  destruct (run_command_spec cmd cwd env w) as (w' & E & Hf & Ho & Hg & Hs & Ht).
  rewrite E in Hc |- *. fold answer in Hc |- *. cbn [fst snd] in *.
  split; [done|]. split; [|split; [|split; [|split; [|split; [|split]]]]].
  - intros rc. destruct answer as [e|[] out|read reason]; simpl; try done.
    intros [= <-]. eauto.
  - intros rc out -> Hrc. by destruct rc.
  - by intros e ->.
  - by intros read reason ->.
  - exact Hc.
  - done.
  - done.
Qed.



(** ** Scripts *)

Section ScriptFacts.

Lemma follows_quiet {A} (m : M A) : quiet m → follows [] m.
Proof.
  intros Hq w. exists []. rewrite app_nil_r. split.
  - destruct (m w) as [r w'] eqn:E. by eapply Hq.
  - split; [done|]. split; [done|]. intros i cmd answer Hi. by destruct i.
Qed.

Lemma follows_at_bind {A B} (w : world) (s1 s2 : list string)
  (m : M A) (k : A → M B) :
  follows_at w s1 m →
  (∀ a w1, m w = (Ok a, w1) → follows_at w1 s2 (k a)) →
  follows_at w (s1 ++ s2) (m ≫= k).
Proof.
  intros (runs1 & Ht1 & Hp1 & Hok1 & Hfail1) Hk. unfold follows_at, mbind, M_bind.
  destruct (m w) as [[a|e] w1] eqn:E; simpl in *.
  - destruct (Hk a w1 eq_refl) as (runs2 & Ht2 & Hp2 & Hok2 & Hfail2).
    exists (runs1 ++ runs2)%list.
    rewrite Ht2, Ht1, <- app_assoc. split; [done|]. unfold script_run.
    rewrite map_app, (Hok1 a eq_refl). split; [by apply prefix_app|]. split.
    + intros b Hb. by rewrite (Hok2 b Hb).
    + intros i cmd answer Hi Hbad. apply lookup_app_Some in Hi as [Hi|[Hlen Hi]].
      * destruct (Hfail1 i cmd answer Hi Hbad) as (_ & e & _ & He). done.
      * destruct (Hfail2 _ cmd answer Hi Hbad) as (Hl & He).
        split; [|done]. rewrite length_app, Hl. lia.
  - exists runs1. split; [done|]. split; [by apply prefix_app_r|].
    split; [done|]. intros i cmd answer Hi Hbad.
    destruct (Hfail1 i cmd answer Hi Hbad) as (Hl & e0 & Ho & [= ->]). eauto.
Qed.

Lemma follows_bind {A B} (s1 s2 : list string) (m : M A) (k : A → M B) :
  follows s1 m → (∀ a, follows s2 (k a)) → follows (s1 ++ s2) (m ≫= k).
Proof. intros Hm Hk w. apply follows_at_bind; [done|]. intros a w1 _. apply Hk. Qed.

Lemma follows_quiet_bind {A B} (w : world) (s : list string)
  (m : M A) (k : A → M B) :
  quiet m →
  (∀ a w1, m w = (Ok a, w1) → follows_at w1 s (k a)) →
  follows_at w s (m ≫= k).
Proof.
  intros Hm Hk. apply (follows_at_bind w [] s); [by apply follows_quiet | done].
Qed.

Lemma follows_bind_quiet {A B} (w : world) (s : list string)
  (m : M A) (k : A → M B) :
  follows_at w s m → (∀ a, quiet (k a)) → follows_at w s (m ≫= k).
Proof.
  intros Hm Hk. rewrite <- (app_nil_r s). apply follows_at_bind; [done|].
  intros a w1 _. by apply follows_quiet.
Qed.

(** A handler that logs and raises again leaves the script as it is. *)
Lemma follows_at_reraise (w : world) (s : list string) (what : string)
  (m : M string) :
  follows_at w s m → follows_at w s (try_except m (reraise_logged what)).
Proof.
  intros (runs & Ht & Hrun). unfold follows_at, try_except.
  destruct (m w) as [[a|e] w1] eqn:E; simpl in *.
  - exists runs. done.
  - destruct (reraise_logged what e w1) as [r2 w2] eqn:E2.
    pose proof (quiet_reraise_logged (A := string) what e _ _ _ E2) as Hq.
    destruct (reraise_logged_spec (A := string) what e w1) as (w2' & E2' & _).
    rewrite E2 in E2'. injection E2' as -> <-.
    exists runs. simpl. rewrite Hq. done.
Qed.

Lemma follows_run_command (cmd : string) (cwd : option string) (env : option ref) :
  follows [cmd] (run_command cmd cwd env).
Proof.
  intros w. exists [(cmd, (shell_answer w cmd cwd env).1)].
  split; [apply run_command_runs|].
  destruct (run_command_spec cmd cwd env w) as (w' & -> & _). cbn [fst].
  split; [done|]. split; [done|].
  intros [|i] cmd' answer; [|done]. intros [= <- <-] Hbad.
  split; [done|]. destruct (shell_outcome_failed cmd _ Hbad) as [e He].
  exists e. by rewrite He.
Qed.

Lemma quiet_make_dirs (ps : list string) : quiet (make_dirs ps).
Proof.
  induction ps as [|p rest IH]; simpl; [apply quiet_ret|].
  apply quiet_bind; [apply quiet_get_world | intros w].
  destruct (w_fs w !! p) as [[]|]; [apply quiet_raise | done |].
  destruct (refusal w _); [apply quiet_raise|].
  apply quiet_bind; [apply quiet_set_fs | done].
Qed.

Lemma quiet_makedirs (d : string) : quiet (makedirs d).
Proof. unfold makedirs. destruct d; [apply quiet_raise | apply quiet_make_dirs]. Qed.

Lemma quiet_log_if_set (env : ref) (key : string) : quiet (log_if_set env key).
Proof.
  unfold log_if_set. apply quiet_bind; [apply quiet_dict_has | intros []].
  - apply quiet_bind; [apply quiet_dict_getitem | intros; apply quiet_log].
  - apply quiet_ret.
Qed.

Lemma quiet_copy2 (src dst : string) : quiet (copy2 src dst).
Proof.
  unfold copy2. apply quiet_bind; [apply quiet_get_world | intros w].
  destruct (w_fs w !! src) as [[content mode|]|]; try apply quiet_raise.
  destruct (String.eqb _ _); [apply quiet_raise|].
  destruct (negb _); [apply quiet_raise|].
  destruct (write_error _ _); [apply quiet_raise|].
  destruct (refusal w _); [apply quiet_raise | apply quiet_set_fs].
Qed.

Lemma quiet_chmod (p : string) (mode : N) : quiet (chmod p mode).
Proof.
  unfold chmod. apply quiet_bind; [apply quiet_get_world | intros w].
  destruct (w_fs w !! p) as [n|]; [|apply quiet_raise].
  destruct (refusal w _); [apply quiet_raise|].
  destruct n; [apply quiet_set_fs | apply quiet_ret].
Qed.

Lemma quiet_copy_one (dest_dir binary : string) : quiet (copy_one dest_dir binary).
Proof.
  unfold copy_one. apply quiet_bind; [apply quiet_path_exists | intros []].
  - apply quiet_try.
    + apply quiet_bind; [apply quiet_copy2 | intros _].
      apply quiet_bind; [apply quiet_chmod | intros _].
      apply quiet_bind; [apply quiet_log | intros; apply quiet_ret].
    + intros e. apply quiet_bind; [apply quiet_log | intros; apply quiet_ret].
  - apply quiet_bind; [apply quiet_log | intros; apply quiet_ret].
Qed.

Lemma quiet_copy_loop (dest_dir : string) (binary_files copied : list string) :
  quiet (copy_loop dest_dir binary_files copied).
Proof.
  revert copied. induction binary_files as [|b l IH]; intros copied; simpl.
  - apply quiet_ret.
  - apply quiet_bind; [apply quiet_copy_one | intros []]; apply IH.
Qed.

Lemma quiet_copy_binaries (src_dir dest_dir : string) (binary_files : list string) :
  quiet (copy_binaries src_dir dest_dir binary_files).
Proof.
  unfold copy_binaries. apply quiet_bind; [apply quiet_makedirs | intros _].
  apply quiet_bind; [apply quiet_log | intros _].
  apply quiet_bind; [apply quiet_copy_loop | intros copied].
  apply quiet_bind; [|intros; apply quiet_ret].
  destruct copied; [apply quiet_log | apply quiet_ret].
Qed.

Lemma quiet_log_existence (binaries : list string) : quiet (log_existence binaries).
Proof.
  induction binaries as [|b l IH]; simpl; [apply quiet_ret|].
  apply quiet_bind; [apply quiet_path_exists | intros present].
  apply quiet_bind; [apply quiet_log | done].
Qed.


(** The checkout clones when the source directory is not there, and
    fetches and checks out when it is. *)
Lemma follows_acquire_source (name repo version build_dir src_dir : string)
  (env : option ref) (w : world) :
  follows_at w (checkout_script repo version src_dir (exists_in (w_fs w) src_dir))
    (acquire_source name repo version build_dir src_dir env).
Proof.
  unfold acquire_source.
  apply follows_quiet_bind; [apply quiet_path_exists | intros present w0 [= <- <-]].
  fold (exists_in (w_fs w) src_dir).
  destruct (exists_in (w_fs w) src_dir); unfold checkout_script.
  - apply follows_quiet_bind; [apply quiet_log | intros _ w1 _].
    apply follows_quiet_bind; [apply quiet_log | intros _ w2 _].
    apply (follows_at_bind w2 [_] [_]); [apply follows_run_command | intros _ w3 _].
    apply follows_bind_quiet; [apply follows_run_command | intros; apply quiet_log].
  - apply follows_quiet_bind; [apply quiet_log | intros _ w1 _].
    apply follows_bind_quiet; [apply follows_run_command | intros; apply quiet_log].
Qed.

Lemma follows_build_with_cmake (version src_dir : string) (cores : N) (env : ref) :
  follows (cmake_script cores) (build_with_cmake version src_dir cores env).
Proof.
  intros w. unfold build_with_cmake, cmake_script.
  apply follows_quiet_bind; [apply quiet_log | intros _ w1 _].
  apply follows_quiet_bind; [apply quiet_log | intros _ w2 _].
  apply (follows_at_bind w2 [_] [_]); [apply follows_run_command | intros _ w3 _].
  apply follows_quiet_bind; [apply quiet_log | intros _ w4 _].
  apply follows_bind_quiet; [apply follows_run_command | intros; apply quiet_ret].
Qed.

Lemma follows_build_with_autotools (version src_dir : string) (cores : N) (env : ref) :
  follows (autotools_script cores) (build_with_autotools version src_dir cores env).
Proof.
  intros w. unfold build_with_autotools, autotools_script.
  apply follows_quiet_bind; [apply quiet_log | intros _ w1 _].
  apply follows_quiet_bind; [apply quiet_log | intros _ w2 _].
  apply (follows_at_bind w2 [_] [_; _]); [apply follows_run_command | intros _ w3 _].
  apply follows_quiet_bind; [apply quiet_log | intros _ w4 _].
  apply (follows_at_bind w4 [_] [_]); [apply follows_run_command | intros _ w5 _].
  apply follows_quiet_bind; [apply quiet_log | intros _ w6 _].
  apply follows_bind_quiet; [apply follows_run_command | intros; apply quiet_ret].
Qed.

Lemma follows_bitcoin_build (cfg : config) (version build_dir src_dir version_clean : string)
  (cores : N) (use_aggressive_opts : bool) :
  follows (bitcoin_build_script version cores)
    (bitcoin_build cfg version build_dir src_dir version_clean cores use_aggressive_opts).
Proof.
  intros w. unfold bitcoin_build.
  apply follows_quiet_bind; [apply quiet_setup_build_environment | intros env w1 _].
  apply follows_quiet_bind; [apply quiet_log | intros _ w2 _].
  apply follows_quiet_bind; [apply quiet_dict_getitem | intros path w3 _].
  apply follows_quiet_bind; [apply quiet_log | intros _ w4 _].
  apply follows_quiet_bind; [apply quiet_log_if_set | intros _ w5 _].
  apply follows_quiet_bind; [apply quiet_log_if_set | intros _ w6 _].
  apply follows_quiet_bind; [apply quiet_dict_get_default | intros ldflags w7 _].
  apply follows_quiet_bind;
    [destruct (truthy ldflags); [apply quiet_log | apply quiet_ret] | intros _ w8 _].
  apply follows_quiet_bind; [apply quiet_log | intros _ w9 _].
  apply follows_bind_quiet.
  - unfold bitcoin_build_script, select_build_system.
    destruct (use_cmake version);
      [apply follows_build_with_cmake | apply follows_build_with_autotools].
  - intros binaries. apply quiet_bind; [apply quiet_log | intros _].
    apply quiet_bind; [apply quiet_copy_binaries | intros copied].
    apply quiet_bind.
    { destruct copied; [|apply quiet_ret].
      apply quiet_bind; [apply quiet_log | intros; apply quiet_log_existence]. }
    intros _. repeat (apply quiet_bind; [apply quiet_log | intros _]).
    apply quiet_ret.
Qed.

Lemma length_append (a b : string) :
  String.length (a +:+ b) = (String.length a + String.length b)%nat.
Proof. induction a as [|c a IH]; [done|]. rewrite append_cons. simpl. by rewrite IH. Qed.

(** The source directory of a target is a longer path than the build
    directory. *)
Lemma source_dir_longer (build_dir target version : string) :
  Str.startswith "/" target = false → target ≠ "" →
  (String.length build_dir < String.length (source_dir build_dir target version))%nat.
Proof.
  intros Hs Hne. unfold source_dir, path_join.
  destruct target as [|c target]; [done|]. rewrite append_cons.
  assert (c ≠ "/"%char) as Hc.
  { intros ->. discriminate Hs. }
  destruct c as [[] [] [] [] [] [] [] []]; try done;
    (destruct build_dir as [|b build_dir]; [simpl; lia|]);
    (destruct (Str.endswith_char "/" (String b build_dir));
     rewrite !length_append; simpl; lia).
Qed.

(** A directory above a path is a shorter path. *)
Lemma parents_from_shorter (pre p x : string) :
  x ∈ parents_from pre p →
  (String.length x < String.length pre + String.length p)%nat.
Proof.
  revert pre. induction p as [|c p IH]; intros pre; simpl.
  - by intros ?%elem_of_nil.
  - destruct (Ascii.eqb c "/").
    + destruct pre as [|a pre].
      * intros H%IH. simpl in *. lia.
      * intros [->|H%IH]%elem_of_cons; [simpl; lia|].
        rewrite length_append in H. simpl in *. lia.
    + intros H%IH. rewrite length_append in H. simpl in *. lia.
Qed.

Lemma made_dirs_shorter (d x : string) :
  x ∈ (parents d ++ [d])%list → (String.length x ≤ String.length d)%nat.
Proof.
  intros [H%parents_from_shorter | ->%list_elem_of_singleton]%elem_of_app; simpl in *; lia.
Qed.

(** Making the build directory does not make the source directory. *)
Lemma makedirs_exists (build_dir target version : string) (w w1 : world)
  (r : result unit) :
  Str.startswith "/" target = false → target ≠ "" →
  makedirs build_dir w = (r, w1) →
  exists_in (w_fs w1) (source_dir build_dir target version) =
  exists_in (w_fs w) (source_dir build_dir target version).
Proof.
  intros Hs Hne H. unfold exists_in.
  destruct (makedirs_fs _ _ _ _ H (source_dir build_dir target version))
    as [->|(Hin & _)]; [done|].
  apply made_dirs_shorter in Hin.
  pose proof (source_dir_longer build_dir target version Hs Hne). lia.
Qed.

Lemma banner_fs (cfg : config) (title : string) (use_aggressive_opts : bool)
  (w w1 : world) (r : result unit) :
  banner cfg title use_aggressive_opts w = (r, w1) → w_fs w1 = w_fs w.
Proof.
  unfold banner.
  rewrite (bind_ok _ _ _ _ _ (log_after _ w)).
  rewrite (bind_ok _ _ _ _ _ (log_after _ _)).
  rewrite (bind_ok _ _ _ _ _ (log_after _ _)).
  rewrite (bind_ok _ _ _ _ _ (log_after _ _)).
  rewrite (bind_ok _ _ _ _ _ (log_after _ _)).
  rewrite log_after. intros [= _ <-].
  repeat match goal with
  | |- context [w_fs (after_log ?w ?m)] =>
      rewrite (proj1 (after_log_frame w m))
  end. done.
Qed.

End ScriptFacts.

(** X8. The node-daemon pipeline runs the commands of its script in order
    and nothing else through the shell: a clone when the source directory
    is not there at the start, a fetch and a checkout of the tag when it
    is; then, for a version from 25 on, the CMake configuration and build,
    and for an older one [autogen.sh], [configure] and [make].  A command
    that fails is the last that is run, and what it makes [run_command]
    raise is what the pipeline raises; the pipeline can also stop between
    two commands (a directory that cannot be made, a failed
    verification), and then every command run has succeeded.  When the
    pipeline returns, the whole script has run and every command has
    succeeded. *)
Theorem bitcoin_pipeline_script (cfg : config) (version build_dir : string)
  (cores : N) (use_aggressive_opts : bool) (w : world) :
  follows_at w
    (bitcoin_script version build_dir cores
       (exists_in (w_fs w) (source_dir build_dir "bitcoin" version)))
    (compile_bitcoin_source cfg version build_dir cores use_aggressive_opts).
Proof.
  unfold compile_bitcoin_source, bitcoin_script. apply follows_at_reraise.
  apply follows_at_bind.
  - unfold bitcoin_checkout.
    apply follows_quiet_bind; [apply quiet_banner | intros [] w1 Hb].
    apply follows_quiet_bind; [apply quiet_makedirs | intros [] w2 Hm].
    apply banner_fs in Hb.
    rewrite <- Hb, <- (makedirs_exists build_dir "bitcoin" version w1 w2 _ eq_refl ltac:(done) Hm).
    apply follows_acquire_source.
  - intros _ w1 _.
    apply follows_quiet_bind; [apply quiet_integrity_gate | intros _ w2 _].
    apply follows_bitcoin_build.
Qed.

Lemma follows_electrs_build (version build_dir src_dir version_clean : string)
  (cores : N) (env : ref) :
  follows [cargo_build_command cores]
    (electrs_build version build_dir src_dir version_clean cores env).
Proof.
  intros w. unfold electrs_build.
  apply follows_quiet_bind; [apply quiet_log | intros _ w1 _].
  apply follows_quiet_bind; [apply quiet_log | intros _ w2 _].
  apply follows_quiet_bind; [apply quiet_dict_getitem | intros path w3 _].
  apply follows_quiet_bind; [apply quiet_log | intros _ w4 _].
  apply follows_quiet_bind; [apply quiet_log_if_set | intros _ w5 _].
  apply follows_quiet_bind; [apply quiet_log_if_set | intros _ w6 _].
  apply follows_bind_quiet; [apply follows_run_command | intros _].
  apply quiet_bind; [apply quiet_log | intros _].
  apply quiet_bind; [apply quiet_path_exists | intros present].
  apply quiet_bind; [destruct present; [apply quiet_ret | apply quiet_raise] | intros _].
  apply quiet_bind; [apply quiet_copy_binaries | intros copied].
  repeat (apply quiet_bind; [apply quiet_log | intros _]).
  apply quiet_ret.
Qed.

Lemma electrs_prepare_returns (cfg : config) (version : string)
  (use_aggressive_opts : bool) (w : world) :
  ∃ env w1, electrs_prepare cfg version use_aggressive_opts w = (Ok env, w1).
Proof.
  unfold electrs_prepare, electrs_environment.
  destruct (banner cfg ("COMPILING ELECTRS " +:+ version) use_aggressive_opts w)
    as [r0 w0] eqn:E0.
  assert (r0 = Ok tt) as ->.
  { revert E0. unfold banner.
    rewrite (bind_ok _ _ _ _ _ (log_after _ w)).
    rewrite (bind_ok _ _ _ _ _ (log_after _ _)).
    rewrite (bind_ok _ _ _ _ _ (log_after _ _)).
    rewrite (bind_ok _ _ _ _ _ (log_after _ _)).
    rewrite (bind_ok _ _ _ _ _ (log_after _ _)).
    rewrite log_after. by intros [= <- _]. }
  destruct (setup_build_environment_spec cfg use_aggressive_opts w0)
    as (w1 & E1 & _ & _ & _ & Hsome & _).
  destruct (runs_set_flags (fresh (dom (w_store w0)))
              (list_to_set (map fst (get_rust_optimization_flags use_aggressive_opts)))
              (get_rust_optimization_flags use_aggressive_opts)) with (w := w1)
    as ([] & w2 & E2 & _).
  - intros kv Hkv. apply elem_of_list_to_set, list_elem_of_fmap. eauto.
  - done.
  - eexists _, _.
    rewrite (bind_ok _ _ _ _ _ E0), (bind_ok _ _ _ _ _ E1), (bind_ok _ _ _ _ _ E2).
    reflexivity.
Qed.

(** X9. The indexer pipeline first composes its environment and checks the
    Rust toolchain, and runs nothing through the shell when the check
    raises.  Once the check has passed, it runs the commands of its script
    in order and nothing else: the checkout of the tag, which is a clone
    when the source directory is not there after the check and a fetch
    and a checkout when it is, and then the one release build with Cargo.
    A command that fails is the last that is run, and what it makes
    [run_command] raise is what the pipeline raises; when the pipeline
    returns, the whole script has run and every command has succeeded. *)
Theorem electrs_pipeline_script (cfg : config) (version build_dir : string)
  (cores : N) (use_aggressive_opts : bool) (w : world) :
  let pipeline :=
    compile_electrs_source cfg version build_dir cores use_aggressive_opts in
  ∃ env w1,
    electrs_prepare cfg version use_aggressive_opts w = (Ok env, w1) ∧
    match check_rust_toolchain env w1 with
    | (Raise e, _) => follows_at w [] pipeline
    | (Ok _, w2) =>
        follows_at w
          (electrs_script version build_dir cores
             (exists_in (w_fs w2) (source_dir build_dir "electrs" version)))
          pipeline
    end.
Proof.
  intros pipeline. subst pipeline.
  destruct (electrs_prepare_returns cfg version use_aggressive_opts w)
    as (env & w1 & E1).
  exists env, w1. split; [done|].
  unfold compile_electrs_source, electrs_script.
  destruct (check_rust_toolchain env w1) as [[[]|e] w2] eqn:E2.
  2:{ apply follows_at_reraise.
      apply (follows_at_bind w [] []); [by apply follows_quiet, quiet_electrs_prepare|].
      intros a w' Ha. rewrite E1 in Ha. injection Ha as <- <-.
      apply (follows_at_bind w1 [] []); [by apply follows_quiet, quiet_check_rust_toolchain|].
      intros a w' Ha. congruence. }
  apply follows_at_reraise.
  apply follows_quiet_bind; [apply quiet_electrs_prepare | intros a w' Ha].
  rewrite E1 in Ha. injection Ha as <- <-.
  apply follows_quiet_bind; [apply quiet_check_rust_toolchain | intros [] w' Ha].
  rewrite E2 in Ha. injection Ha as <-.
  apply follows_at_bind.
  - unfold electrs_checkout.
    apply follows_quiet_bind; [apply quiet_makedirs | intros [] w3 Hm].
    rewrite <- (makedirs_exists build_dir "electrs" version w2 w3 _ eq_refl ltac:(done) Hm).
    apply follows_acquire_source.
  - intros _ w4 _.
    apply follows_quiet_bind; [apply quiet_integrity_gate | intros _ w5 _].
    apply follows_electrs_build.
Qed.

(** ** The composed environment, exactly *)

Section ComposerContent.

Lemma updates_ret {A} (env : ref) (a : A) : updates env id (mret a).
Proof. intros w Hw. by exists a, w. Qed.

Lemma updates_bind {A B} (env : ref) (f g : environment → environment)
  (m : M A) (k : A → M B) :
  updates env f m → (∀ a, updates env g (k a)) → updates env (g ∘ f) (m ≫= k).
Proof.
  intros Hm Hk w Hw. destruct (Hm w Hw) as (a & w1 & E1 & Hw1 & Hc1).
  destruct (Hk a w1 Hw1) as (b & w2 & E2 & Hw2 & Hc2).
  exists b, w2. rewrite (bind_ok _ _ _ _ _ E1). split; [done|]. split; [done|].
  simpl. by rewrite Hc2, Hc1.
Qed.

Lemma updates_log (env : ref) (msg : string) : updates env id (log msg).
Proof.
  intros w Hw. exists tt, (after_log w msg). split; [apply log_after|].
  destruct (after_log_frame w msg) as (_ & Hs & _). unfold content_of.
  by rewrite Hs.
Qed.

Lemma updates_dict_set (env : ref) (key value : string) :
  updates env <[ key := value ]> (dict_set env key value).
Proof.
  intros w Hw. eexists tt, _. split; [reflexivity|]. unfold content_of. simpl.
  rewrite lookup_insert_eq. eauto.
Qed.

Lemma updates_set_flags (env : ref) (flags : list (string * string)) :
  updates env (with_flags flags) (set_flags env flags).
Proof.
  induction flags as [|[key value] rest IH]; simpl.
  - apply updates_ret.
  - apply (updates_bind env (λ e, if truthy value then <[ key := value ]> e else e)
             (with_flags rest)); [|done].
    destruct (truthy value); [|apply updates_ret].
    change (<[key:=value]>) with (id ∘ <[key:=value]> : environment → environment).
    apply updates_bind; [apply updates_dict_set | intros; apply updates_log].
Qed.

(** What the composer returns: the items of [os.environ] with the search
    path, the two library variables and the flags written over them. *)
Lemma setup_build_environment_content (cfg : config) (use_aggressive_opts : bool)
  (w : world) :
  ∃ w', setup_build_environment cfg use_aggressive_opts w
          = (Ok (fresh (dom (w_store w))), w') ∧
        content_of w' (fresh (dom (w_store w))) =
          with_flags (get_optimization_flags cfg use_aggressive_opts)
            (with_llvm (llvm_prefix cfg (w_fs w))
               (<[ "PATH" := composed_path cfg (w_fs w)
                                (default "" (content_of w environ_ref !! "PATH")) ]>
                  (content_of w environ_ref))).
Proof.
  set (env := fresh (dom (w_store w))). unfold setup_build_environment.
  destruct (dict_copy_spec environ_ref w) as (w1 & E1 & Hf1 & Ho1 & Hg1 & Ht1 & Hs1).
  fold env in E1, Hs1. rewrite (bind_ok _ _ _ _ _ E1).
  assert (∃ w2, (match BREW_PREFIX cfg with
                 | Some _ => mret tt
                 | None => log "⚠️  Warning: Homebrew prefix not detected, using defaults
"
                 end : M unit) w1 = (Ok tt, w2) ∧
                w_fs w2 = w_fs w1 ∧ w_store w2 = w_store w1)
    as (w2 & E2 & Hf2 & Hs2).
  { destruct (BREW_PREFIX cfg); [by exists w1|].
    eexists. split; [apply log_after|].
    by destruct (after_log_frame w1 "⚠️  Warning: Homebrew prefix not detected, using defaults
") as (? & ? & _). }
  rewrite (bind_ok _ _ _ _ _ E2).
  rewrite (bind_ok get_world _ w2 w2 w2 eq_refl).
  rewrite (bind_ok (dict_get_default env "PATH" "") _ w2 w2 _ eq_refl).
  assert (content_of w2 env = content_of w environ_ref) as Hc2.
  { unfold content_of at 1. by rewrite Hs2, Hs1, lookup_insert_eq. }
  fold (content_of w2 env). rewrite Hc2, Hf2, Hf1.
  fold (composed_path cfg (w_fs w) (default "" (content_of w environ_ref !! "PATH"))).
  set (path := composed_path _ _ _). fold (llvm_candidates cfg).
  match goal with
  | |- ∃ w', ?m w2 = _ ∧ _ =>
      assert (updates env
                ((with_flags (get_optimization_flags cfg use_aggressive_opts)
                  ∘ with_llvm (llvm_prefix cfg (w_fs w))) ∘ <[ "PATH" := path ]>) m)
        as Hup
  end.
  { apply updates_bind; [apply updates_dict_set | intros _].
    apply updates_bind; [|intros _].
    - unfold llvm_prefix.
      destruct (existing_dirs (w_fs w) (llvm_candidates cfg)) as [|p ?]; simpl.
      + apply updates_ret.
      + apply (updates_bind env <[ "LIBCLANG_PATH" := p +:+ "/lib" ]>
                 <[ "DYLD_LIBRARY_PATH" := p +:+ "/lib" ]>);
          [|intros _]; apply updates_dict_set.
    - apply (updates_bind env
               (with_flags (get_optimization_flags cfg use_aggressive_opts)) id);
        [apply updates_set_flags | intros _; apply updates_ret]. }
  destruct (Hup w2) as (r & w3 & E3 & _ & Hc3).
  { rewrite Hs2, Hs1, lookup_insert_eq. eauto. }
  exists w3. rewrite Hc3, Hc2. split; [|done].
  rewrite E3. f_equal. f_equal. revert E3. unfold mbind, M_bind.
  repeat (match goal with
          | |- context [match ?x with (_, _) => _ end] => destruct x as [[?|?] ?]
          end; try done).
  unfold mret, M_ret. by intros [= <- _].
Qed.

Lemma join_snoc (sep : string) (l : list string) (x : string) :
  l ≠ [] → Str.join sep (l ++ [x]) = Str.join sep l +:+ sep +:+ x.
Proof.
  induction l as [|y l IH]; [done|]. intros _.
  destruct l as [|z l]; [done|].
  change (Str.join sep ((y :: z :: l) ++ [x]))
    with (y +:+ sep +:+ Str.join sep ((z :: l) ++ [x])).
  rewrite IH by done.
  change (Str.join sep (y :: z :: l)) with (y +:+ sep +:+ Str.join sep (z :: l)).
  by rewrite !append_assoc.
Qed.

Lemma first_path_truthy (cfg : config) : truthy (first_path cfg) = true.
Proof. unfold first_path. by destruct (BREW_PREFIX cfg) as [[|c p]|]. Qed.

Lemma toolchain_head (cfg : config) (f : fs) :
  ∃ rest, toolchain_components cfg f = first_path cfg :: rest.
Proof.
  unfold toolchain_components, first_path. destruct (BREW_PREFIX cfg); simpl; eauto.
Qed.

Lemma unique_paths_head (p : string) (l : list string) :
  truthy p = true → ∃ rest, unique_paths_of (p :: l) = p :: rest.
Proof.
  intros Hp. unfold unique_paths_of. simpl. rewrite Hp.
  rewrite bool_decide_eq_true_2 by set_solver. simpl.
  rewrite unique_loop_acc. simpl. eauto.
Qed.

Lemma existing_dirs_elem (f : fs) (candidates : list (option string)) (p : string) :
  p ∈ existing_dirs f candidates → Some p ∈ candidates ∧ f !! p = Some Dir.
Proof.
  induction candidates as [|[c|] l IH]; simpl.
  - by intros ?%elem_of_nil.
  - destruct (truthy c && _) eqn:E.
    + intros [->|Hp]%elem_of_cons.
      * split; [left|]. apply andb_prop in E as [_ E].
        by destruct (f !! c) as [[]|].
      * destruct (IH Hp). split; [by right | done].
    + intros Hp. destruct (IH Hp). split; [by right | done].
  - intros Hp. destruct (IH Hp). split; [by right | done].
Qed.

Lemma existing_dirs_nil (f : fs) (candidates : list (option string)) (p : string) :
  existing_dirs f candidates = [] → Some p ∈ candidates → p ≠ "" →
  f !! p ≠ Some Dir.
Proof.
  induction candidates as [|[c|] l IH]; simpl.
  - by intros _ ?%elem_of_nil.
  - destruct (truthy c && _) eqn:E; [done|].
    intros Hn [[= <-]|Hp]%elem_of_cons Hne; [|by apply IH].
    apply truthy_ne in Hne. rewrite Hne in E. simpl in E.
    by destruct (f !! p) as [[]|].
  - intros Hn [|Hp]%elem_of_cons Hne; [done | by apply IH].
Qed.

End ComposerContent.

Section ComposerLookups.

Lemma with_llvm_other (prefix : option string) (e : environment) (k : string) :
  k ≠ "LIBCLANG_PATH" → k ≠ "DYLD_LIBRARY_PATH" → with_llvm prefix e !! k = e !! k.
Proof.
  intros H1 H2. destruct prefix as [p|]; [|done]. simpl.
  by rewrite !lookup_insert_ne.
Qed.

Lemma with_flags_other (flags : list (string * string)) (e : environment) (k : string) :
  k ∉ map fst flags → with_flags flags e !! k = e !! k.
Proof.
  revert e. induction flags as [|[key value] rest IH]; intros e Hk; [done|].
  apply not_elem_of_cons in Hk as [Hne Hk]. simpl in *.
  change (with_flags rest (if truthy value then <[key:=value]> e else e) !! k = e !! k).
  rewrite IH by done. destruct (truthy value); [|done]. by rewrite lookup_insert_ne.
Qed.

Lemma rust_flag_keys (use_aggressive : bool) (k : string) :
  k ∈ map fst (get_rust_optimization_flags use_aggressive) →
  k ∈ ["RUSTFLAGS"; "CARGO_PROFILE_RELEASE_LTO"; "CARGO_PROFILE_RELEASE_OPT_LEVEL";
       "CARGO_PROFILE_RELEASE_EMBED_BITCODE"].
Proof. destruct use_aggressive; simpl; set_solver. Qed.

(** The indexer environment: the composed environment with the Rust flags
    written over it. *)
Lemma electrs_environment_content (cfg : config) (use_aggressive_opts : bool)
  (w : world) :
  ∃ w' w1, electrs_environment cfg use_aggressive_opts w
             = (Ok (fresh (dom (w_store w))), w') ∧
           setup_build_environment cfg use_aggressive_opts w
             = (Ok (fresh (dom (w_store w))), w1) ∧
           content_of w' (fresh (dom (w_store w))) =
             with_flags (get_rust_optimization_flags use_aggressive_opts)
               (content_of w1 (fresh (dom (w_store w)))).
Proof.
  unfold electrs_environment.
  destruct (setup_build_environment_spec cfg use_aggressive_opts w)
    as (w1 & E1 & _ & _ & _ & Hsome & _).
  rewrite (bind_ok _ _ _ _ _ E1).
  destruct (updates_set_flags (fresh (dom (w_store w)))
              (get_rust_optimization_flags use_aggressive_opts) w1 Hsome)
    as ([] & w2 & E2 & _ & Hc).
  rewrite (bind_ok _ _ _ _ _ E2). by exists w2, w1.
Qed.

End ComposerLookups.

(** X10. The search path of the composed environment begins with the bin
    directory of Homebrew (that of the detected prefix, [/opt/homebrew/bin]
    when none was detected), lists the toolchain directories without
    repeating one, and ends with the inherited [PATH], whole and unchanged,
    after a colon.  An inherited [PATH] that is empty, or that is itself
    one of the toolchain directories, adds nothing. *)
Theorem composer_path_order (cfg : config) (use_aggressive_opts : bool) (w : world) :
  BREW_PREFIX cfg ≠ Some "" →
  let inherited := default "" (content_of w environ_ref !! "PATH") in
  let toolchain := toolchain_components cfg (w_fs w) in
  ∃ env w' rest,
    setup_build_environment cfg use_aggressive_opts w = (Ok env, w') ∧
    unique_paths_of toolchain = first_path cfg :: rest ∧
    NoDup (unique_paths_of toolchain) ∧
    content_of w' env !! "PATH" =
      Some (if truthy inherited && bool_decide (inherited ∉ toolchain)
            then Str.join ":" (unique_paths_of toolchain) +:+ ":" +:+ inherited
            else Str.join ":" (unique_paths_of toolchain)).
Proof.
  intros _ inherited toolchain.
  destruct (setup_build_environment_spec cfg use_aggressive_opts w)
    as (w' & E & _ & _ & _ & _ & _ & Hpath).
  destruct (toolchain_head cfg (w_fs w)) as [l Hl]. fold toolchain in Hl.
  destruct (unique_paths_head (first_path cfg) l (first_path_truthy cfg))
    as [rest Hrest].
  exists (fresh (dom (w_store w))), w', rest. split; [done|].
  rewrite Hl, Hrest. split; [done|]. split.
  { rewrite <- Hrest. apply unique_loop_NoDup. }
  rewrite Hpath. f_equal. fold inherited. unfold composed_path. fold toolchain.
  unfold unique_paths_of at 1. rewrite unique_loop_snoc.
  rewrite (bool_decide_eq_true_2 (inherited ∉ (∅ : gset string))) by set_solver.
  rewrite andb_true_r, Hl. fold (unique_paths_of (first_path cfg :: l)).
  rewrite Hrest.
  destruct (truthy inherited && bool_decide (inherited ∉ first_path cfg :: l)).
  - by apply join_snoc.
  - by rewrite app_nil_r.
Qed.

Lemma composer_path_order_witness :
  ∃ env w',
    setup_build_environment brewed_config false brewed_world = (Ok env, w') ∧
    content_of w' env !! "PATH" =
      Some "/opt/homebrew/bin:/usr/local/bin:/Users/dev/.cargo/bin:/opt/homebrew/opt/llvm/bin:/usr/bin:/bin".
Proof.
  destruct (composer_path_order brewed_config false brewed_world)
    as (env & w' & rest & E & _ & _ & H); [done|].
  exists env, w'. split; [done|]. rewrite H. by vm_compute.
Defined.

(** X11. In the composed environment [CFLAGS] and [CXXFLAGS] are always
    set, to one and the same value.  Link-time optimisation is switched on
    consistently: the flags contain [-flto] and [-O3] exactly at the
    aggressive tier on an architecture the flags are tuned for, and exactly
    then [LDFLAGS] is set, to [-flto]; otherwise [LDFLAGS] is not written,
    so a value inherited from [os.environ] passes through. *)
Theorem composer_flags (cfg : config) (use_aggressive_opts : bool) (w : world) :
  ∃ env w' flags,
    setup_build_environment cfg use_aggressive_opts w = (Ok env, w') ∧
    content_of w' env !! "CFLAGS" = Some flags ∧
    content_of w' env !! "CXXFLAGS" = Some flags ∧
    Str.contains "-O2" flags = true ∧
    Str.contains "-flto" flags = use_aggressive_opts && tuned cfg ∧
    Str.contains "-O3" flags = use_aggressive_opts && tuned cfg ∧
    content_of w' env !! "LDFLAGS" =
      if use_aggressive_opts && tuned cfg then Some "-flto"
      else content_of w environ_ref !! "LDFLAGS".
Proof.
  destruct (setup_build_environment_content cfg use_aggressive_opts w)
    as (w' & E & Hc).
  exists (fresh (dom (w_store w))), w'. rewrite Hc.
  set (e := with_llvm _ _).
  assert (e !! "LDFLAGS" = content_of w environ_ref !! "LDFLAGS") as He.
  { unfold e. rewrite with_llvm_other by done. by rewrite lookup_insert_ne. }
  unfold get_optimization_flags, tuned.
  destruct (ARCH cfg), use_aggressive_opts;
    cbv [with_flags fold_left Str.join app String.append truthy fst snd];
    eexists; (split; [done|]);
    rewrite ?lookup_insert_eq, ?(lookup_insert_ne _ "LDFLAGS" "CFLAGS"),
      ?(lookup_insert_ne _ "LDFLAGS" "CXXFLAGS"),
      ?(lookup_insert_ne _ "CXXFLAGS" "CFLAGS"),
      ?(lookup_insert_ne _ "CXXFLAGS" "LDFLAGS"),
      ?(lookup_insert_ne _ "CFLAGS" "LDFLAGS"), ?lookup_insert_eq by done;
    (split; [reflexivity|]); (split; [reflexivity|]);
    (split; [by vm_compute|]); (split; [by vm_compute|]);
    (split; [by vm_compute|]); done.
Qed.

(** X12. The composer points [LIBCLANG_PATH] and [DYLD_LIBRARY_PATH] at one
    and the same place: the [lib] directory of the first LLVM candidate
    that is a directory, the one under the detected Homebrew prefix coming
    first.  When no candidate is a directory neither variable is written,
    and both keep the value they have in [os.environ]. *)
Theorem composer_llvm_paths (cfg : config) (use_aggressive_opts : bool) (w : world) :
  BREW_PREFIX cfg ≠ Some "" →
  ∃ env w',
    setup_build_environment cfg use_aggressive_opts w = (Ok env, w') ∧
    (∀ brew, BREW_PREFIX cfg = Some brew →
             w_fs w !! (brew +:+ "/opt/llvm") = Some Dir →
             llvm_prefix cfg (w_fs w) = Some (brew +:+ "/opt/llvm")) ∧
    match llvm_prefix cfg (w_fs w) with
    | Some p =>
        Some p ∈ llvm_candidates cfg ∧ w_fs w !! p = Some Dir ∧
        content_of w' env !! "LIBCLANG_PATH" = Some (p +:+ "/lib") ∧
        content_of w' env !! "DYLD_LIBRARY_PATH" = Some (p +:+ "/lib")
    | None =>
        w_fs w !! "/opt/homebrew/opt/llvm" ≠ Some Dir ∧
        w_fs w !! "/usr/local/opt/llvm" ≠ Some Dir ∧
        content_of w' env !! "LIBCLANG_PATH" =
          content_of w environ_ref !! "LIBCLANG_PATH" ∧
        content_of w' env !! "DYLD_LIBRARY_PATH" =
          content_of w environ_ref !! "DYLD_LIBRARY_PATH"
    end.
Proof.
  intros _.
  destruct (setup_build_environment_content cfg use_aggressive_opts w)
    as (w' & E & Hc).
  exists (fresh (dom (w_store w))), w'. split; [done|]. split.
  { intros brew Hb Hd. unfold llvm_prefix, llvm_candidates. rewrite Hb. simpl.
    rewrite Hd. by destruct brew. }
  rewrite Hc.
  assert (∀ k e, k = "LIBCLANG_PATH" ∨ k = "DYLD_LIBRARY_PATH" →
            with_flags (get_optimization_flags cfg use_aggressive_opts) e !! k
            = e !! k) as Hflags.
  { intros k e Hk. apply with_flags_other. rewrite optimization_flag_keys.
    rewrite !elem_of_cons, elem_of_nil. by intros [->|[->|[->|[]]]]; destruct Hk. }
  rewrite !Hflags by auto.
  destruct (llvm_prefix cfg (w_fs w)) as [p|] eqn:Hp; unfold llvm_prefix in Hp.
  - destruct (existing_dirs (w_fs w) (llvm_candidates cfg)) as [|q l] eqn:Hl; [done|].
    injection Hp as ->.
    destruct (existing_dirs_elem (w_fs w) (llvm_candidates cfg) p) as [Hin Hd].
    { rewrite Hl. left. }
    simpl. rewrite lookup_insert_ne by done. by rewrite !lookup_insert_eq.
  - destruct (existing_dirs (w_fs w) (llvm_candidates cfg)) as [|q l] eqn:Hl; [|done].
    simpl. rewrite !lookup_insert_ne by done.
    split; [|split; [|done]];
      apply (existing_dirs_nil _ _ _ Hl); try done; unfold llvm_candidates;
      set_solver.
Qed.

Lemma composer_llvm_paths_witness :
  ∃ env w',
    setup_build_environment brewed_config false brewed_world = (Ok env, w') ∧
    content_of w' env !! "LIBCLANG_PATH" = Some "/opt/homebrew/opt/llvm/lib" ∧
    content_of w' env !! "DYLD_LIBRARY_PATH" = Some "/opt/homebrew/opt/llvm/lib".
Proof.
  destruct (composer_llvm_paths brewed_config false brewed_world)
    as (env & w' & E & Hfirst & H); [done|].
  rewrite (Hfirst "/opt/homebrew") in H by (by vm_compute).
  destruct H as (_ & _ & H1 & H2). by exists env, w'.
Defined.

(** X13. The environment of the indexer build is the composed environment
    with the Rust flags written over it: apart from the four Rust
    variables it has the items of the composed environment; the
    optimisation level in [RUSTFLAGS] and in the Cargo profile are the
    same, 3 at the aggressive tier and 2 otherwise; and link-time
    optimisation and bitcode are asked for at the aggressive tier only,
    the two variables being left as inherited otherwise. *)
Theorem electrs_environment_flags (cfg : config) (use_aggressive_opts : bool)
  (w : world) :
  let level := if use_aggressive_opts then "3" else "2" in
  ∃ env w' w1,
    electrs_environment cfg use_aggressive_opts w = (Ok env, w') ∧
    setup_build_environment cfg use_aggressive_opts w = (Ok env, w1) ∧
    (∀ k, k ∉ ["RUSTFLAGS"; "CARGO_PROFILE_RELEASE_LTO";
               "CARGO_PROFILE_RELEASE_OPT_LEVEL";
               "CARGO_PROFILE_RELEASE_EMBED_BITCODE"] →
          content_of w' env !! k = content_of w1 env !! k) ∧
    content_of w' env !! "RUSTFLAGS" =
      Some ("-C opt-level=" +:+ level +:+ " -C target-cpu=native") ∧
    content_of w' env !! "CARGO_PROFILE_RELEASE_OPT_LEVEL" = Some level ∧
    content_of w' env !! "CARGO_PROFILE_RELEASE_LTO" =
      (if use_aggressive_opts then Some "fat"
       else content_of w1 env !! "CARGO_PROFILE_RELEASE_LTO") ∧
    content_of w' env !! "CARGO_PROFILE_RELEASE_EMBED_BITCODE" =
      (if use_aggressive_opts then Some "yes"
       else content_of w1 env !! "CARGO_PROFILE_RELEASE_EMBED_BITCODE").
Proof.
  intros level.
  destruct (electrs_environment_content cfg use_aggressive_opts w)
    as (w' & w1 & E & E1 & Hc).
  exists (fresh (dom (w_store w))), w', w1. split; [done|]. split; [done|].
  rewrite Hc. split.
  { intros k Hk. apply with_flags_other. intros Hin.
    by apply Hk, (rust_flag_keys use_aggressive_opts). }
  subst level. unfold get_rust_optimization_flags.
  destruct use_aggressive_opts;
    cbv [with_flags fold_left truthy fst snd];
    rewrite ?lookup_insert_eq;
    repeat (rewrite lookup_insert_ne by done; rewrite ?lookup_insert_eq);
    done.
Qed.

(** X14. The Homebrew prefix the module settles on when it is loaded is the
    prefix of the [brew] it found: with a prefix, [<prefix>/bin/brew] is
    the path found and is a regular file, the Apple Silicon location being
    taken whenever its [brew] is there; and there is no prefix exactly
    when neither location holds a regular file. *)
Theorem brew_prefix_of_found (f : fs) :
  match brew_prefix f with
  | Some prefix =>
      find_brew f = Some (prefix +:+ "/bin/brew") ∧
      isfile f (prefix +:+ "/bin/brew") = true ∧
      (prefix = "/opt/homebrew" ∨
       prefix = "/usr/local" ∧ isfile f "/opt/homebrew/bin/brew" = false)
  | None =>
      find_brew f = None ∧
      isfile f "/opt/homebrew/bin/brew" = false ∧
      isfile f "/usr/local/bin/brew" = false
  end.
Proof.
  assert (Str.contains "/opt/homebrew" "/opt/homebrew/bin/brew" = true) as H1
    by (by vm_compute).
  assert (Str.contains "/opt/homebrew" "/usr/local/bin/brew" = false) as H2
    by (by vm_compute).
  unfold brew_prefix, find_brew. cbn [first_file].
  destruct (isfile f "/opt/homebrew/bin/brew") eqn:E1.
  - cbv [truthy]. rewrite H1.
    change ("/opt/homebrew" +:+ "/bin/brew") with "/opt/homebrew/bin/brew". auto.
  - destruct (isfile f "/usr/local/bin/brew") eqn:E2; [|done].
    cbv [truthy]. rewrite H2.
    change ("/usr/local" +:+ "/bin/brew") with "/usr/local/bin/brew". auto.
Qed.

(** ** Where the collector writes *)

Section CollectorFrame.










End CollectorFrame.


